(** * pmm-import-export-tool: load controller and transfer pipeline

    A shallow embedding of [pkg/transferer/load.go] and
    [pkg/transferer/transferer.go].

    Conventions.
    - A Go [string] is a [string] (a sequence of bytes); [float64] is the
      primitive binary64 type [float], compared with the IEEE comparisons
      [PrimFloat.leb] and [PrimFloat.eqb]; [int] is a [Z] kept in the
      64-bit two's complement range by [wrap_int].
    - An [error] is its message; a nil error is [None].  A Go function
      returning [(v, err)] returns the pair.
    - Functions of Go's standard library that the code only calls are
      written out from their documented behaviour when they are small
      ([strings.TrimSpace], [strings.Split], [path.Split], [path.Join]);
      the large ones ([strconv.ParseFloat], [json.Unmarshal], the query
      encoder of fasthttp) are fields of the class [GoLib].
    - The zerolog calls write to the process log only; those of
      [Transferer.Import] are kept, with their level, the others are left
      out.
    - The goroutines of [Export] are not modelled: a reader worker and
      the writer are each described on their own, the reader by what it
      observes at each iteration, the writer by the chunks the channel
      delivers before it is closed. *)

From Stdlib Require Import ZArith List String Ascii Lia Bool Floats.
From Stdlib Require Import DecimalString Permutation.
From stdpp Require Import gmap strings list fin_maps.

Local Open Scope Z_scope.

(** ** Go prelude *)

Definition error : Type := string.

(** [errors.New] and [errors.Wrap] of github.com/pkg/errors: the wrapped
    message is ["msg: cause"]. *)
Definition errors_New (msg : string) : error := msg.
Definition errors_Wrap (err : error) (msg : string) : error :=
  msg +:+ ": " +:+ err.

(** [%d] of an [int]. *)
Definition itoa (z : Z) : string := NilZero.string_of_int (Z.to_int z).

(** Go's [int] on a 64-bit platform. *)
Definition int_min : Z := - 2 ^ 63.
Definition int_max : Z := 2 ^ 63 - 1.
Definition wrap_int (z : Z) : Z := (z + 2 ^ 63) mod 2 ^ 64 - 2 ^ 63.

(** A value of type [interface{}] as [encoding/json] produces it. *)
#[warnings="-register-all"]
Inductive any : Type :=
  | AnyNil
  | AnyBool (b : bool)
  | AnyFloat64 (f : float)
  | AnyString (s : string)
  | AnySlice (l : list any)
  | AnyMap (m : list (string * any)).

(** How a call ends: it returns, or a run-time panic unwinds it. *)
Inductive run (A : Type) : Type :=
  | Returns (a : A)
  | Panics (msg : string).
Arguments Returns {A} a.
Arguments Panics {A} msg.

(** A small state monad for the code that talks to the outside. *)
Definition M (W A : Type) : Type := W -> A * W.
Definition ret {W A} (a : A) : M W A := fun w => (a, w).
Definition bind {W A B} (m : M W A) (k : A -> M W B) : M W B :=
  fun w => let '(a, w') := m w in k a w'.
Notation "'letM' x ':=' m 'in' k" := (bind m (fun x => k))
  (at level 10, x pattern, m at level 200, k at level 200).

(** ** load.go: statuses and thresholds *)

Definition LoadStatus : Type := Z.
Definition LoadStatusNone : LoadStatus := 0.
Definition LoadStatusOK : LoadStatus := 1.
Definition LoadStatusWait : LoadStatus := 2.
Definition LoadStatusTerminate : LoadStatus := 3.
Definition MaxWaitStatusInSequence : Z := 10.

Definition LoadStatus_String (s : LoadStatus) : string :=
  if s =? LoadStatusNone then "NONE"
  else if s =? LoadStatusOK then "OK"
  else if s =? LoadStatusWait then "WAIT"
  else if s =? LoadStatusTerminate then "TERMINATE"
  else "UNDEFINED".

Definition ThresholdKey : Type := string.
Definition ThresholdCPU : ThresholdKey := "CPU".
Definition ThresholdRAM : ThresholdKey := "RAM".

Definition AllThresholdKeys : list ThresholdKey := [ThresholdCPU; ThresholdRAM].

Definition IsValidThresholdKey (v : string) : bool :=
  existsb (fun k => String.eqb k v) AllThresholdKeys.

Record Threshold : Type := mkThreshold {
  Key : ThresholdKey;
  Query : string;
  MaxLoad : float;
  CriticalLoad : float
}.

Record metricResult : Type := mkMetricResult {
  Metric_Instance : string;
  Value : list any
}.

Record metricResponse : Type := mkMetricResponse {
  Status : string;
  Data_ResultType : string;
  Data_Result : list metricResult
}.

(** The library functions the controller calls and that are not written
    out here.  Each returns what the Go function returns. *)
Class GoLib : Type := {
  (** [strconv.ParseFloat(s, 64)] *)
  strconv_ParseFloat : string -> float * option error;
  (** [json.Unmarshal(body, &resp)] on a zero [metricResponse] *)
  json_Unmarshal : string -> metricResponse * option error;
  (** [q.String()] of fasthttp arguments holding the one pair
      [("query", v)] *)
  Args_query_String : string -> string
}.

(** The fasthttp client: what [Get] answers to a URL, given the URLs
    requested before. *)
Record Client : Type := {
  Get : list string -> string -> Z * string * option error
}.

Record LoadChecker : Type := mkLoadChecker {
  c : Client;
  connectionURL : string;
  thresholds : list Threshold;
  latestStatus : LoadStatus;
  waitStatusCounter : Z
}.

(** The world of the controller: the URLs requested so far, oldest
    first. *)
Definition Net : Type := list string.

Definition StatusOK : Z := 200.

(** [a >= b] on [float64]. *)
Definition fge (a b : float) : bool := PrimFloat.leb b a.

Section Controller.
Context {lib : GoLib}.

Definition getValidValue (r : metricResponse) : float * option error :=
  if negb (String.eqb (Status r) "success") then
    (0%float, Some (errors_New "status is not success"))
  else match Data_Result r with
  | [] => (0%float, Some (errors_New "empty result"))
  | r0 :: _ =>
    match Value r0 with
    | [_; v1] =>
      match v1 with
      | AnyString str =>
        match strconv_ParseFloat str with
        | (_, Some err) => (0%float, Some ("parsing value error: " +:+ err))
        | (val, None) => (val, None)
        end
      | _ => (0%float, Some (errors_New "value is not string"))
      end
    | _ => (0%float, Some (errors_New "unexpected number of values"))
    end
  end.

(** The URL [getMetricCurrentValue] builds for a threshold. *)
Definition queryURL (lc : LoadChecker) (m : Threshold) : string :=
  connectionURL lc +:+ "/api/v1/query?" +:+ Args_query_String (Query m).

Definition getMetricCurrentValue (lc : LoadChecker) (m : Threshold)
  : M Net (float * option error) :=
  fun w =>
    let url := queryURL lc m in
    let '(status, body, err) := Get (c lc) w url in
    let w' := (w ++ [url])%list in
    match err with
    | Some e =>
      ((0%float, Some (errors_Wrap e "failed to send req to load checker endpoint")), w')
    | None =>
      if negb (status =? StatusOK) then
        ((0%float, Some ("non-ok response: status " +:+ itoa status +:+ ": " +:+ body)), w')
      else
        match json_Unmarshal body with
        | (_, Some e) => ((0%float, Some ("error parsing thresholds: " +:+ e)), w')
        | (resp, None) =>
          match getValidValue resp with
          | (_, Some e) => ((0%float, Some ("error parsing threshold: " +:+ e)), w')
          | (value, None) => ((value, None), w')
          end
        end
    end.

(** The loop of [checkMetricsLoad] over the thresholds that are left,
    [loadStatus] being the candidate status so far. *)
Fixpoint checkLoop (lc : LoadChecker) (ts : list Threshold) (loadStatus : LoadStatus)
  : M Net (LoadStatus * option error) :=
  match ts with
  | [] => ret (loadStatus, None)
  | t :: rest =>
    letM (value, err) := getMetricCurrentValue lc t in
    match err with
    | Some e =>
      ret (LoadStatusNone,
           Some ("failed to retrieve threshold value for " +:+ Key t +:+ ": " +:+ e))
    | None =>
      if fge value (CriticalLoad t) then ret (LoadStatusTerminate, None)
      else if fge value (MaxLoad t) then checkLoop lc rest LoadStatusWait
      else checkLoop lc rest loadStatus
    end
  end.

Definition checkMetricsLoad (lc : LoadChecker) : M Net (LoadStatus * option error) :=
  checkLoop lc (thresholds lc) LoadStatusOK.

Definition GetLatestStatus (lc : LoadChecker) : LoadStatus := latestStatus lc.

Definition setLatestStatus (lc : LoadChecker) (s : LoadStatus) : LoadChecker :=
  mkLoadChecker (c lc) (connectionURL lc) (thresholds lc) s (waitStatusCounter lc).

Definition setWaitStatusCounter (lc : LoadChecker) (n : Z) : LoadChecker :=
  mkLoadChecker (c lc) (connectionURL lc) (thresholds lc) (latestStatus lc) n.

(** The value of [status] in [updateStatus] once a failed check has been
    folded into WAIT, before the counter is looked at. *)
Definition foldError (r : LoadStatus * option error) : LoadStatus :=
  match r with
  | (_, Some _) => LoadStatusWait
  | (status, None) => status
  end.

Definition updateStatus (lc : LoadChecker) : M Net LoadChecker :=
  letM r := checkMetricsLoad lc in
  let status := foldError r in
  let '(lc, status) :=
    if status =? LoadStatusWait then
      let lc := setWaitStatusCounter lc (wrap_int (waitStatusCounter lc + 1)) in
      if waitStatusCounter lc >? MaxWaitStatusInSequence
      then (lc, LoadStatusTerminate)
      else (lc, status)
    else (setWaitStatusCounter lc 0, status) in
  ret (setLatestStatus lc status).

(** The struct literal of [NewLoadChecker], before the first check. *)
Definition newLoadChecker (cl : Client) (url : string) (ths : list Threshold) : LoadChecker :=
  mkLoadChecker cl url ths LoadStatusWait 0.

(** [runStatusUpdate]: the goroutine calls [updateStatus] once per tick
    of its ticker until the context is done; [ticks] is the number of
    ticks it sees. *)
Fixpoint runStatusUpdate (ticks : nat) (lc : LoadChecker) : M Net LoadChecker :=
  match ticks with
  | O => ret lc
  | S n => letM lc' := updateStatus lc in runStatusUpdate n lc'
  end.

Definition NewLoadChecker (ticks : nat) (cl : Client) (url : string) (ths : list Threshold)
  : M Net LoadChecker :=
  letM lc := updateStatus (newLoadChecker cl url ths) in
  if negb (Nat.eqb (length ths) 0) then runStatusUpdate ticks lc else ret lc.

End Controller.

(** ** The [strings] and [path] functions the code calls *)

Module GoStrings.

(** [strings.Contains(s, sub)] for a one-byte [sub]. *)
Fixpoint Contains (s : string) (sub : ascii) : bool :=
  match s with
  | EmptyString => false
  | String a r => Ascii.eqb a sub || Contains r sub
  end.

(** [strings.Split(s, sep)] for a one-byte [sep]. *)
Fixpoint Split (s : string) (sep : ascii) : list string :=
  match s with
  | EmptyString => [EmptyString]
  | String a r =>
    if Ascii.eqb a sep then EmptyString :: Split r sep
    else match Split r sep with
         | h :: t => String a h :: t
         | [] => [String a EmptyString]
         end
  end.

(** [strings.Join(elems, sep)]. *)
Fixpoint Join (elems : list string) (sep : string) : string :=
  match elems with
  | [] => EmptyString
  | [e] => e
  | e :: rest => e +:+ sep +:+ Join rest sep
  end.

(** The code points for which [unicode.IsSpace] holds. *)
Definition spaceRunes : list N :=
  [0x09; 0x0A; 0x0B; 0x0C; 0x0D; 0x20; 0x85; 0xA0; 0x1680;
   0x2000; 0x2001; 0x2002; 0x2003; 0x2004; 0x2005; 0x2006; 0x2007;
   0x2008; 0x2009; 0x200A; 0x2028; 0x2029; 0x202F; 0x205F; 0x3000]%N.

(** UTF-8 of a code point below U+10000. *)
Definition utf8 (r : N) : list ascii :=
  (if r <? 0x80 then [ascii_of_N r]
   else if r <? 0x800 then
     [ascii_of_N (0xC0 + r / 64); ascii_of_N (0x80 + r mod 64)]
   else
     [ascii_of_N (0xE0 + r / 4096); ascii_of_N (0x80 + (r / 64) mod 64);
      ascii_of_N (0x80 + r mod 64)])%N.

Definition spaceTokens : list (list ascii) := map utf8 spaceRunes.

(** [stripPrefix t s] is the rest of [s] after its prefix [t]. *)
Fixpoint stripPrefix (t s : list ascii) : option (list ascii) :=
  match t, s with
  | [], _ => Some s
  | a :: t', b :: s' => if Ascii.eqb a b then stripPrefix t' s' else None
  | _ :: _, [] => None
  end.

Fixpoint stripAny (toks : list (list ascii)) (s : list ascii) : option (list ascii) :=
  match toks with
  | [] => None
  | t :: ts =>
    match stripPrefix t s with
    | Some r => Some r
    | None => stripAny ts s
    end
  end.

(** Drop leading tokens, at most [n] of them. *)
Fixpoint trimLeftN (toks : list (list ascii)) (n : nat) (s : list ascii) : list ascii :=
  match n with
  | O => s
  | S n' =>
    match stripAny toks s with
    | Some r => trimLeftN toks n' r
    | None => s
    end
  end.

Definition trimLeft (toks : list (list ascii)) (s : list ascii) : list ascii :=
  trimLeftN toks (length s) s.

Definition trimRight (toks : list (list ascii)) (s : list ascii) : list ascii :=
  rev (trimLeft (map (@rev ascii) toks) (rev s)).

(** [strings.TrimSpace]: the leading, then the trailing, well-formed
    encodings of white space are cut; a byte that does not decode stops
    the cut. *)
Definition TrimSpace (s : string) : string :=
  string_of_list_ascii
    (trimRight spaceTokens (trimLeft spaceTokens (list_ascii_of_string s))).

(** [s[:hi]]; [None] is the panic "slice bounds out of range". *)
Definition slice_to (s : string) (hi : Z) : option string :=
  if (0 <=? hi) && (hi <=? Z.of_nat (String.length s))
  then Some (substring 0 (Z.to_nat hi) s)
  else None.

(** [path.Split]: the cut is after the last slash. *)
Fixpoint path_Split (p : string) : string * string :=
  match p with
  | EmptyString => (EmptyString, EmptyString)
  | String a r =>
    match path_Split r with
    | (EmptyString, file) =>
      if Ascii.eqb a "/" then (String a EmptyString, file)
      else (EmptyString, String a file)
    | (dir, file) => (String a dir, file)
    end
  end.

(** [path.Clean].  [rout] is the output buffer, last byte first;
    [dotdot] the index below which the output is not backtracked;
    [inElem] says that the inner loop copying a path element runs. *)
Fixpoint dropElem (rout : list ascii) (dropped : ascii) (dotdot : nat) : list ascii :=
  match rout with
  | [] => []
  | ch :: rout' =>
    if (dotdot <? length rout)%nat && negb (Ascii.eqb dropped "/")
    then dropElem rout' ch dotdot
    else rout
  end.

Fixpoint cleanLoop (rooted : bool) (rest rout : list ascii) (dotdot : nat)
    (inElem : bool) : list ascii :=
  match rest with
  | [] => rout
  | ch :: rest' =>
    if inElem then
      if Ascii.eqb ch "/" then cleanLoop rooted rest' rout dotdot false
      else cleanLoop rooted rest' (ch :: rout) dotdot true
    else if Ascii.eqb ch "/" then cleanLoop rooted rest' rout dotdot false
    else
      let endsElem (l : list ascii) :=
        match l with [] => true | d :: _ => Ascii.eqb d "/" end in
      if Ascii.eqb ch "." && endsElem rest' then cleanLoop rooted rest' rout dotdot false
      else
        let default :=
          let rout1 :=
            if (rooted && negb (Nat.eqb (length rout) 1))
               || (negb rooted && negb (Nat.eqb (length rout) 0))
            then "/"%char :: rout else rout in
          cleanLoop rooted rest' (ch :: rout1) dotdot true in
        match rest' with
        | d :: rest'' =>
          if Ascii.eqb ch "." && Ascii.eqb d "." && endsElem rest'' then
            if (dotdot <? length rout)%nat then
              match rout with
              | last :: rout' => cleanLoop rooted rest'' (dropElem rout' last dotdot) dotdot false
              | [] => cleanLoop rooted rest'' rout dotdot false
              end
            else if negb rooted then
              let rout1 := if (0 <? length rout)%nat then "/"%char :: rout else rout in
              let rout2 := "."%char :: "."%char :: rout1 in
              cleanLoop rooted rest'' rout2 (length rout2) false
            else cleanLoop rooted rest'' rout dotdot false
          else default
        | [] => default
        end
  end.

Definition path_Clean (p : string) : string :=
  match list_ascii_of_string p with
  | [] => "."
  | ch :: rest =>
    let rooted := Ascii.eqb ch "/" in
    let rout :=
      if rooted then cleanLoop true rest ["/"%char] 1 false
      else cleanLoop false (ch :: rest) [] 0 false in
    match rout with
    | [] => "."
    | _ => string_of_list_ascii (rev rout)
    end
  end.

(** [path.Join]. *)
Definition path_Join (elem : list string) : string :=
  if Nat.eqb (list_sum (map String.length elem)) 0 then EmptyString
  else
    path_Clean
      (fold_left
         (fun buf e =>
            if negb (Nat.eqb (String.length buf) 0) || negb (String.eqb e EmptyString)
            then (if negb (Nat.eqb (String.length buf) 0) then buf +:+ "/" else buf) +:+ e
            else buf)
         elem EmptyString).

(** [path.Dir]. *)
Definition path_Dir (p : string) : string := path_Clean (fst (path_Split p)).

End GoStrings.
Import GoStrings.

(** ** load.go: the threshold lists *)

(** The double quote, for the query texts. *)
Definition dq : string := String (ascii_of_nat 34) EmptyString.

(** [None] is the panic on an undefined threshold key. *)
Definition getQueryByThresholdKey (k : ThresholdKey) : option string :=
  if String.eqb k ThresholdCPU then
    Some ("100 - (avg by (instance) (rate(node_cpu_seconds_total{mode=" +:+ dq +:+ "idle"
          +:+ dq +:+ ",node_name=" +:+ dq +:+ "pmm-server" +:+ dq +:+ "}[5s])) * 100)")
  else if String.eqb k ThresholdRAM then
    Some ("100 * (1 - ((avg_over_time(node_memory_MemFree_bytes{node_name=" +:+ dq
          +:+ "pmm-server" +:+ dq
          +:+ "}[5s]) + avg_over_time(node_memory_Cached_bytes{node_name=" +:+ dq
          +:+ "pmm-server" +:+ dq
          +:+ "}[5s]) + avg_over_time(node_memory_Buffers_bytes{node_name=" +:+ dq
          +:+ "pmm-server" +:+ dq
          +:+ "}[5s])) / avg_over_time(node_memory_MemTotal_bytes{node_name=" +:+ dq
          +:+ "pmm-server" +:+ dq +:+ "}[5s])))")
  else None.

Section Thresholds.
Context {lib : GoLib}.

(** The loop of [parseThresholdValues] over the pairs that are left. *)
Fixpoint parsePairs (pairs : list string) (res : gmap string float)
  : gmap string float * option error :=
  match pairs with
  | [] => (res, None)
  | p :: pairs' =>
    let separator := if Contains p ":" then ":"%char else "="%char in
    let values := Split p separator in
    if negb (Nat.eqb (length values) 2) then
      (∅, Some (errors_New "invalid syntax: must be K=V or K:V"))
    else
      let k := TrimSpace (nth 0 values EmptyString) in
      if negb (IsValidThresholdKey k) then (∅, Some ("undefined key: " +:+ k))
      else
        match strconv_ParseFloat (TrimSpace (nth 1 values EmptyString)) with
        | (_, Some err) => (∅, Some (errors_Wrap err "can't parse number: %w"))
        | (v, None) => parsePairs pairs' (<[k := v]> res)
        end
  end.

(** A nil map reads like the empty map. *)
Definition parseThresholdValues (v : string) : gmap string float * option error :=
  let v := TrimSpace v in
  if String.eqb v EmptyString then (∅, None)
  else parsePairs (Split v ",") ∅.

(** The loop of [ParseThresholdList] over the keys that are left. *)
Fixpoint thresholdsLoop (keys : list ThresholdKey) (maxV criticalV : gmap string float)
    (thresholds : list Threshold) : run (list Threshold) :=
  match keys with
  | [] => Returns thresholds
  | k :: keys' =>
    let maxLoad := default 0%float (maxV !! k) in
    let maxOk := bool_decide (is_Some (maxV !! k)) in
    let criticalLoad := default 0%float (criticalV !! k) in
    let criticalOk := bool_decide (is_Some (criticalV !! k)) in
    if negb maxOk && negb criticalOk then thresholdsLoop keys' maxV criticalV thresholds
    else
      match getQueryByThresholdKey k with
      | None => Panics "BUG: undefined threshold key"
      | Some q =>
        thresholdsLoop keys' maxV criticalV
          (thresholds ++ [mkThreshold k q maxLoad criticalLoad])%list
      end
  end.

Definition ParseThresholdList (max critical : string)
  : run (list Threshold * option error) :=
  match parseThresholdValues max with
  | (_, Some err) => Returns ([], Some (errors_Wrap err "invalid max load list"))
  | (maxV, None) =>
    match parseThresholdValues critical with
    | (_, Some err) => Returns ([], Some (errors_Wrap err "invalid critical load list"))
    | (criticalV, None) =>
      match thresholdsLoop AllThresholdKeys maxV criticalV [] with
      | Returns thresholds => Returns (thresholds, None)
      | Panics msg => Panics msg
      end
    end
  end.

End Thresholds.

(** ** transferer.go *)

(** What [transferer.go] uses of the package [dump]. *)
Class DumpPkg : Type := {
  SourceType : Type;
  SourceType_eq_dec :: EqDecision SourceType;
  UndefinedSource : SourceType;
  SourceType_String : SourceType -> string;
  ParseSourceType : string -> SourceType;
  MetaFilename : string;
  ChunkMeta : Type;
  ChunkMeta_Source : ChunkMeta -> SourceType;
  (** the fields of [dump.Meta] other than [MaxChunkSize] *)
  MetaRest : Type
}.

Inductive Level : Type := DebugLevel | InfoLevel | WarnLevel | ErrorLevel.

Record LogEvent : Type := mkLog {
  level : Level;
  fields : list (string * string);
  message : string
}.

(** [tar.TypeReg] *)
Definition TypeReg : ascii := "0"%char.

Record TarHeader : Type := mkTarHeader {
  Typeflag : ascii;
  Name : string;
  Size : Z;
  Mode : Z
}.

Record TarEntry : Type := mkTarEntry {
  header : TarHeader;
  body : string
}.

(** A [tar.Writer]: the entries written so far and the number of calls
    made on the writer. *)
Record TarWriter : Type := mkTarWriter {
  entries : list TarEntry;
  writes : nat
}.

(** What [tar.Reader.Next] meets: a file, or a read error. The end of
    the list is [io.EOF]. *)
Inductive TarItem : Type :=
  | TarFile (name content : string)
  | TarFault (err : error).

Inductive GzStream : Type :=
  | NotGzip (err : error)
  | TarStream (items : list TarItem).

Inductive StatResult : Type :=
  | StatInfo (isDir : bool)
  | StatNotExist
  | StatError (err : error).

(** The operating system as the transferer meets it. *)
Record OS : Type := {
  os_Stdin : GzStream;
  os_Open : string -> GzStream + error;
  os_Stat : string -> StatResult;
  os_MkdirAll : string -> option error;
  os_Create : string -> option error;
  (** [time.Now().UTC().Unix()] *)
  time_Now_Unix : Z;
  (** [runtime.NumCPU()] *)
  runtime_NumCPU : Z;
  (** the I/O error, if any, of the n-th call on the tar writer *)
  tar_fault : nat -> option error
}.

Inductive Dest : Type := Stdout | File (path : string).

(** How an iteration of a worker loop ends. *)
Inductive step (S : Type) : Type :=
  | Continue (s : S)
  | Stop (r : run (option error)) (s : S).
Arguments Continue {S}.
Arguments Stop {S}.

Section Transferer.
Context {dump : DumpPkg}.

Record Chunk : Type := mkChunk {
  Chunk_Source : SourceType;
  Filename : string;
  Content : string
}.

Record Meta : Type := mkMeta {
  MaxChunkSize : Z;
  Meta_rest : MetaRest
}.

(** The calls made on the adapters, oldest first. *)
Inductive Call : Type :=
  | ReadChunkCall (st : SourceType) (m : ChunkMeta)
  | WriteChunkCall (st : SourceType) (filename content : string)
  | FinalizeWritesCall (st : SourceType).

(** The interface [dump.Source]; a method sees the calls made before. *)
Record Source : Type := {
  Type_ : SourceType;
  ReadChunk : list Call -> ChunkMeta -> option Chunk * option error;
  WriteChunk : list Call -> string -> string -> option error;
  FinalizeWrites : list Call -> option error
}.

Record Transferer : Type := mkTransferer {
  dumpPath : string;
  sources : list Source;
  readWorkersCount : Z;
  piped : bool
}.

(** The functions of package [transferer] that other files define. *)
Class Elsewhere : Type := {
  readAndCompareDumpMeta : string -> Meta -> list LogEvent;
  writeMetafile : OS -> TarWriter -> Meta -> TarWriter * option error
}.
Context {els : Elsewhere}.

Definition New (os : OS) (dumpPath : string) (piped : bool) (s : list Source)
    (workersCount : Z) : option Transferer * option error :=
  if Nat.eqb (length s) 0 then
    (None, Some (errors_New "failed to create transferer with no sources"))
  else
    let workersCount := if workersCount <=? 0 then runtime_NumCPU os else workersCount in
    (Some (mkTransferer dumpPath s workersCount piped), None).

Definition sourceByType (t : Transferer) (st : SourceType) : option Source :=
  find (fun s => bool_decide (Type_ s = st)) (sources t).

(** *** Export: the reader worker *)

(** [time.Second], in nanoseconds. *)
Definition MaxLoadWaitDuration : Z := 1000000000.

(** The interface [ChunkPool] over a pool state [P]. *)
Record ChunkPool (P : Type) : Type := {
  Next : P -> (ChunkMeta * bool) * P
}.
Arguments Next {P} _ _.

(** What a reader worker has done: the pool as it left it, the chunks it
    sent on the channel, its adapter calls and its sleeps. *)
Record Reader (P : Type) : Type := mkReader {
  pool : P;
  chunkC : list Chunk;
  rcalls : list Call;
  sleeps : list Z
}.
Arguments mkReader {P}.
Arguments pool {P}.
Arguments chunkC {P}.
Arguments rcalls {P}.
Arguments sleeps {P}.

(** One iteration of the loop of [readChunksFromSource]; [ctxErr] is
    [ctx.Err()] when the context is done, [status] what
    [lc.GetLatestStatus()] answers.  The send on the channel that ends
    the iteration is taken to complete; [readIterationCh] below has the
    send that may block. *)
Definition readIteration {P} (t : Transferer) (p : ChunkPool P)
    (ctxErr : option error) (status : LoadStatus) (w : Reader P) : step (Reader P) :=
  match ctxErr with
  | Some e => Stop (Returns (Some e)) w
  | None =>
    if status =? LoadStatusWait then
      Continue (mkReader (pool w) (chunkC w) (rcalls w) (sleeps w ++ [MaxLoadWaitDuration]))
    else if status =? LoadStatusTerminate then
      Stop (Returns (Some (errors_New "got terminate load status"))) w
    else if status =? LoadStatusOK then
      let '((chMeta, ok), pool') := Next p (pool w) in
      let w := mkReader pool' (chunkC w) (rcalls w) (sleeps w) in
      if negb ok then Stop (Returns None) w
      else
        match sourceByType t (ChunkMeta_Source chMeta) with
        | None => Stop (Returns (Some (errors_New "failed to find source to read chunk"))) w
        | Some s =>
          let '(c, err) := ReadChunk s (rcalls w) chMeta in
          let w := mkReader (pool w) (chunkC w)
                     (rcalls w ++ [ReadChunkCall (Type_ s) chMeta]) (sleeps w) in
          match err with
          | Some e => Stop (Returns (Some (errors_Wrap e "failed to read chunk"))) w
          | None =>
            match c with
            | None => Stop (Panics "invalid memory address or nil pointer dereference") w
            | Some c => Continue (mkReader (pool w) (chunkC w ++ [c]) (rcalls w) (sleeps w))
            end
          end
        end
    else Stop (Returns (Some (errors_New "unknown load status"))) w
  end.

(** [readChunksFromSource] for at most [fuel] iterations, the [i]-th
    iteration seeing [ctx i] and [lc i]; [None] when the loop runs on. *)
Fixpoint readChunksFromSource {P} (fuel : nat) (t : Transferer) (p : ChunkPool P)
    (ctx : nat -> option error) (lc : nat -> LoadStatus) (i : nat) (w : Reader P)
  : option (run (option error)) * Reader P :=
  match fuel with
  | O => (None, w)
  | S fuel' =>
    match readIteration t p (ctx i) (lc i) w with
    | Stop r w' => (Some r, w')
    | Continue w' => readChunksFromSource fuel' t p ctx lc (S i) w'
    end
  end.

(** *** Export: the writer *)

Definition getDumpFilepath (os : OS) (customPath : string) (ts : Z) : string * option error :=
  let autoFilename := "pmm-dump-" +:+ itoa ts +:+ ".tar.gz" in
  if String.eqb customPath EmptyString then (autoFilename, None)
  else
    match os_Stat os customPath with
    | StatError err => (EmptyString, Some (errors_Wrap err "failed to get custom path info"))
    | st =>
      let isDir := match st with StatInfo d => d | _ => false end in
      let lastIsSep :=
        match String.get (String.length customPath - 1) customPath with
        | Some ch => Ascii.eqb ch "/"
        | None => false
        end in
      if isDir || lastIsSep then (path_Join [customPath; autoFilename], None)
      else (customPath, None)
    end.

(** [tw.WriteHeader]: the entry before must be complete. *)
Definition tar_WriteHeader (os : OS) (tw : TarWriter) (hdr : TarHeader)
  : TarWriter * option error :=
  let tw' := mkTarWriter (entries tw) (S (writes tw)) in
  match tar_fault os (writes tw) with
  | Some e => (tw', Some e)
  | None =>
    let missed :=
      match last (entries tw) with
      | Some e => Size (header e) - Z.of_nat (String.length (body e))
      | None => 0
      end in
    if 0 <? missed then
      (tw', Some ("archive/tar: missed writing " +:+ itoa missed +:+ " bytes"))
    else (mkTarWriter (entries tw ++ [mkTarEntry hdr EmptyString]) (S (writes tw)), None)
  end.

(** [tw.Write]: at most the bytes the header announced are written. *)
Definition tar_Write (os : OS) (tw : TarWriter) (b : string) : TarWriter * option error :=
  let tw' := mkTarWriter (entries tw) (S (writes tw)) in
  match tar_fault os (writes tw) with
  | Some e => (tw', Some e)
  | None =>
    match last (entries tw) with
    | None =>
      if Nat.eqb (String.length b) 0 then (tw', None)
      else (tw', Some "archive/tar: write too long")
    | Some e =>
      let room := Size (header e) - Z.of_nat (String.length (body e)) in
      let n := Z.to_nat (Z.min room (Z.of_nat (String.length b))) in
      let e' := mkTarEntry (header e) (body e +:+ substring 0 n b) in
      let tw'' := mkTarWriter (removelast (entries tw) ++ [e']) (S (writes tw)) in
      if room <? Z.of_nat (String.length b)
      then (tw'', Some "archive/tar: write too long")
      else (tw'', None)
    end
  end.

(** The loop of [writeChunksToFile]; [chunkC] holds the chunks the
    channel delivers before it is closed, [i] counts the iterations. *)
Fixpoint writeLoop (t : Transferer) (os : OS) (ctx : nat -> option error) (i : nat)
    (meta : Meta) (chunkC : list Chunk) (tw : TarWriter) : option error * TarWriter :=
  match ctx i with
  | Some e => (Some e, tw)
  | None =>
    match chunkC with
    | [] =>
      let '(tw, err) := writeMetafile os tw meta in
      (err, tw)
    | c :: chunkC' =>
      match sourceByType t (Chunk_Source c) with
      | None => (Some (errors_New "failed to find source to write chunk"), tw)
      | Some s =>
        let chunkSize := Z.of_nat (String.length (Content c)) in
        let meta :=
          if chunkSize >? MaxChunkSize meta then mkMeta chunkSize (Meta_rest meta)
          else meta in
        let '(tw, err) :=
          tar_WriteHeader os tw
            (mkTarHeader TypeReg (path_Join [SourceType_String (Type_ s); Filename c])
               chunkSize 384 (* 0600 *)) in
        match err with
        | Some e => (Some (errors_Wrap e "failed to write file header"), tw)
        | None =>
          let '(tw, err) := tar_Write os tw (Content c) in
          match err with
          | Some e => (Some (errors_Wrap e "failed to write chunk content"), tw)
          | None => writeLoop t os ctx (S i) meta chunkC' tw
          end
        end
      end
    end
  end.

(** [writeChunksToFile]: where the archive goes, and what is written. *)
Definition writeChunksToFile (t : Transferer) (os : OS) (ctx : nat -> option error)
    (meta : Meta) (chunkC : list Chunk) : option error * option (Dest * TarWriter) :=
  let file :=
    if piped t then (Some Stdout, None)
    else
      match getDumpFilepath os (dumpPath t) (time_Now_Unix os) with
      | (_, Some err) => (None, Some err)
      | (filepath, None) =>
        match os_MkdirAll os (path_Dir filepath) with
        | Some err =>
          (None, Some (errors_Wrap err "failed to create folders for the dump file"))
        | None =>
          match os_Create os filepath with
          | Some err => (None, Some (errors_Wrap err ("failed to create " +:+ filepath)))
          | None => (Some (File filepath), None)
          end
        end
      end in
  match file with
  | (Some dest, _) =>
    let '(err, tw) := writeLoop t os ctx 0 meta chunkC (mkTarWriter [] 0) in
    (err, Some (dest, tw))
  | (None, err) => (err, None)
  end.

(** *** Import *)

(** The world of an import: the adapter calls and the log. *)
Record IO : Type := mkIO {
  calls : list Call;
  logs : list LogEvent
}.

Definition log (l : Level) (fs : list (string * string)) (msg : string) : M IO unit :=
  fun w => (tt, mkIO (calls w) (logs w ++ [mkLog l fs msg])).

Definition callWriteChunk (s : Source) (filename content : string) : M IO (option error) :=
  fun w =>
    (WriteChunk s (calls w) filename content,
     mkIO (calls w ++ [WriteChunkCall (Type_ s) filename content]) (logs w)).

Definition callFinalizeWrites (s : Source) : M IO (option error) :=
  fun w =>
    (FinalizeWrites s (calls w),
     mkIO (calls w ++ [FinalizeWritesCall (Type_ s)]) (logs w)).

(** How the loop of [Import] ends. *)
Inductive loopExit : Type :=
  | Break (metafileExists : bool)
  | Return (err : error)
  | Panic (msg : string).

Fixpoint importLoop (t : Transferer) (runtimeMeta : Meta) (items : list TarItem)
    (metafileExists : bool) : M IO loopExit :=
  letM _ := log DebugLevel [] "Reading file from dump..." in
  match items with
  | [] =>
    letM _ := log DebugLevel [] "Processed complete dump file" in
    ret (Break metafileExists)
  | TarFault err :: _ => ret (Return (errors_Wrap err "failed to read file from dump"))
  | TarFile name content :: items' =>
    let '(dir, filename) := path_Split name in
    if String.eqb filename MetaFilename then
      letM _ := (fun w => (tt, mkIO (calls w)
                  (logs w ++ readAndCompareDumpMeta content runtimeMeta))) in
      importLoop t runtimeMeta items' true
    else
      letM _ := log InfoLevel [] ("Processing chunk '" +:+ name +:+ "'...") in
      match slice_to dir (Z.of_nat (String.length dir) - 1) with
      | None => ret (Panic "slice bounds out of range [:-1]")
      | Some d =>
        let st := ParseSourceType d in
        if bool_decide (st = UndefinedSource) then
          ret (Return ("corrupted dump: found undefined source: " +:+ dir))
        else
          match sourceByType t st with
          | None =>
            letM _ := log WarnLevel []
                        ("Found dump data for " +:+ SourceType_String st
                         +:+ ", but it's not specified - skipped") in
            importLoop t runtimeMeta items' metafileExists
          | Some s =>
            letM err := callWriteChunk s filename content in
            match err with
            | Some e => ret (Return (errors_Wrap e "failed to write chunk"))
            | None =>
              letM _ := log InfoLevel [] ("Successfully processed '" +:+ name +:+ "'") in
              importLoop t runtimeMeta items' metafileExists
            end
          end
      end
  end.

Fixpoint finalizeLoop (ss : list Source) : M IO (option error) :=
  match ss with
  | [] => ret None
  | s :: ss' =>
    letM err := callFinalizeWrites s in
    match err with
    | Some e => ret (Some (errors_Wrap e "failed to finalize import"))
    | None => finalizeLoop ss'
    end
  end.

(** The head of [Import]: the dump is standard input, or the file at
    [dumpPath]. *)
Definition openDump (t : Transferer) (os : OS) : M IO (GzStream + error) :=
  letM _ := log InfoLevel [] "Importing metrics..." in
  if piped t then ret (inl (os_Stdin os))
  else
    letM _ := log InfoLevel [("path", dumpPath t)]%string "Opening dump file..." in
    ret (os_Open os (dumpPath t)).

Definition Import (t : Transferer) (os : OS) (runtimeMeta : Meta) : M IO (run (option error)) :=
  letM file := openDump t os in
  match file with
  | inr err => ret (Returns (Some (errors_Wrap err "failed to open file")))
  | inl (NotGzip err) => ret (Returns (Some (errors_Wrap err "failed to open as gzip")))
  | inl (TarStream items) =>
    letM exit := importLoop t runtimeMeta items false in
    match exit with
    | Return err => ret (Returns (Some err))
    | Panic msg => ret (Panics msg)
    | Break metafileExists =>
      letM _ :=
        (if negb metafileExists
         then log ErrorLevel [] "No meta file found in dump. No version checks performed"
         else ret tt) in
      letM _ := log DebugLevel [] "Finalizing writes..." in
      letM err := finalizeLoop (sources t) in
      match err with
      | Some e => ret (Returns (Some e))
      | None =>
        letM _ := log InfoLevel [] "Successfully imported!" in
        ret (Returns None)
      end
    end
  end.

End Transferer.

Arguments Next {_ P} _ _.
Arguments mkReader {_ P}.
Arguments pool {_ P}.
Arguments chunkC {_ P}.
Arguments rcalls {_ P}.
Arguments sleeps {_ P}.

(** *** Export: the reader worker and its channel *)

Section ReaderChannel.
Context {dump : DumpPkg}.

(** How an iteration ends when the send on the channel counts:
    [Blocks] is a send that never completes, the worker stays in it. *)
Inductive sendStep (S : Type) : Type :=
  | Goes (s : S)
  | Ends (r : run (option error)) (s : S)
  | Blocks (s : S).

(** One iteration of the loop of [readChunksFromSource] with its last
    statement, the send [chunkC <- c] on the channel of capacity
    [maxChunksInMem]: [sent] tells whether this send ever completes (the
    queue has room, or a receiver comes), which is for the other
    goroutines to decide.  The send is not in a select: once the worker
    is in it the context cannot end it. *)
Definition readIterationCh {P} (t : Transferer) (p : ChunkPool P)
    (ctxErr : option error) (status : LoadStatus) (sent : bool) (w : Reader P)
  : sendStep (Reader P) :=
  match ctxErr with
  | Some e => Ends _ (Returns (Some e)) w
  | None =>
    if status =? LoadStatusWait then
      Goes _ (mkReader (pool w) (chunkC w) (rcalls w) (sleeps w ++ [MaxLoadWaitDuration]))
    else if status =? LoadStatusTerminate then
      Ends _ (Returns (Some (errors_New "got terminate load status"))) w
    else if status =? LoadStatusOK then
      let '((chMeta, ok), pool') := Next p (pool w) in
      let w := mkReader pool' (chunkC w) (rcalls w) (sleeps w) in
      if negb ok then Ends _ (Returns None) w
      else
        match sourceByType t (ChunkMeta_Source chMeta) with
        | None => Ends _ (Returns (Some (errors_New "failed to find source to read chunk"))) w
        | Some s =>
          let '(c, err) := ReadChunk s (rcalls w) chMeta in
          let w := mkReader (pool w) (chunkC w)
                     (rcalls w ++ [ReadChunkCall (Type_ s) chMeta]) (sleeps w) in
          match err with
          | Some e => Ends _ (Returns (Some (errors_Wrap e "failed to read chunk"))) w
          | None =>
            match c with
            | None => Ends _ (Panics "invalid memory address or nil pointer dereference") w
            | Some c =>
              if sent then Goes _ (mkReader (pool w) (chunkC w ++ [c]) (rcalls w) (sleeps w))
              else Blocks _ w
            end
          end
        end
    else Ends _ (Returns (Some (errors_New "unknown load status"))) w
  end.

(** What has become of a worker: it is still in its loop, it stays in a
    send for ever, or it has returned. *)
Inductive fate : Type :=
  | Running
  | Hung
  | Returned (r : run (option error)).

(** [readChunksFromSource] for at most [fuel] iterations, the [i]-th
    iteration seeing [ctx i] and [lc i] and its send completing when
    [sent i]. *)
Fixpoint readWorker {P} (fuel : nat) (t : Transferer) (p : ChunkPool P)
    (ctx : nat -> option error) (lc : nat -> LoadStatus) (sent : nat -> bool) (i : nat)
    (w : Reader P) : fate * Reader P :=
  match fuel with
  | O => (Running, w)
  | S fuel' =>
    match readIterationCh t p (ctx i) (lc i) (sent i) w with
    | Ends _ r w' => (Returned r, w')
    | Blocks _ w' => (Hung, w')
    | Goes _ w' => readWorker fuel' t p ctx lc sent (S i) w'
    end
  end.

End ReaderChannel.

Arguments Goes {S}.
Arguments Ends {S}.
Arguments Blocks {S}.

(** ** Vocabulary of the statements *)

Section ControllerRuns.
Context {lib : GoLib}.

(** The controller and the network after [n] calls of [updateStatus]. *)
Fixpoint polled (n : nat) (lc : LoadChecker) (w : Net) : LoadChecker * Net :=
  match n with
  | O => (lc, w)
  | S k => let '(lc', w') := polled k lc w in updateStatus lc' w'
  end.

(** What a cycle started in this state evaluates to: the result of the
    check, a failed check counting as WAIT. *)
Definition evaluated (s : LoadChecker * Net) : LoadStatus :=
  foldError (fst (checkMetricsLoad (fst s) (snd s))).

(** The number of consecutive WAIT among the evaluations [ev 0 .. ev (n-1)],
    counted back from the last one. *)
Fixpoint waitRun (ev : nat -> LoadStatus) (n : nat) : nat :=
  match n with
  | O => O
  | S k => if ev k =? LoadStatusWait then S (waitRun ev k) else O
  end.

(** The answers to the queries for [ts], asked in this order. *)
Fixpoint fetchAll (lc : LoadChecker) (ts : list Threshold) (w : Net)
  : list (float * option error) :=
  match ts with
  | [] => []
  | t :: rest =>
    let '(r, w') := getMetricCurrentValue lc t w in
    r :: fetchAll lc rest w'
  end.

Definition measuredOk (v : float) : float * option error := (v, None).

Definition belowCritical (t : Threshold) (v : float) : Prop :=
  fge v (CriticalLoad t) = false.

(** Some value reaches its MaxLoad. *)
Fixpoint anyAtMax (ts : list Threshold) (vs : list float) : bool :=
  match ts, vs with
  | t :: ts', v :: vs' => fge v (MaxLoad t) || anyAtMax ts' vs'
  | _, _ => false
  end.

Definition published (s : LoadStatus) : Prop :=
  s = LoadStatusOK \/ s = LoadStatusWait \/ s = LoadStatusTerminate.

End ControllerRuns.

Section TransfererRuns.
Context {dump : DumpPkg}.

(** The state an iteration leaves. *)
Definition stepState {S : Type} (s : step S) : S :=
  match s with
  | Continue s => s
  | Stop _ s => s
  end.

(** The archive entry of a chunk. *)
Definition chunkEntry (c : Chunk) : TarEntry :=
  mkTarEntry
    (mkTarHeader TypeReg (path_Join [SourceType_String (Chunk_Source c); Filename c])
       (Z.of_nat (String.length (Content c))) 384)
    (Content c).

(** The largest of [init] and the content lengths of [chunks]. *)
Definition largest (chunks : list Chunk) (init : Z) : Z :=
  fold_left (fun m c => Z.max m (Z.of_nat (String.length (Content c)))) chunks init.

(** A name that is one path element. *)
Definition plainName (s : string) : Prop :=
  s <> EmptyString /\ s <> "."%string /\ s <> ".."%string /\ Contains s "/" = false.

Definition logged (l : Level) (msg : string) (w : IO) : IO :=
  mkIO (calls w) (logs w ++ [mkLog l [] msg]).

End TransfererRuns.

(** *** White space and pairs *)

(** [ws] are tokens of [toks]. *)
Definition tokens (toks ws : list (list ascii)) : Prop := Forall (fun t => In t toks) ws.

(** The tokens of white space, each last byte first. *)
Definition revTokens : list (list ascii) := map (@rev ascii) spaceTokens.

(** The bytes that separate: none of them occurs in a token. *)
Definition separates (ch : ascii) : Prop :=
  ch = ","%char \/ ch = ":"%char \/ ch = "="%char.

(** The two cuts of [TrimSpace], on strings. *)
Definition ltrimS (s : string) : string :=
  string_of_list_ascii (trimLeft spaceTokens (list_ascii_of_string s)).

Definition rtrimS (s : string) : string :=
  string_of_list_ascii (trimRight spaceTokens (list_ascii_of_string s)).

(** A string made of white space only. *)
Definition spaces (w : string) : Prop :=
  exists ws, tokens spaceTokens ws /\ list_ascii_of_string w = concat ws.

(** No pair holds a comma. *)
Definition commaFree (ps : list string) : Prop :=
  Forall (fun p => Contains p "," = false) ps.

(** The separator [parseThresholdValues] picks for a pair, and the key
    it reads from it. *)
Definition separatorOf (p : string) : ascii :=
  if Contains p ":" then ":"%char else "="%char.

Definition pairKey (p : string) : string :=
  TrimSpace (nth 0 (Split p (separatorOf p)) EmptyString).

(** The key [k] is written in the spec. *)
Definition present (k : ThresholdKey) (spec : string) : Prop :=
  TrimSpace spec <> EmptyString /\
  exists p, In p (Split (TrimSpace spec) ",") /\ pairKey p = k.

Section ParseOne.
Context {lib : GoLib}.

(** What the body of the loop makes of one pair. *)
Definition parseOne (p : string) : (string * float) + error :=
  let values := Split p (separatorOf p) in
  if negb (Nat.eqb (length values) 2) then
    inr (errors_New "invalid syntax: must be K=V or K:V")
  else
    let k := TrimSpace (nth 0 values EmptyString) in
    if negb (IsValidThresholdKey k) then inr ("undefined key: " +:+ k)
    else
      match strconv_ParseFloat (TrimSpace (nth 1 values EmptyString)) with
      | (_, Some err) => inr (errors_Wrap err "can't parse number: %w")
      | (v, None) => inl (k, v)
      end.

End ParseOne.

Definition cpuQuery : string :=
  match getQueryByThresholdKey ThresholdCPU with
  | Some q => q
  | None => EmptyString
  end.

(** The thresholds [ParseThresholdList] makes for one key. *)
Definition thresholdFor (maxV criticalV : gmap string float) (k : ThresholdKey)
  : list Threshold :=
  if bool_decide (is_Some (maxV !! k)) || bool_decide (is_Some (criticalV !! k)) then
    match getQueryByThresholdKey k with
    | Some q => [mkThreshold k q (default 0%float (maxV !! k)) (default 0%float (criticalV !! k))]
    | None => []
    end
  else [].

(** A byte sequence that is one path element. *)
Definition plainL (x : list ascii) : Prop :=
  x <> [] /\ x <> ["."%char] /\ x <> ["."%char; "."%char] /\ ~ In "/"%char x.

(** *** Runs of the workers *)

Section WorkerRuns.
Context {dump : DumpPkg}.

(** The pool in state [st] hands out [ms] and is then exhausted. *)
Fixpoint yields {P} (p : ChunkPool P) (st : P) (ms : list ChunkMeta) : Prop :=
  match ms with
  | [] => snd (fst (Next p st)) = false
  | m :: ms' => fst (Next p st) = (m, true) /\ yields p (snd (Next p st)) ms'
  end.

(** The adapter calls a chunk gives rise to. *)
Definition readCall (m : ChunkMeta) : Call := ReadChunkCall (ChunkMeta_Source m) m.

Definition writeCall (c : Chunk) : Call :=
  WriteChunkCall (Chunk_Source c) (Filename c) (Content c).

Definition finalizeCall (s : Source) : Call := FinalizeWritesCall (Type_ s).

Definition isReadCall (c : Call) : Prop := exists st m, c = ReadChunkCall st m.

Definition isWriteCall (c : Call) : Prop := exists st f b, c = WriteChunkCall st f b.

(** The last entry of the archive has all the bytes its header
    announced. *)
Definition sealed (tw : TarWriter) : Prop :=
  match last (entries tw) with
  | Some e => Size (header e) <= Z.of_nat (String.length (body e))
  | None => True
  end.

(** An archive as a reader meets it. *)
Definition itemsOf (es : list TarEntry) : list TarItem :=
  map (fun e => TarFile (Name (header e)) (body e)) es.

(** A chunk as an archive member: its file in the directory of its
    source type. *)
Definition chunkItem (c : Chunk) : TarItem :=
  TarFile (SourceType_String (Chunk_Source c) +:+ "/" +:+ Filename c) (Content c).

(** The name of the source type of a chunk reads back as the type, and
    the type is a defined one. *)
Definition typeReadsBack (c : Chunk) : Prop :=
  ParseSourceType (SourceType_String (Chunk_Source c)) = Chunk_Source c /\
  Chunk_Source c <> UndefinedSource.

End WorkerRuns.

Section ImportRuns.
Context {dump : DumpPkg}.

(** The adapter of the chunk's type is there and writes the chunk. *)
Definition accepted (t : Transferer) (c : Chunk) : Prop :=
  exists s, sourceByType t (Chunk_Source c) = Some s /\
            forall h, WriteChunk s h (Filename c) (Content c) = None.

Definition isFile (it : TarItem) : Prop := exists name content, it = TarFile name content.

End ImportRuns.

Section ArchiveRuns.
Context {dump : DumpPkg}.

(** The calls [rs], made one after the other on the sources of [t]
    after the calls [h], gave the chunks [cs], one each. *)
Inductive reads (t : Transferer) : list Call -> list Call -> list Chunk -> Prop :=
  | reads_nil h : reads t h [] []
  | reads_cons h s m c rs cs :
      sourceByType t (ChunkMeta_Source m) = Some s ->
      ReadChunk s h m = (Some c, None) ->
      reads t (h ++ [ReadChunkCall (Type_ s) m]) rs cs ->
      reads t h (ReadChunkCall (Type_ s) m :: rs) (c :: cs).

(** The entry is a metadata file: its base name is [MetaFilename]. *)
Definition isMetaEntry (it : TarItem) : bool :=
  match it with
  | TarFile name _ => String.eqb (snd (path_Split name)) MetaFilename
  | TarFault _ => false
  end.

(** The destination of the writer is open: standard output, or the dump
    file it found a path for and created. *)
Definition opened (t : Transferer) (os : OS) (dest : Dest) : Prop :=
  if piped t then dest = Stdout
  else
    exists filepath,
      getDumpFilepath os (dumpPath t) (time_Now_Unix os) = (filepath, None) /\
      os_MkdirAll os (path_Dir filepath) = None /\
      os_Create os filepath = None /\
      dest = File filepath.

End ArchiveRuns.

(** ** Stand-ins for the examples *)

(** Decimal digits to a number. *)
Fixpoint digitsValue (s : string) (acc : Z) : option Z :=
  match s with
  | EmptyString => Some acc
  | String a r =>
    let n := Z.of_N (N_of_ascii a) in
    if (48 <=? n) && (n <=? 57) then digitsValue r (10 * acc + (n - 48)) else None
  end.

(** A library for the examples.  Its [strconv_ParseFloat] is right on
    the unsigned decimal integers below [2^53] and rejects every other
    text; its [json_Unmarshal] takes the body for the value text of a
    one-entry success response and rejects the empty body. *)
Definition demoLib : GoLib := {|
  strconv_ParseFloat s :=
    match s with
    | EmptyString => (0%float, Some "strconv.ParseFloat: parsing: invalid syntax")
    | _ =>
      match digitsValue s 0 with
      | Some z =>
        if z <? 2 ^ 53 then (PrimFloat.of_uint63 (Uint63.of_Z z), None)
        else (0%float, Some "strconv.ParseFloat: parsing: invalid syntax")
      | None => (0%float, Some "strconv.ParseFloat: parsing: invalid syntax")
      end
    end;
  json_Unmarshal body :=
    match body with
    | EmptyString => (mkMetricResponse EmptyString EmptyString [], Some "unexpected end of JSON input")
    | _ =>
      (mkMetricResponse "success" "vector"
         [mkMetricResult "pmm-server" [AnyFloat64 0%float; AnyString body]], None)
    end;
  Args_query_String q := "query=" +:+ q
|}.

(** A server that answers every query with the same body. *)
Definition constantClient (body : string) : Client :=
  {| Get := fun _ _ => (StatusOK, body, None) |}.

Definition demoThreshold : Threshold := mkThreshold ThresholdCPU "q" 50%float 90%float.

Inductive demoSourceType : Type := DUndefined | DVictoriaMetrics | DClickHouse.

#[local] Instance demoSourceType_eq_dec : EqDecision demoSourceType.
Proof. solve_decision. Defined.

Definition demoDump : DumpPkg := {|
  SourceType := demoSourceType;
  UndefinedSource := DUndefined;
  SourceType_String st :=
    match st with
    | DVictoriaMetrics => "vm"
    | DClickHouse => "ch"
    | DUndefined => "undefined"
    end;
  ParseSourceType s :=
    if String.eqb s "vm" then DVictoriaMetrics
    else if String.eqb s "ch" then DClickHouse
    else DUndefined;
  MetaFilename := "meta.json";
  ChunkMeta := demoSourceType * nat;
  ChunkMeta_Source := fst;
  MetaRest := unit
|}.

(** A metadata writer for the examples: one entry under the reserved
    name. *)
Definition demoElsewhere : @Elsewhere demoDump := {|
  readAndCompareDumpMeta _ _ := [];
  writeMetafile os tw meta :=
    let text := "MaxChunkSize=" +:+ itoa (@MaxChunkSize demoDump meta) in
    (mkTarWriter
       (entries tw ++
        [mkTarEntry (mkTarHeader TypeReg "meta.json" (Z.of_nat (String.length text)) 384)
           text])
       (S (writes tw)), None)
|}.

Definition demoOS : OS := {|
  os_Stdin := TarStream [];
  os_Open _ := inl (TarStream []);
  os_Stat _ := StatNotExist;
  os_MkdirAll _ := None;
  os_Create _ := None;
  time_Now_Unix := 1600000000;
  runtime_NumCPU := 4;
  tar_fault _ := None
|}.

Definition demoOSWith (items : list TarItem) : OS := {|
  os_Stdin := TarStream items;
  os_Open _ := inl (TarStream items);
  os_Stat _ := StatNotExist;
  os_MkdirAll _ := None;
  os_Create _ := None;
  time_Now_Unix := 1600000000;
  runtime_NumCPU := 4;
  tar_fault _ := None
|}.

(** A pool for the examples: a list handed out from its head. *)
Definition listPool : @ChunkPool demoDump (list (demoSourceType * nat)) :=
  @Build_ChunkPool demoDump (list (demoSourceType * nat))
    (fun l =>
       match l with
       | [] => (((DUndefined, O) : @ChunkMeta demoDump, false), [])
       | m :: l' => ((m : @ChunkMeta demoDump, true), l')
       end).

(** An adapter for the examples: it reads chunk [n] of its type as [n]
    bytes and never fails. *)
Definition demoSource (st : demoSourceType) : @Source demoDump := {|
  Type_ := st : @SourceType demoDump;
  ReadChunk _ (m : @ChunkMeta demoDump) :=
    (Some (@mkChunk demoDump (fst m) "c.bin"
             (string_of_list_ascii (repeat "x"%char (snd m)))), None);
  WriteChunk _ _ _ := None;
  FinalizeWrites _ := None
|}.

(** A transferer on standard streams with the one adapter. *)
Definition demoTransferer : @Transferer demoDump :=
  mkTransferer EmptyString [demoSource DVictoriaMetrics] 1 true.

Definition demoChunk : @Chunk demoDump := @mkChunk demoDump DVictoriaMetrics "c.bin" "abc".

(** A success response with two results. *)
Definition twoResults : metricResponse :=
  mkMetricResponse "success" "vector"
    [mkMetricResult "pmm-server" [AnyFloat64 0%float; AnyString "42"];
     mkMetricResult "other" [AnyFloat64 0%float; AnyString "7"]].

(** An import of an empty archive. *)
Definition noMetaRun : run (option error) * @IO demoDump :=
  Import (els := demoElsewhere) demoTransferer demoOS (@mkMeta demoDump 0 tt) (mkIO [] []).

(** An adapter whose FinalizeWrites fails. *)
Definition failingSource (st : demoSourceType) : @Source demoDump := {|
  Type_ := st : @SourceType demoDump;
  ReadChunk _ _ := (None, Some "read failed");
  WriteChunk _ _ _ := None;
  FinalizeWrites _ := Some "flush failed"
|}.

Definition demoChunk2 : @Chunk demoDump := @mkChunk demoDump DVictoriaMetrics "d.bin" "hello".

(** A transferer that writes to a dump file. *)
Definition fileTransferer : @Transferer demoDump :=
  mkTransferer "out.tar.gz" [demoSource DVictoriaMetrics] 1 false.

(** * Theorems *)

(** ** The library functions on examples *)

Example Split_examples :
  Split "a,b,,c" "," = ["a"; "b"; EmptyString; "c"]%string /\
  Split EmptyString "," = [EmptyString]%string /\
  Split "CPU=1=2" "=" = ["CPU"; "1"; "2"]%string.
Proof. repeat split; reflexivity. Qed.

Example path_Split_examples :
  path_Split "vm/a/b.bin" = ("vm/a/", "b.bin")%string /\
  path_Split "x" = (EmptyString, "x")%string /\
  path_Split "/x" = ("/", "x")%string /\
  path_Split "vm/" = ("vm/", EmptyString)%string.
Proof. repeat split; reflexivity. Qed.

Example path_Clean_examples :
  map path_Clean
    ["a/c"; "a//c"; "a/c/."; "a/c/b/.."; "/../a/c"; "/../a/b/../././/c"; EmptyString;
     "../a"; "a/../.."; "/"; "a/b/../../../c"; "abc/"; "./x"; ".."; "../../x/.."]%string
  = ["a/c"; "a/c"; "a/c"; "a/c"; "/a/c"; "/a/c"; ".";
     "../a"; ".."; "/"; "../c"; "abc"; "x"; ".."; "../.."]%string.
Proof. vm_compute. reflexivity. Qed.

Example path_Join_examples :
  map path_Join [["a"; "b"]; ["a"; EmptyString]; [EmptyString; "b"]; ["vm"; "../x"]; [EmptyString; EmptyString]; ["a/"; "/b"]]%string
  = ["a/b"; "a"; "b"; "x"; EmptyString; "a/b"]%string.
Proof. vm_compute. reflexivity. Qed.

Example TrimSpace_examples :
  TrimSpace "  CPU = 1 " = "CPU = 1"%string /\
  TrimSpace (String (ascii_of_nat 9) "x" +:+ String (ascii_of_nat 10) EmptyString) = "x"%string /\
  TrimSpace (String (ascii_of_nat 194) (String (ascii_of_nat 160) "x")) = "x"%string /\
  TrimSpace (String (ascii_of_nat 160) "x") = String (ascii_of_nat 160) "x" /\
  TrimSpace "   " = EmptyString.
Proof. repeat split; vm_compute; reflexivity. Qed.

(** ** Strings *)

Lemma string_app_cons (ch : ascii) (a b : string) :
  String ch a +:+ b = String ch (a +:+ b).
Proof. reflexivity. Qed.

Lemma string_app_nil_l (b : string) : EmptyString +:+ b = b.
Proof. reflexivity. Qed.

Lemma string_app_length (a b : string) :
  String.length (a +:+ b) = (String.length a + String.length b)%nat.
Proof.
  induction a as [|ch a IH]; [reflexivity|].
  rewrite string_app_cons. simpl. now rewrite IH.
Qed.

Lemma substring_prefix (a b : string) : substring 0 (String.length a) (a +:+ b) = a.
Proof.
  induction a as [|ch a IH]; [now destruct b|].
  rewrite string_app_cons. simpl. now rewrite IH.
Qed.

Lemma string_app_nil_r (a : string) : a +:+ EmptyString = a.
Proof.
  induction a as [|ch a IH]; [reflexivity|].
  rewrite string_app_cons. now rewrite IH.
Qed.

Lemma substring_all (a : string) : substring 0 (String.length a) a = a.
Proof. rewrite <- (string_app_nil_r a) at 2. apply substring_prefix. Qed.

Lemma path_Split_plain (name : string) :
  Contains name "/" = false -> path_Split name = (EmptyString, name).
Proof.
  induction name as [|ch name IH]; simpl; [reflexivity|].
  intros Hc. apply orb_false_elim in Hc as [Hch Hc].
  rewrite (IH Hc), Hch. reflexivity.
Qed.

Lemma path_Split_dir (d file : string) :
  Contains file "/" = false ->
  path_Split (d +:+ "/" +:+ file) = (d +:+ "/", file).
Proof.
  intros Hf. induction d as [|ch d IH].
  - rewrite string_app_nil_l, !string_app_cons, string_app_nil_l. simpl.
    now rewrite (path_Split_plain file Hf).
  - rewrite !(string_app_cons ch d). simpl. rewrite IH.
    destruct d; reflexivity.
Qed.

Lemma slice_to_dir (d : string) :
  slice_to (d +:+ "/") (Z.of_nat (String.length (d +:+ "/")) - 1) = Some d.
Proof.
  unfold slice_to. rewrite string_app_length. simpl String.length.
  replace (Z.of_nat (String.length d + 1) - 1) with (Z.of_nat (String.length d)) by lia.
  rewrite Nat2Z.id, substring_prefix.
  replace (0 <=? Z.of_nat (String.length d)) with true by (symmetry; apply Z.leb_le; lia).
  replace (Z.of_nat (String.length d) <=? Z.of_nat (String.length d + 1)) with true
    by (symmetry; apply Z.leb_le; lia).
  reflexivity.
Qed.

(** ** [path.Join] on plain names *)


Lemma cleanLoop_copy (rooted : bool) (x rest rout : list ascii) (dotdot : nat) :
  ~ In "/"%char x ->
  cleanLoop rooted (x ++ rest) rout dotdot true =
  cleanLoop rooted rest (rev x ++ rout) dotdot true.
Proof.
  revert rout. induction x as [|ch x IH]; intros rout Hx; [reflexivity|].
  cbn [app cleanLoop].
  destruct (Ascii.eqb_spec ch "/") as [->|Hch]; [exfalso; apply Hx; now left|].
  rewrite IH by (intros Hin; apply Hx; now right).
  cbn [rev]. now rewrite <- app_assoc.
Qed.

Lemma cleanLoop_plain (x rest rout : list ascii) (dotdot : nat) :
  plainL x ->
  match rest with [] => True | d :: _ => d = "/"%char end ->
  cleanLoop false (x ++ rest) rout dotdot false =
  cleanLoop false rest
    (rev x ++ (if Nat.eqb (length rout) 0 then rout else "/"%char :: rout)) dotdot true.
Proof.
  intros (Hne & Hdot & Hdotdot & Hslash) Hrest.
  destruct x as [|ch x]; [congruence|].
  assert (Hch : Ascii.eqb ch "/" = false).
  { apply Ascii.eqb_neq. intros ->. apply Hslash. now left. }
  assert (Hx : ~ In "/"%char x) by (intros Hin; apply Hslash; now right).
  assert (Hdefault :
    cleanLoop false (x ++ rest)
      (ch :: (if (false && negb (Nat.eqb (length rout) 1))
                 || (negb false && negb (Nat.eqb (length rout) 0))
              then "/"%char :: rout else rout)) dotdot true =
    cleanLoop false rest
      (rev (ch :: x) ++ (if Nat.eqb (length rout) 0 then rout else "/"%char :: rout))
      dotdot true).
  { rewrite cleanLoop_copy by exact Hx. cbn [rev andb orb negb].
    rewrite <- app_assoc. cbn [app].
    now destruct (Nat.eqb (length rout) 0). }
  cbn [app cleanLoop]. rewrite Hch.
  destruct (Ascii.eqb_spec ch ".") as [->|Hnd]; cbn [andb].
  - destruct x as [|d x]; [congruence|].
    assert (Hd : Ascii.eqb d "/" = false).
    { apply Ascii.eqb_neq. intros ->. apply Hx. now left. }
    cbn [app]. rewrite Hd.
    destruct (Ascii.eqb_spec d ".") as [->|Hnd]; cbn [andb]; [|exact Hdefault].
    destruct x as [|e x]; [congruence|].
    assert (He : Ascii.eqb e "/" = false).
    { apply Ascii.eqb_neq. intros ->. apply Hx. right. now left. }
    cbn [app]. rewrite He. exact Hdefault.
  - destruct (x ++ rest)%list; exact Hdefault.
Qed.

Lemma In_list_ascii (ch : ascii) (s : string) :
  Contains s ch = false -> ~ In ch (list_ascii_of_string s).
Proof.
  induction s as [|a s IH]; simpl; [tauto|].
  intros Hc [Ha|Hin].
  - subst a. now rewrite Ascii.eqb_refl in Hc.
  - apply orb_false_elim in Hc as [_ Hc]. now apply IH.
Qed.

Lemma plainName_plainL (s : string) : plainName s -> plainL (list_ascii_of_string s).
Proof.
  intros (Hne & Hdot & Hdotdot & Hslash). repeat split.
  - destruct s; [congruence|discriminate].
  - intros Hl. apply Hdot. rewrite <- (string_of_list_ascii_of_string s), Hl. reflexivity.
  - intros Hl. apply Hdotdot. rewrite <- (string_of_list_ascii_of_string s), Hl. reflexivity.
  - now apply In_list_ascii.
Qed.

Lemma list_ascii_app (a b : string) :
  list_ascii_of_string (a +:+ b) = (list_ascii_of_string a ++ list_ascii_of_string b)%list.
Proof.
  induction a as [|ch a IH]; [reflexivity|].
  rewrite string_app_cons. simpl. now rewrite IH.
Qed.

Lemma string_of_list_app (a b : list ascii) :
  string_of_list_ascii (a ++ b) = string_of_list_ascii a +:+ string_of_list_ascii b.
Proof.
  induction a as [|ch a IH]; [reflexivity|].
  simpl. rewrite string_app_cons. now rewrite IH.
Qed.

Lemma string_app_assoc (a b c : string) : (a +:+ b) +:+ c = a +:+ b +:+ c.
Proof.
  induction a as [|ch a IH]; [reflexivity|].
  rewrite !(string_app_cons ch). now rewrite IH.
Qed.

Lemma path_Join_two (a b : string) :
  a <> EmptyString -> path_Join [a; b] = path_Clean (a +:+ "/" +:+ b).
Proof.
  intros Ha. destruct a as [|ch a]; [congruence|].
  unfold path_Join. simpl. now rewrite string_app_assoc.
Qed.

Lemma cleanLoop_two (la lb : list ascii) :
  plainL la -> plainL lb ->
  cleanLoop false (la ++ "/"%char :: lb) [] 0 false = rev (la ++ "/"%char :: lb).
Proof.
  intros Hla Hlb.
  rewrite (cleanLoop_plain la ("/"%char :: lb) [] 0 Hla eq_refl).
  cbn [length Nat.eqb cleanLoop]. rewrite Ascii.eqb_refl.
  rewrite <- (app_nil_r lb) at 1.
  rewrite (cleanLoop_plain lb [] _ 0 Hlb I).
  cbn [cleanLoop]. rewrite length_app, length_rev.
  destruct la as [|ch la]; [now destruct Hla|].
  cbn [length Nat.add Nat.eqb].
  rewrite rev_app_distr. cbn [rev]. rewrite <- !app_assoc. cbn [app].
  reflexivity.
Qed.

Lemma path_Join_plain (a b : string) :
  plainName a -> plainName b -> path_Join [a; b] = a +:+ "/" +:+ b.
Proof.
  intros Ha Hb.
  pose proof (plainName_plainL a Ha) as Hla.
  pose proof (plainName_plainL b Hb) as Hlb.
  rewrite path_Join_two by (now destruct Ha).
  unfold path_Clean.
  rewrite !list_ascii_app.
  change (list_ascii_of_string "/") with ["/"%char].
  pose proof (cleanLoop_two _ _ Hla Hlb) as Hc.
  destruct (list_ascii_of_string a) as [|ch la'] eqn:Hla'; [now destruct Hla|].
  assert (Hch : Ascii.eqb ch "/" = false).
  { apply Ascii.eqb_neq. intros ->. destruct Hla as (_ & _ & _ & Hs). apply Hs. now left. }
  cbn [app] in *. rewrite Hch, Hc.
  destruct (rev (ch :: la' ++ "/"%char :: list_ascii_of_string b)) eqn:Hr.
  { apply (f_equal (@length ascii)) in Hr. rewrite length_rev in Hr. discriminate. }
  rewrite <- Hr, rev_involutive.
  change (ch :: la' ++ "/"%char :: list_ascii_of_string b)%list
    with ((ch :: la') ++ ["/"%char] ++ list_ascii_of_string b)%list.
  rewrite <- Hla', !string_of_list_app, !string_of_list_ascii_of_string.
  reflexivity.
Qed.

(** ** The controller *)

Lemma wrap_int_small (z : Z) : int_min <= z <= int_max -> wrap_int z = z.
Proof.
  unfold wrap_int, int_min, int_max. intros Hz.
  rewrite Z.mod_small by lia. lia.
Qed.

(** IEEE equality implies [>=]. *)
Lemma SFcompare_Eq_sym (x y : spec_float) :
  SFcompare x y = Some Eq -> SFcompare y x = Some Eq.
Proof.
  destruct x as [sx|sx| |sx mx ex], y as [sy|sy| |sy my ey]; simpl;
    try discriminate; try reflexivity;
    try (destruct sx; discriminate); try (destruct sy; discriminate).
  - destruct sx, sy; try discriminate; reflexivity.
  - destruct sx, sy; try discriminate.
    + destruct (ex ?= ey) eqn:He; try discriminate.
      apply Z.compare_eq in He. subst ey. rewrite Z.compare_refl.
      intros Hm. destruct (Pos.compare_cont Eq mx my) eqn:Hc; try discriminate.
      apply Pos.compare_eq in Hc. subst my.
      change (Pos.compare_cont Eq mx mx) with (Pos.compare mx mx).
      rewrite Pos.compare_refl. reflexivity.
    + destruct (ex ?= ey) eqn:He; try discriminate.
      apply Z.compare_eq in He. subst ey. rewrite Z.compare_refl.
      intros Hm. destruct (Pos.compare_cont Eq mx my) eqn:Hc; try discriminate.
      apply Pos.compare_eq in Hc. subst my.
      change (Pos.compare_cont Eq mx mx) with (Pos.compare mx mx).
      rewrite Pos.compare_refl. reflexivity.
Qed.

Lemma fge_of_eqb (a b : float) : PrimFloat.eqb a b = true -> fge a b = true.
Proof.
  unfold fge. rewrite FloatAxioms.eqb_spec, leb_spec. unfold SFeqb, SFleb.
  destruct (SFcompare (Prim2SF a) (Prim2SF b)) as [[ | | ]|] eqn:Hc; try discriminate.
  intros _. rewrite (SFcompare_Eq_sym _ _ Hc). reflexivity.
Qed.

Section ControllerFacts.
Context {lib : GoLib}.

Lemma getMetricCurrentValue_net (lc : LoadChecker) (t : Threshold) (w : Net) :
  snd (getMetricCurrentValue lc t w) = (w ++ [queryURL lc t])%list.
Proof.
  unfold getMetricCurrentValue.
  destruct (Get (c lc) w (queryURL lc t)) as [[status body] [e|]]; [reflexivity|].
  destruct (negb (status =? StatusOK)); [reflexivity|].
  destruct (json_Unmarshal body) as [resp [e|]]; [reflexivity|].
  destruct (getValidValue resp) as [v [e|]]; reflexivity.
Qed.

Lemma fetchAll_app (lc : LoadChecker) (a b : list Threshold) (w : Net) :
  fetchAll lc (a ++ b) w =
  (fetchAll lc a w ++ fetchAll lc b (w ++ map (queryURL lc) a))%list.
Proof.
  revert w. induction a as [|t a IH]; intros w; simpl.
  - now rewrite app_nil_r.
  - pose proof (getMetricCurrentValue_net lc t w) as Hn.
    destruct (getMetricCurrentValue lc t w) as [r w']. simpl in Hn. subst w'.
    simpl. rewrite IH, <- app_assoc. reflexivity.
Qed.

Lemma fetchAll_length (lc : LoadChecker) (ts : list Threshold) (w : Net) :
  length (fetchAll lc ts w) = length ts.
Proof.
  revert w. induction ts as [|t ts IH]; intros w; simpl; [reflexivity|].
  destruct (getMetricCurrentValue lc t w) as [r w']. simpl. now rewrite IH.
Qed.

(** Thresholds whose values stay below critical are all queried; the
    candidate becomes WAIT as soon as one value reaches its MaxLoad. *)
Lemma checkLoop_below (lc : LoadChecker) (pre rest : list Threshold) (vs : list float)
    (st : LoadStatus) (w : Net) :
  fetchAll lc pre w = map measuredOk vs ->
  Forall2 belowCritical pre vs ->
  checkLoop lc (pre ++ rest) st w =
  checkLoop lc rest (if anyAtMax pre vs then LoadStatusWait else st)
    (w ++ map (queryURL lc) pre)%list.
Proof.
  intros Hf Hb. revert st w Hf.
  induction Hb as [|t v pre vs Htv Hb IH]; intros st w Hf; simpl.
  - now rewrite app_nil_r.
  - simpl in Hf. unfold bind.
    pose proof (getMetricCurrentValue_net lc t w) as Hn.
    destruct (getMetricCurrentValue lc t w) as [r w']. simpl in Hn. subst w'.
    injection Hf as Hr Hf. subst r. unfold measuredOk.
    unfold belowCritical in Htv. rewrite Htv.
    replace (w ++ queryURL lc t :: map (queryURL lc) pre)%list
      with ((w ++ [queryURL lc t]) ++ map (queryURL lc) pre)%list
      by (now rewrite <- app_assoc).
    destruct (fge v (MaxLoad t)); simpl.
    + rewrite (IH _ _ Hf). now destruct (anyAtMax pre vs).
    + now rewrite (IH _ _ Hf).
Qed.

Lemma checkLoop_critical (lc : LoadChecker) (t : Threshold) (post : list Threshold)
    (v : float) (st : LoadStatus) (w : Net) :
  fst (getMetricCurrentValue lc t w) = measuredOk v ->
  fge v (CriticalLoad t) = true ->
  checkLoop lc (t :: post) st w = ((LoadStatusTerminate, None), (w ++ [queryURL lc t])%list).
Proof.
  intros Hf Hc. simpl. unfold bind.
  pose proof (getMetricCurrentValue_net lc t w) as Hn.
  destruct (getMetricCurrentValue lc t w) as [r w']. simpl in *. subst.
  unfold measuredOk. now rewrite Hc.
Qed.

Lemma updateStatus_spec (lc : LoadChecker) (w : Net) :
  updateStatus lc w =
    (let ev := evaluated (lc, w) in
     let n := wrap_int (waitStatusCounter lc + 1) in
     if ev =? LoadStatusWait then
       mkLoadChecker (c lc) (connectionURL lc) (thresholds lc)
         (if n >? MaxWaitStatusInSequence then LoadStatusTerminate else ev) n
     else mkLoadChecker (c lc) (connectionURL lc) (thresholds lc) ev 0,
     snd (checkMetricsLoad lc w)).
Proof.
  unfold updateStatus, evaluated, bind, ret. simpl.
  destruct (checkMetricsLoad lc w) as [r w']. simpl.
  destruct (foldError r =? LoadStatusWait); simpl.
  - destruct (wrap_int (waitStatusCounter lc + 1) >? MaxWaitStatusInSequence); reflexivity.
  - reflexivity.
Qed.

Lemma polled_S (n : nat) (lc : LoadChecker) (w : Net) :
  polled (S n) lc w = updateStatus (fst (polled n lc w)) (snd (polled n lc w)).
Proof. simpl. now destruct (polled n lc w). Qed.

Lemma waitRun_le (ev : nat -> LoadStatus) (n : nat) : (waitRun ev n <= n)%nat.
Proof.
  induction n as [|n IH]; simpl; [lia|].
  destruct (ev n =? LoadStatusWait); lia.
Qed.

Lemma waitRun_all (ev : nat -> LoadStatus) (n k : nat) :
  (k <= n)%nat ->
  (forall i, (n - k <= i < n)%nat -> ev i = LoadStatusWait) ->
  (k <= waitRun ev n)%nat.
Proof.
  revert k. induction n as [|n IH]; intros k Hk Hev; simpl; [lia|].
  destruct k as [|k]; [lia|].
  rewrite (Hev n) by lia. simpl.
  apply le_n_S, IH; [lia|]. intros i Hi. apply Hev. lia.
Qed.

(** The counter is the length of the current run of WAIT evaluations. *)
Lemma polled_counter (lc0 : LoadChecker) (w0 : Net) (n : nat) :
  waitStatusCounter lc0 = 0 ->
  Z.of_nat n <= int_max ->
  waitStatusCounter (fst (polled n lc0 w0)) =
  Z.of_nat (waitRun (fun k => evaluated (polled k lc0 w0)) n).
Proof.
  intros H0. induction n as [|n IH]; intros Hn; [exact H0|].
  rewrite polled_S, updateStatus_spec. cbn zeta.
  rewrite <- surjective_pairing. cbn [waitRun fst].
  destruct (evaluated (polled n lc0 w0) =? LoadStatusWait); cbn [waitStatusCounter]; [|reflexivity].
  rewrite IH by lia.
  pose proof (waitRun_le (fun k => evaluated (polled k lc0 w0)) n).
  rewrite wrap_int_small; unfold int_min, int_max in *; lia.
Qed.

Lemma polled_latest (lc0 : LoadChecker) (w0 : Net) (n : nat) :
  latestStatus (fst (polled (S n) lc0 w0)) =
  let ev := evaluated (polled n lc0 w0) in
  if (ev =? LoadStatusWait)
     && (waitStatusCounter (fst (polled (S n) lc0 w0)) >? MaxWaitStatusInSequence)
  then LoadStatusTerminate else ev.
Proof.
  rewrite polled_S, updateStatus_spec. cbn zeta.
  rewrite <- surjective_pairing. cbn [fst].
  destruct (evaluated (polled n lc0 w0) =? LoadStatusWait); cbn [latestStatus waitStatusCounter andb];
    [|reflexivity].
  reflexivity.
Qed.

(** C1: the controller counts the consecutive cycles that evaluate to
    WAIT, any other evaluation resets the counter to zero, and a cycle
    whose counter exceeds 10 publishes TERMINATE; so the 11th of 11
    consecutive WAIT cycles publishes TERMINATE.  (The counter is an
    [int]: the statement is for runs of at most [int_max] cycles.) *)
Theorem consecutive_wait_escalation (cl : Client) (url : string) (ths : list Threshold)
    (w0 : Net) (n : nat) :
  let st k := polled k (newLoadChecker cl url ths) w0 in
  let ev k := evaluated (st k) in
  Z.of_nat (S n) <= int_max ->
  waitStatusCounter (fst (st (S n))) = Z.of_nat (waitRun ev (S n)) /\
  (ev n <> LoadStatusWait -> waitStatusCounter (fst (st (S n))) = 0) /\
  GetLatestStatus (fst (st (S n))) =
    (if (ev n =? LoadStatusWait) && (10 <? Z.of_nat (waitRun ev (S n)))
     then LoadStatusTerminate else ev n) /\
  ((10 <= n)%nat ->
   (forall i, (n - 10 <= i <= n)%nat -> ev i = LoadStatusWait) ->
   GetLatestStatus (fst (st (S n))) = LoadStatusTerminate).
Proof.
  intros st ev Hn.
  assert (Hc : waitStatusCounter (fst (st (S n))) = Z.of_nat (waitRun ev (S n))).
  { apply polled_counter; [reflexivity|exact Hn]. }
  assert (Hl : GetLatestStatus (fst (st (S n))) =
               (if (ev n =? LoadStatusWait) && (10 <? Z.of_nat (waitRun ev (S n)))
                then LoadStatusTerminate else ev n)).
  { unfold GetLatestStatus, st. rewrite polled_latest. cbn zeta.
    fold (st n) (st (S n)) (ev n). rewrite Hc.
    unfold MaxWaitStatusInSequence. now rewrite Z.gtb_ltb. }
  repeat split; [exact Hc| |exact Hl|].
  - intros Hne. rewrite Hc. simpl. apply Z.eqb_neq in Hne. now rewrite Hne.
  - intros H10 Hall. rewrite Hl.
    rewrite (Hall n) by lia. rewrite Z.eqb_refl.
    assert (11 <= waitRun ev (S n))%nat.
    { apply waitRun_all; [lia|]. intros i Hi. apply Hall. lia. }
    replace (10 <? Z.of_nat (waitRun ev (S n))) with true by (symmetry; apply Z.ltb_lt; lia).
    reflexivity.
Qed.

(** C2: the check returns TERMINATE at the first threshold whose value is
    at or above its CriticalLoad, and the thresholds after it are not
    queried; when no value reaches its CriticalLoad every threshold is
    queried, and the result is WAIT if some value is at or above its
    MaxLoad and OK otherwise; a value equal to a bound is at or above
    it. *)
Theorem checkMetricsLoad_policy (lc : LoadChecker) (w : Net) :
  (forall pre t post vs v,
     thresholds lc = (pre ++ t :: post)%list ->
     fetchAll lc (pre ++ [t]) w = map measuredOk (vs ++ [v]) ->
     Forall2 belowCritical pre vs ->
     fge v (CriticalLoad t) = true ->
     checkMetricsLoad lc w =
       ((LoadStatusTerminate, None), (w ++ map (queryURL lc) (pre ++ [t]))%list)) /\
  (forall vs,
     fetchAll lc (thresholds lc) w = map measuredOk vs ->
     Forall2 belowCritical (thresholds lc) vs ->
     checkMetricsLoad lc w =
       ((if anyAtMax (thresholds lc) vs then LoadStatusWait else LoadStatusOK, None),
        (w ++ map (queryURL lc) (thresholds lc))%list)) /\
  (forall a b, PrimFloat.eqb a b = true -> fge a b = true).
Proof.
  split; [|split].
  - intros pre t post vs v Hth Hf Hb Hc.
    unfold checkMetricsLoad. rewrite Hth.
    rewrite fetchAll_app, map_app in Hf.
    pose proof (Forall2_length _ _ _ Hb) as Hlen.
    apply app_inj_1 in Hf as [Hpre Hlast];
      [|now rewrite length_map, fetchAll_length].
    rewrite (checkLoop_below lc pre (t :: post) vs _ w Hpre Hb).
    rewrite (checkLoop_critical lc t post v).
    + now rewrite map_app, app_assoc.
    + simpl in Hlast.
      destruct (getMetricCurrentValue lc t (w ++ map (queryURL lc) pre)) as [r w'].
      simpl. now injection Hlast.
    + exact Hc.
  - intros vs Hf Hb. unfold checkMetricsLoad.
    rewrite <- (app_nil_r (thresholds lc)) at 1.
    rewrite (checkLoop_below lc (thresholds lc) [] vs _ w Hf Hb). reflexivity.
  - exact fge_of_eqb.
Qed.

Lemma checkLoop_status (lc : LoadChecker) (ts : list Threshold) (st : LoadStatus) (w : Net) :
  published st ->
  match fst (checkLoop lc ts st w) with
  | (s, None) => published s
  | (s, Some _) => s = LoadStatusNone
  end.
Proof.
  revert st w. induction ts as [|t ts IH]; intros st w Hst; simpl; [exact Hst|].
  unfold bind. destruct (getMetricCurrentValue lc t w) as [[v [e|]] w']; [reflexivity|].
  destruct (fge v (CriticalLoad t)); [right; right; reflexivity|].
  destruct (fge v (MaxLoad t)); apply IH; [right; left; reflexivity|exact Hst].
Qed.

Lemma evaluated_published (lc : LoadChecker) (w : Net) : published (evaluated (lc, w)).
Proof.
  unfold evaluated, checkMetricsLoad. simpl.
  pose proof (checkLoop_status lc (thresholds lc) LoadStatusOK w) as Hs.
  destruct (fst (checkLoop lc (thresholds lc) LoadStatusOK w)) as [s [e|]]; simpl.
  - right; left; reflexivity.
  - apply Hs. left; reflexivity.
Qed.

Lemma updateStatus_published (lc : LoadChecker) (w : Net) :
  published (latestStatus (fst (updateStatus lc w))).
Proof.
  rewrite updateStatus_spec. cbn zeta. cbn [fst].
  pose proof (evaluated_published lc w) as Hp.
  destruct (evaluated (lc, w) =? LoadStatusWait); cbn [latestStatus]; [|exact Hp].
  destruct (_ >? _); [right; right; reflexivity|exact Hp].
Qed.

Lemma runStatusUpdate_polled (n : nat) (lc : LoadChecker) (w : Net) :
  runStatusUpdate n lc w = polled n lc w.
Proof.
  revert lc w. induction n as [|n IH]; intros lc w; [reflexivity|].
  cbn [runStatusUpdate]. unfold bind.
  destruct (updateStatus lc w) as [lc' w'] eqn:Hu. rewrite IH.
  clear IH. induction n as [|n IHn].
  - simpl. now rewrite Hu.
  - rewrite polled_S, IHn, <- polled_S. reflexivity.
Qed.

Lemma NewLoadChecker_polled (ticks : nat) (cl : Client) (url : string)
    (ths : list Threshold) (w : Net) :
  NewLoadChecker ticks cl url ths w =
  polled (match ths with [] => 1 | _ => S ticks end) (newLoadChecker cl url ths) w.
Proof.
  unfold NewLoadChecker, bind.
  destruct (updateStatus (newLoadChecker cl url ths) w) as [lc w'] eqn:Hu.
  destruct ths as [|t ths]; cbn [length Nat.eqb negb].
  - simpl. now rewrite Hu.
  - rewrite runStatusUpdate_polled.
    clear -Hu. induction ticks as [|n IH].
    + simpl. now rewrite Hu.
    + rewrite polled_S, IH, <- polled_S. reflexivity.
Qed.

(** C5: the status the getter returns is never NONE.  It is WAIT before
    the first check and OK, WAIT or TERMINATE after every cycle; a check
    that fails returns NONE with its error, and the cycle counts it as
    WAIT before the escalation rule is applied. *)
Theorem published_status_never_none (cl : Client) (url : string) (ths : list Threshold)
    (w0 : Net) :
  GetLatestStatus (newLoadChecker cl url ths) = LoadStatusWait /\
  (forall n, published (GetLatestStatus (fst (polled n (newLoadChecker cl url ths) w0)))) /\
  (forall ticks, published (GetLatestStatus (fst (NewLoadChecker ticks cl url ths w0)))) /\
  (forall s, published s -> s <> LoadStatusNone) /\
  (forall lc w s e,
     fst (checkMetricsLoad lc w) = (s, Some e) ->
     s = LoadStatusNone /\ evaluated (lc, w) = LoadStatusWait /\
     GetLatestStatus (fst (updateStatus lc w)) =
       (if wrap_int (waitStatusCounter lc + 1) >? MaxWaitStatusInSequence
        then LoadStatusTerminate else LoadStatusWait)).
Proof.
  assert (Hpoll : forall n,
            published (GetLatestStatus (fst (polled n (newLoadChecker cl url ths) w0)))).
  { intros [|n]; [right; left; reflexivity|].
    rewrite polled_S. apply updateStatus_published. }
  split; [reflexivity|]. split; [exact Hpoll|]. split; [|split].
  - intros ticks. rewrite NewLoadChecker_polled. apply Hpoll.
  - intros s [Hs|[Hs|Hs]]; subst s; discriminate.
  - intros lc w s e Hchk.
    assert (Hnone : s = LoadStatusNone).
    { pose proof (checkLoop_status lc (thresholds lc) LoadStatusOK w) as Hs.
      unfold checkMetricsLoad in Hchk. rewrite Hchk in Hs. apply Hs. left; reflexivity. }
    assert (Hev : evaluated (lc, w) = LoadStatusWait).
    { unfold evaluated. cbn [fst snd]. now rewrite Hchk. }
    split; [exact Hnone|]. split; [exact Hev|].
    unfold GetLatestStatus. rewrite updateStatus_spec. cbn zeta. cbn [fst].
    rewrite Hev. reflexivity.
Qed.

(** C4, as the code has it: a response is accepted exactly when its
    status is "success", its result list is not empty, and the value
    array of the first result has two elements of which the second is a
    string that [strconv.ParseFloat] accepts; the value returned is then
    the parsed number.  Every other response is rejected with an
    error. *)
Theorem getValidValue_accepts (r : metricResponse) :
  (snd (getValidValue r) = None <->
   Status r = "success"%string /\
   exists r0 rest v0 str,
     Data_Result r = r0 :: rest /\ Value r0 = [v0; AnyString str] /\
     snd (strconv_ParseFloat str) = None) /\
  (forall r0 rest v0 str,
     Status r = "success"%string -> Data_Result r = r0 :: rest ->
     Value r0 = [v0; AnyString str] -> snd (strconv_ParseFloat str) = None ->
     getValidValue r = (fst (strconv_ParseFloat str), None)).
Proof.
  unfold getValidValue. split.
  - split.
    + destruct (String.eqb_spec (Status r) "success") as [Hs|Hs]; [|discriminate].
      cbn [negb]. intros Hok. split; [exact Hs|].
      destruct (Data_Result r) as [|r0 rest]; [discriminate|].
      destruct (Value r0) as [|v0 [|v1 [|v2 vs]]] eqn:Hv; try discriminate.
      destruct v1 as [ |b|f|str|l|m]; try discriminate.
      exists r0, rest, v0, str. split; [reflexivity|split; [exact Hv|]].
      destruct (strconv_ParseFloat str) as [v [e|]]; [discriminate|reflexivity].
    + intros [Hs (r0 & rest & v0 & str & Hr & Hv & Hp)].
      rewrite Hs, Hr, Hv. rewrite String.eqb_refl. cbn [negb].
      destruct (strconv_ParseFloat str) as [v [e|]]; [discriminate|reflexivity].
  - intros r0 rest v0 str Hs Hr Hv Hp. rewrite Hs, Hr, Hv.
    rewrite String.eqb_refl. cbn [negb].
    destruct (strconv_ParseFloat str) as [v [e|]]; [discriminate|reflexivity].
Qed.

End ControllerFacts.

(** A server that keeps answering 70 to a threshold of 50/90: every
    cycle evaluates to WAIT and the 11th publishes TERMINATE. *)
Lemma consecutive_wait_escalation_witness :
  GetLatestStatus
    (fst (polled (lib := demoLib) 11
            (newLoadChecker (constantClient "70") "http://pmm" [demoThreshold]) []))
  = LoadStatusTerminate.
Proof.
  apply (consecutive_wait_escalation (lib := demoLib) (constantClient "70") "http://pmm"
           [demoThreshold] [] 10).
  - unfold int_max. lia.
  - lia.
  - intros i Hi.
    do 11 (destruct i as [|i]; [vm_compute; reflexivity|]). lia.
Defined.

(** A success response with two results is accepted: the first result
    gives the value. *)
Lemma getValidValue_two_results :
  getValidValue (lib := demoLib) twoResults = (42%float, None) /\
  length (Data_Result twoResults) = 2%nat.
Proof. split; vm_compute; reflexivity. Qed.

(** The same response, through the characterisation. *)
Lemma getValidValue_accepts_witness :
  getValidValue (lib := demoLib) twoResults = (42%float, None).
Proof.
  apply (proj2 (getValidValue_accepts (lib := demoLib) twoResults)
           (mkMetricResult "pmm-server" [AnyFloat64 0%float; AnyString "42"])
           [mkMetricResult "other" [AnyFloat64 0%float; AnyString "7"]]
           (AnyFloat64 0%float) "42"); reflexivity.
Defined.

(** The first of two thresholds reads 95 against a critical load of 90:
    TERMINATE, and only the first query was sent. *)
Lemma checkMetricsLoad_policy_witness :
  checkMetricsLoad (lib := demoLib)
    (newLoadChecker (constantClient "95") "http://pmm"
       [demoThreshold; mkThreshold ThresholdRAM "r" 10%float 20%float]) []
  = ((LoadStatusTerminate, None), ["http://pmm/api/v1/query?query=q"%string]).
Proof.
  apply (proj1 (checkMetricsLoad_policy (lib := demoLib)
                  (newLoadChecker (constantClient "95") "http://pmm"
                     [demoThreshold; mkThreshold ThresholdRAM "r" 10%float 20%float]) [])
           [] demoThreshold [mkThreshold ThresholdRAM "r" 10%float 20%float] [] 95%float).
  - reflexivity.
  - vm_compute. reflexivity.
  - constructor.
  - vm_compute. reflexivity.
Defined.

(** A server whose answers do not parse: the status stays published. *)
Lemma published_status_never_none_witness :
  published
    (GetLatestStatus
       (fst (polled (lib := demoLib) 3
               (newLoadChecker (constantClient EmptyString) "http://pmm" [demoThreshold]) []))).
Proof.
  apply (proj1 (proj2 (published_status_never_none (lib := demoLib) (constantClient EmptyString)
                         "http://pmm" [demoThreshold] []))).
Defined.

(** ** Cutting tokens off the front of a byte sequence *)

Lemma stripPrefix_Some (t s r : list ascii) : stripPrefix t s = Some r <-> s = (t ++ r)%list.
Proof.
  revert s. induction t as [|a t IH]; intros s; simpl.
  - split; [now intros [= ->]|now intros ->].
  - destruct s as [|b s]; [split; discriminate|].
    destruct (Ascii.eqb_spec a b) as [->|Hab].
    + rewrite IH. split; [now intros ->|now intros [= ->]].
    + split; [discriminate|intros [= ? ?]; congruence].
Qed.

Lemma stripAny_Some (toks : list (list ascii)) (s r : list ascii) :
  stripAny toks s = Some r -> exists t, In t toks /\ s = (t ++ r)%list.
Proof.
  induction toks as [|t toks IH]; simpl; [discriminate|].
  destruct (stripPrefix t s) as [r'|] eqn:Hp.
  - intros [= ->]. apply stripPrefix_Some in Hp. exists t. split; [now left|exact Hp].
  - intros Hr. destruct (IH Hr) as (t' & Hin & Hs). exists t'. split; [now right|exact Hs].
Qed.

Lemma stripAny_None (toks : list (list ascii)) (s : list ascii) :
  stripAny toks s = None <-> forall t k, In t toks -> s <> (t ++ k)%list.
Proof.
  induction toks as [|t toks IH]; simpl.
  - split; [intros _ t k []|reflexivity].
  - destruct (stripPrefix t s) as [r|] eqn:Hp.
    + apply stripPrefix_Some in Hp. split; [discriminate|].
      intros Hno. exfalso. apply (Hno t r); [now left|exact Hp].
    + rewrite IH. split.
      * intros Hno t' k [<-|Hin] Hs; [|now apply (Hno t' k)].
        apply stripPrefix_Some in Hs. congruence.
      * intros Hno t' k Hin. apply Hno. now right.
Qed.

Section Trim.
Variable toks : list (list ascii).
Hypothesis toks_nonempty : Forall (fun t => t <> []) toks.
Hypothesis toks_prefix_free :
  Forall (fun t1 => Forall (fun t2 => forall k, t2 = (t1 ++ k)%list -> k = []) toks) toks.


Lemma tok_nonempty (t : list ascii) : In t toks -> t <> [].
Proof. intros Hin. rewrite List.Forall_forall in toks_nonempty. now apply toks_nonempty. Qed.

Lemma stripAny_nil : stripAny toks [] = None.
Proof.
  apply stripAny_None. intros t k Hin Hs.
  apply (tok_nonempty t Hin). symmetry in Hs. now apply app_eq_nil in Hs.
Qed.

Lemma stripAny_tok (t r : list ascii) : In t toks -> stripAny toks (t ++ r) = Some r.
Proof.
  intros Hin. destruct (stripAny toks (t ++ r)) as [r'|] eqn:Hs.
  - apply stripAny_Some in Hs as (t' & Hin' & Heq).
    apply app_eq_app in Heq as [l [[-> ->]|[-> ->]]].
    + rewrite List.Forall_forall in toks_prefix_free.
      pose proof (toks_prefix_free t' Hin') as Hpf. rewrite List.Forall_forall in Hpf.
      now rewrite (Hpf _ Hin l eq_refl).
    + rewrite List.Forall_forall in toks_prefix_free.
      pose proof (toks_prefix_free t Hin) as Hpf. rewrite List.Forall_forall in Hpf.
      now rewrite (Hpf _ Hin' l eq_refl).
  - exfalso. rewrite stripAny_None in Hs. now apply (Hs t r).
Qed.

Lemma trimLeftN_spec (n : nat) (s : list ascii) :
  (length s <= n)%nat ->
  exists ws, tokens toks ws /\ s = (concat ws ++ trimLeftN toks n s)%list /\
             stripAny toks (trimLeftN toks n s) = None.
Proof.
  revert s. induction n as [|n IH]; intros s Hlen.
  - destruct s; [|simpl in Hlen; lia].
    exists []. split; [constructor|]. split; [reflexivity|apply stripAny_nil].
  - cbn [trimLeftN]. destruct (stripAny toks s) as [r|] eqn:Hs.
    + apply stripAny_Some in Hs as (t & Hin & ->).
      pose proof (tok_nonempty t Hin) as Hne.
      destruct (IH r) as (ws & Hws & Hr & Hnone).
      { rewrite length_app in Hlen. destruct t; [congruence|simpl in Hlen; lia]. }
      exists (t :: ws). split; [now constructor|]. split; [|exact Hnone].
      cbn [concat]. rewrite <- app_assoc. now rewrite <- Hr.
    + exists []. split; [constructor|]. split; [reflexivity|exact Hs].
Qed.

Lemma trimLeftN_uniq (ws : list (list ascii)) (s' : list ascii) (n : nat) :
  tokens toks ws -> stripAny toks s' = None ->
  (length (concat ws ++ s') <= n)%nat ->
  trimLeftN toks n (concat ws ++ s') = s'.
Proof.
  intros Hws Hnone. revert n. induction Hws as [|t ws Hin Hws IH]; intros n Hlen.
  - cbn [concat app] in *. destruct n; [reflexivity|]. cbn [trimLeftN]. now rewrite Hnone.
  - cbn [concat] in *. rewrite <- app_assoc in *.
    pose proof (tok_nonempty t Hin) as Hne.
    destruct n as [|n].
    { rewrite length_app in Hlen. destruct t; [congruence|simpl in Hlen; lia]. }
    cbn [trimLeftN]. rewrite (stripAny_tok t _ Hin). apply IH.
    rewrite length_app in Hlen. destruct t; [congruence|simpl in Hlen; lia].
Qed.

Lemma trimLeft_spec (s : list ascii) :
  exists ws, tokens toks ws /\ s = (concat ws ++ trimLeft toks s)%list /\
             stripAny toks (trimLeft toks s) = None.
Proof. apply trimLeftN_spec. lia. Qed.

Lemma trimLeft_uniq (ws : list (list ascii)) (s' : list ascii) :
  tokens toks ws -> stripAny toks s' = None -> trimLeft toks (concat ws ++ s') = s'.
Proof. intros Hws Hn. apply trimLeftN_uniq; [exact Hws|exact Hn|lia]. Qed.

(** Tokens in front do not change the result. *)
Lemma trimLeft_tokens_app (ws : list (list ascii)) (s : list ascii) :
  tokens toks ws -> trimLeft toks (concat ws ++ s) = trimLeft toks s.
Proof.
  intros Hws. destruct (trimLeft_spec s) as (ws2 & Hws2 & Hs & Hnone).
  rewrite Hs at 1. rewrite app_assoc, <- concat_app.
  apply trimLeft_uniq; [|exact Hnone]. now apply Forall_app.
Qed.

(** A byte that occurs in no token stops the cut. *)
Lemma trimLeft_stop (s r : list ascii) (ch : ascii) :
  Forall (fun t => ~ In ch t) toks ->
  trimLeft toks (s ++ ch :: r) = (trimLeft toks s ++ ch :: r)%list.
Proof.
  intros Hch. destruct (trimLeft_spec s) as (ws & Hws & Hs & Hnone).
  rewrite Hs at 1. rewrite <- app_assoc.
  apply trimLeft_uniq; [exact Hws|].
  apply stripAny_None. intros t k Hin Heq.
  apply app_eq_app in Heq as [l [[Hl _]|[Hl Hr]]].
  - rewrite stripAny_None in Hnone. now apply (Hnone t l).
  - destruct l as [|c0 l].
    + rewrite app_nil_r in Hl. rewrite stripAny_None in Hnone.
      apply (Hnone t [] Hin). now rewrite app_nil_r.
    + injection Hr as <- _. rewrite List.Forall_forall in Hch.
      apply (Hch t Hin). rewrite Hl. apply in_or_app. right. now left.
Qed.

(** Tokens behind a rest that is not empty stay: no token begins with a
    byte that another token has after its first. *)
Hypothesis toks_heads :
  Forall (fun t => Forall (fun ch => Forall (fun t1 => hd_error t1 <> Some ch) toks) (tl t))
    toks.

Lemma trimLeft_tokens_behind (l : list ascii) (ws : list (list ascii)) :
  tokens toks ws ->
  trimLeft toks (l ++ concat ws) =
  match trimLeft toks l with
  | [] => []
  | _ => (trimLeft toks l ++ concat ws)%list
  end.
Proof.
  intros Hws. destruct (trimLeft_spec l) as (ws1 & Hws1 & Hl & Hnone).
  destruct (trimLeft toks l) as [|c0 l'] eqn:Htl.
  - rewrite Hl, app_nil_r, <- concat_app, <- (app_nil_r (concat _)).
    apply trimLeft_uniq; [now apply Forall_app|apply stripAny_nil].
  - rewrite Hl at 1. rewrite <- app_assoc.
    apply trimLeft_uniq; [exact Hws1|].
    apply stripAny_None. intros t k Hin Heq.
    apply app_eq_app in Heq as [m [[Hm _]|[Hm Hr]]].
    + rewrite stripAny_None in Hnone. now apply (Hnone t m).
    + destruct m as [|c1 m].
      * rewrite app_nil_r in Hm. rewrite stripAny_None in Hnone.
        apply (Hnone t [] Hin). now rewrite app_nil_r.
      * destruct Hws as [|t1 ws Hin1 Hws]; [discriminate|].
        cbn [concat] in Hr.
        pose proof (tok_nonempty t1 Hin1) as Hne1.
        destruct t1 as [|c2 t1]; [congruence|].
        injection Hr as -> _.
        rewrite List.Forall_forall in toks_heads.
        pose proof (toks_heads t Hin) as Hh. rewrite List.Forall_forall in Hh.
        assert (Hc1 : In c1 (tl t)).
        { rewrite Hm. cbn [app tl]. apply in_or_app. right. now left. }
        specialize (Hh c1 Hc1). rewrite List.Forall_forall in Hh.
        now apply (Hh _ Hin1).
Qed.

End Trim.
(** ** White space *)

Lemma spaceTokens_nonempty : Forall (fun t : list ascii => t <> []) spaceTokens.
Proof. cbv -[not]. repeat constructor; discriminate. Qed.

Lemma spaceTokens_prefix_free :
  Forall (fun t1 : list ascii =>
            Forall (fun t2 => forall k, t2 = (t1 ++ k)%list -> k = []) spaceTokens)
    spaceTokens.
Proof.
  cbv -[app]. repeat constructor; intros k Hk; cbn [app] in Hk; congruence.
Qed.

Lemma spaceTokens_heads :
  Forall (fun t : list ascii =>
            Forall (fun ch => Forall (fun t1 => hd_error t1 <> Some ch) spaceTokens) (tl t))
    spaceTokens.
Proof. cbv -[not]. repeat constructor; discriminate. Qed.


Lemma revTokens_nonempty : Forall (fun t : list ascii => t <> []) revTokens.
Proof. cbv -[not]. repeat constructor; discriminate. Qed.

Lemma revTokens_prefix_free :
  Forall (fun t1 : list ascii =>
            Forall (fun t2 => forall k, t2 = (t1 ++ k)%list -> k = []) revTokens)
    revTokens.
Proof.
  cbv -[app]. repeat constructor; intros k Hk; cbn [app] in Hk; congruence.
Qed.


Lemma separates_outside (ch : ascii) :
  separates ch ->
  Forall (fun t : list ascii => ~ In ch t) spaceTokens /\
  Forall (fun t : list ascii => ~ In ch t) revTokens.
Proof.
  intros [-> | [-> | ->]]; split; cbv -[not In]; repeat constructor;
    cbn [In]; intros Hin; decompose [or] Hin; try discriminate; assumption.
Qed.

Lemma rev_concat (ws : list (list ascii)) :
  rev (concat ws) = concat (rev (map (@rev ascii) ws)).
Proof.
  induction ws as [|t ws IH]; [reflexivity|].
  cbn [concat map rev]. rewrite rev_app_distr, IH, concat_app.
  cbn [concat]. now rewrite app_nil_r.
Qed.

Lemma tokens_rev (ws : list (list ascii)) :
  tokens spaceTokens ws -> tokens revTokens (rev (map (@rev ascii) ws)).
Proof.
  unfold tokens. intros Hws. apply List.Forall_rev, List.Forall_forall.
  intros t Hin. apply in_map_iff in Hin as (t0 & <- & Hin).
  rewrite List.Forall_forall in Hws. apply in_map. now apply Hws.
Qed.

Lemma tokens_unrev (ws : list (list ascii)) :
  tokens revTokens ws -> tokens spaceTokens (rev (map (@rev ascii) ws)).
Proof.
  unfold tokens. intros Hws. apply List.Forall_rev, List.Forall_forall.
  intros t Hin. apply in_map_iff in Hin as (t0 & <- & Hin).
  rewrite List.Forall_forall in Hws. specialize (Hws _ Hin).
  apply in_map_iff in Hws as (t1 & <- & Hin1). now rewrite rev_involutive.
Qed.

Lemma trimRight_spec (s : list ascii) :
  exists ws, tokens spaceTokens ws /\ s = (trimRight spaceTokens s ++ concat ws)%list.
Proof.
  unfold trimRight. fold revTokens.
  destruct (trimLeft_spec revTokens revTokens_nonempty (rev s)) as (ws & Hws & Hs & _).
  exists (rev (map (@rev ascii) ws)). split; [now apply tokens_unrev|].
  rewrite <- rev_concat, <- rev_app_distr, <- Hs. now rewrite rev_involutive.
Qed.

Lemma trimRight_tokens_app (x : list ascii) (ws : list (list ascii)) :
  tokens spaceTokens ws ->
  trimRight spaceTokens (x ++ concat ws) = trimRight spaceTokens x.
Proof.
  intros Hws. unfold trimRight. fold revTokens.
  rewrite rev_app_distr, rev_concat.
  rewrite (trimLeft_tokens_app revTokens revTokens_nonempty revTokens_prefix_free);
    [reflexivity|now apply tokens_rev].
Qed.

Lemma trimRight_stop (l p : list ascii) (ch : ascii) :
  separates ch ->
  trimRight spaceTokens (l ++ ch :: p) = (l ++ ch :: trimRight spaceTokens p)%list.
Proof.
  intros Hch. unfold trimRight. fold revTokens.
  rewrite rev_app_distr. cbn [rev]. rewrite <- app_assoc. cbn [app].
  rewrite (trimLeft_stop revTokens revTokens_nonempty revTokens_prefix_free)
    by (apply (separates_outside ch Hch)).
  rewrite rev_app_distr. cbn [rev]. rewrite rev_involutive.
  now rewrite <- app_assoc.
Qed.

Lemma trimRight_nil : trimRight spaceTokens [] = [].
Proof. reflexivity. Qed.


Lemma TrimSpace_cuts (s : string) : TrimSpace s = rtrimS (ltrimS s).
Proof. unfold TrimSpace, rtrimS, ltrimS. now rewrite list_ascii_of_string_of_list_ascii. Qed.

Lemma ltrimS_split (s : string) : exists w, spaces w /\ s = w +:+ ltrimS s.
Proof.
  destruct (trimLeft_spec spaceTokens spaceTokens_nonempty (list_ascii_of_string s))
    as (ws & Hws & Hs & _).
  exists (string_of_list_ascii (concat ws)). split.
  - exists ws. split; [exact Hws|apply list_ascii_of_string_of_list_ascii].
  - unfold ltrimS. rewrite <- string_of_list_app, <- Hs.
    now rewrite string_of_list_ascii_of_string.
Qed.

Lemma rtrimS_split (s : string) : exists w, spaces w /\ s = rtrimS s +:+ w.
Proof.
  destruct (trimRight_spec (list_ascii_of_string s)) as (ws & Hws & Hs).
  exists (string_of_list_ascii (concat ws)). split.
  - exists ws. split; [exact Hws|apply list_ascii_of_string_of_list_ascii].
  - unfold rtrimS. rewrite <- string_of_list_app, <- Hs.
    now rewrite string_of_list_ascii_of_string.
Qed.

Lemma TrimSpace_spaces_l (w h : string) : spaces w -> TrimSpace (w +:+ h) = TrimSpace h.
Proof.
  intros (ws & Hws & Hw). unfold TrimSpace. rewrite list_ascii_app, Hw.
  now rewrite (trimLeft_tokens_app spaceTokens spaceTokens_nonempty spaceTokens_prefix_free).
Qed.

Lemma TrimSpace_spaces_r (l w : string) : spaces w -> TrimSpace (l +:+ w) = TrimSpace l.
Proof.
  intros (ws & Hws & Hw). unfold TrimSpace. rewrite list_ascii_app, Hw.
  rewrite (trimLeft_tokens_behind spaceTokens spaceTokens_nonempty spaceTokens_prefix_free
             spaceTokens_heads) by exact Hws.
  destruct (trimLeft spaceTokens (list_ascii_of_string l)) as [|c0 l'] eqn:Hl;
    [reflexivity|].
  now rewrite trimRight_tokens_app.
Qed.

Lemma Contains_In (s : string) (ch : ascii) :
  Contains s ch = true <-> In ch (list_ascii_of_string s).
Proof.
  induction s as [|a s IH]; simpl; [split; [discriminate|tauto]|].
  rewrite orb_true_iff, IH.
  destruct (Ascii.eqb_spec a ch) as [->|Hne]; split; try tauto;
    intros [?|?]; try discriminate; try congruence; tauto.
Qed.

Lemma spaces_no_separator (w : string) (ch : ascii) :
  spaces w -> separates ch -> Contains w ch = false.
Proof.
  intros (ws & Hws & Hw) Hch.
  destruct (Contains w ch) eqn:Hc; [|reflexivity]. exfalso.
  apply Contains_In in Hc. rewrite Hw in Hc. apply in_concat in Hc as (t & Ht & Hin).
  unfold tokens in Hws. rewrite List.Forall_forall in Hws.
  pose proof (proj1 (separates_outside ch Hch)) as Hout.
  rewrite List.Forall_forall in Hout. now apply (Hout t (Hws t Ht)).
Qed.

Lemma ltrimS_stop (p r : string) (ch : ascii) :
  separates ch -> ltrimS (p +:+ String ch r) = ltrimS p +:+ String ch r.
Proof.
  intros Hch. unfold ltrimS. rewrite list_ascii_app. cbn [list_ascii_of_string].
  rewrite (trimLeft_stop spaceTokens spaceTokens_nonempty spaceTokens_prefix_free)
    by (apply (separates_outside ch Hch)).
  rewrite string_of_list_app. cbn [string_of_list_ascii].
  now rewrite string_of_list_ascii_of_string.
Qed.

Lemma rtrimS_stop (l p : string) (ch : ascii) :
  separates ch -> rtrimS (l +:+ String ch p) = l +:+ String ch (rtrimS p).
Proof.
  intros Hch. unfold rtrimS. rewrite list_ascii_app. cbn [list_ascii_of_string].
  rewrite trimRight_stop by exact Hch.
  rewrite string_of_list_app. cbn [string_of_list_ascii].
  now rewrite string_of_list_ascii_of_string.
Qed.

(** ** Splitting and joining *)

Lemma Contains_app (a b : string) (ch : ascii) :
  Contains (a +:+ b) ch = Contains a ch || Contains b ch.
Proof.
  induction a as [|x a IH]; [reflexivity|].
  rewrite string_app_cons. simpl. now rewrite IH, orb_assoc.
Qed.

Lemma Split_nonempty (s : string) (sep : ascii) : Split s sep <> [].
Proof.
  destruct s as [|a s]; simpl; [discriminate|].
  destruct (Ascii.eqb a sep); [discriminate|]. now destruct (Split s sep).
Qed.

Lemma Split_plain (w : string) (sep : ascii) :
  Contains w sep = false -> Split w sep = [w].
Proof.
  induction w as [|a w IH]; simpl; [reflexivity|].
  intros Hc. apply orb_false_elim in Hc as [Ha Hw]. now rewrite Ha, (IH Hw).
Qed.

Lemma Split_app_l (w s : string) (sep : ascii) :
  Contains w sep = false ->
  Split (w +:+ s) sep =
  match Split s sep with
  | h :: t => (w +:+ h) :: t
  | [] => []
  end.
Proof.
  induction w as [|a w IH]; intros Hc.
  - rewrite string_app_nil_l. now destruct (Split s sep).
  - simpl in Hc. apply orb_false_elim in Hc as [Ha Hw].
    rewrite string_app_cons. simpl. rewrite Ha, (IH Hw).
    pose proof (Split_nonempty s sep). now destruct (Split s sep).
Qed.

Lemma Split_app_r (s w : string) (sep : ascii) (xs : list string) (l : string) :
  Contains w sep = false ->
  Split s sep = (xs ++ [l])%list ->
  Split (s +:+ w) sep = (xs ++ [l +:+ w])%list.
Proof.
  intros Hw. revert xs l. induction s as [|a s IH]; intros xs l Hs.
  - rewrite string_app_nil_l. simpl in Hs.
    destruct xs as [|x [|x' xs]]; try discriminate. injection Hs as <-.
    now rewrite (Split_plain w sep Hw).
  - rewrite string_app_cons. simpl in *.
    destruct (Ascii.eqb a sep).
    + destruct xs as [|x xs].
      * exfalso. injection Hs as _ Hs. now apply (Split_nonempty s sep).
      * injection Hs as <- Hs. cbn [app]. now rewrite (IH xs l Hs).
    + destruct (Split s sep) as [|h t] eqn:Hsp; [now apply Split_nonempty in Hsp|].
      destruct xs as [|x xs].
      * injection Hs as <- Ht. subst t. rewrite (IH [] h eq_refl). reflexivity.
      * injection Hs as <- Ht. rewrite (IH (h :: xs) l); [reflexivity|].
        cbn [app]. now rewrite Ht.
Qed.

Lemma Split_app_sep (p r : string) (sep : ascii) :
  Contains p sep = false -> Split (p +:+ String sep r) sep = p :: Split r sep.
Proof.
  intros Hp. rewrite (Split_app_l p _ sep Hp). cbn [Split].
  now rewrite Ascii.eqb_refl, string_app_nil_r.
Qed.

Lemma Join_cons (p : string) (ps : list string) (sep : string) :
  ps <> [] -> Join (p :: ps) sep = p +:+ sep +:+ Join ps sep.
Proof. destruct ps; [congruence|reflexivity]. Qed.

Lemma Join_snoc (ps : list string) (p sep : string) :
  ps <> [] -> Join (ps ++ [p]) sep = Join ps sep +:+ sep +:+ p.
Proof.
  induction ps as [|q ps IH]; [congruence|]. intros _.
  destruct ps as [|q' ps]; [reflexivity|].
  change ((q :: q' :: ps) ++ [p])%list with (q :: ((q' :: ps) ++ [p]))%list.
  rewrite Join_cons by discriminate. rewrite IH by discriminate.
  rewrite (Join_cons q (q' :: ps)) by discriminate.
  now rewrite !string_app_assoc.
Qed.


Lemma Split_Join (ps : list string) :
  ps <> [] -> commaFree ps -> Split (Join ps ",") "," = ps.
Proof.
  induction ps as [|p ps IH]; [congruence|]. intros _ Hcf.
  inversion Hcf as [|? ? Hp Hps]; subst.
  destruct ps as [|q ps]; [now apply Split_plain|].
  rewrite Join_cons by discriminate.
  change ("," +:+ Join (q :: ps) ",") with (String "," (Join (q :: ps) ",")).
  rewrite (Split_app_sep p _ "," Hp). f_equal. now apply IH.
Qed.

Lemma ltrimS_commaFree (p : string) :
  Contains p "," = false -> Contains (ltrimS p) "," = false.
Proof.
  intros Hp. destruct (ltrimS_split p) as (w & _ & Hw).
  rewrite Hw, Contains_app in Hp. now apply orb_false_elim in Hp.
Qed.

Lemma rtrimS_commaFree (p : string) :
  Contains p "," = false -> Contains (rtrimS p) "," = false.
Proof.
  intros Hp. destruct (rtrimS_split p) as (w & _ & Hw).
  rewrite Hw, Contains_app in Hp. now apply orb_false_elim in Hp.
Qed.

(** [TrimSpace] of two or more joined pairs cuts the first and the last. *)
Lemma TrimSpace_Join (p1 pn : string) (mid : list string) :
  TrimSpace (Join (p1 :: mid ++ [pn]) ",") =
  Join (ltrimS p1 :: mid ++ [rtrimS pn]) ",".
Proof.
  rewrite TrimSpace_cuts.
  rewrite Join_cons by (now destruct mid).
  change ("," +:+ Join (mid ++ [pn]) ",") with (String "," (Join (mid ++ [pn]) ",")).
  rewrite ltrimS_stop by (now left).
  change (ltrimS p1 +:+ String "," (Join (mid ++ [pn]) ","))
    with (ltrimS p1 +:+ "," +:+ Join (mid ++ [pn]) ",").
  rewrite <- Join_cons by (now destruct mid).
  change (ltrimS p1 :: mid ++ [pn])%list with ((ltrimS p1 :: mid) ++ [pn])%list.
  rewrite Join_snoc by discriminate.
  change ("," +:+ pn) with (String "," pn).
  rewrite rtrimS_stop by (now left).
  change (String "," (rtrimS pn)) with ("," +:+ rtrimS pn).
  rewrite <- Join_snoc by discriminate. reflexivity.
Qed.

Lemma Join_two_not_empty (p q : string) (ps : list string) :
  Join (p :: q :: ps) "," <> EmptyString.
Proof.
  rewrite Join_cons by discriminate. destruct p; discriminate.
Qed.

(** ** The threshold lists *)


Lemma separatorOf_separates (p : string) : separates (separatorOf p).
Proof. unfold separatorOf, separates. destruct (Contains p ":"); tauto. Qed.

Section ThresholdFacts.
Context {lib : GoLib}.


Lemma parsePairs_cons (p : string) (ps : list string) (res : gmap string float) :
  parsePairs (p :: ps) res =
  match parseOne p with
  | inl (k, v) => parsePairs ps (<[k := v]> res)
  | inr e => (∅, Some e)
  end.
Proof.
  cbn [parsePairs]. unfold parseOne. fold (separatorOf p).
  destruct (negb (Nat.eqb (length (Split p (separatorOf p))) 2)); [reflexivity|].
  destruct (negb (IsValidThresholdKey _)); [reflexivity|].
  destruct (strconv_ParseFloat _) as [v [e|]]; reflexivity.
Qed.

Lemma parseOne_key (p k : string) (v : float) :
  parseOne p = inl (k, v) -> k = pairKey p /\ IsValidThresholdKey k = true.
Proof.
  unfold parseOne, pairKey.
  destruct (negb (Nat.eqb (length (Split p (separatorOf p))) 2)); [discriminate|].
  destruct (IsValidThresholdKey _) eqn:Hv; [|discriminate]. cbn [negb].
  destruct (strconv_ParseFloat _) as [v' [e|]]; [discriminate|].
  now intros [= <- <-].
Qed.

Lemma separatorOf_spaces_l (w p : string) :
  spaces w -> separatorOf (w +:+ p) = separatorOf p.
Proof.
  intros Hw. unfold separatorOf.
  now rewrite Contains_app, (spaces_no_separator w ":" Hw) by (right; now left).
Qed.

Lemma separatorOf_spaces_r (p w : string) :
  spaces w -> separatorOf (p +:+ w) = separatorOf p.
Proof.
  intros Hw. unfold separatorOf.
  rewrite Contains_app, (spaces_no_separator w ":" Hw) by (right; now left).
  now rewrite orb_false_r.
Qed.

(** White space around a pair does not change what is read from it. *)
Lemma parseOne_spaces_l (w p : string) : spaces w -> parseOne (w +:+ p) = parseOne p.
Proof.
  intros Hw. unfold parseOne. rewrite (separatorOf_spaces_l w p Hw).
  rewrite Split_app_l by (apply spaces_no_separator; [exact Hw|apply separatorOf_separates]).
  pose proof (Split_nonempty p (separatorOf p)) as Hne.
  destruct (Split p (separatorOf p)) as [|h t]; [congruence|].
  cbn [length nth]. now rewrite (TrimSpace_spaces_l w h Hw).
Qed.

Lemma parseOne_spaces_r (p w : string) : spaces w -> parseOne (p +:+ w) = parseOne p.
Proof.
  intros Hw. unfold parseOne. rewrite (separatorOf_spaces_r p w Hw).
  pose proof (Split_nonempty p (separatorOf p)) as Hne.
  destruct (exists_last Hne) as (xs & l & Hs).
  rewrite (Split_app_r p w (separatorOf p) xs l)
    by first [exact Hs
             |apply spaces_no_separator; [exact Hw|apply separatorOf_separates]].
  rewrite Hs. rewrite !length_app. cbn [length].
  destruct xs as [|v0 [|v1 xs]]; cbn [length Nat.add Nat.eqb negb app nth];
    try reflexivity.
  now rewrite (TrimSpace_spaces_r l w Hw).
Qed.

Lemma parseOne_ltrimS (p : string) : parseOne (ltrimS p) = parseOne p.
Proof.
  destruct (ltrimS_split p) as (w & Hw & Hp). rewrite Hp at 2.
  symmetry. now apply parseOne_spaces_l.
Qed.

Lemma parseOne_rtrimS (p : string) : parseOne (rtrimS p) = parseOne p.
Proof.
  destruct (rtrimS_split p) as (w & Hw & Hp). rewrite Hp at 2.
  symmetry. now apply parseOne_spaces_r.
Qed.

Lemma parsePairs_ext (ps qs : list string) (res : gmap string float) :
  Forall2 (fun p q => parseOne p = parseOne q) ps qs ->
  parsePairs ps res = parsePairs qs res.
Proof.
  intros Hpq. revert res. induction Hpq as [|p q ps qs Hp Hpq IH]; intros res;
    [reflexivity|].
  rewrite !parsePairs_cons, Hp. destruct (parseOne q) as [[k v]|e]; [apply IH|reflexivity].
Qed.

(** For two pairs or more, the cut of the whole spec is immaterial. *)
Lemma parseThresholdValues_Join (p q : string) (ps : list string) :
  commaFree (p :: q :: ps) ->
  parseThresholdValues (Join (p :: q :: ps) ",") = parsePairs (p :: q :: ps) ∅.
Proof.
  intros Hcf.
  assert (Hne : q :: ps <> []) by discriminate.
  destruct (exists_last Hne) as (mid & pn & Hmid).
  rewrite Hmid in *. clear Hne Hmid.
  unfold parseThresholdValues. rewrite TrimSpace_Join.
  assert (Hnz : Join (ltrimS p :: mid ++ [rtrimS pn]) "," <> EmptyString).
  { destruct mid; apply Join_two_not_empty. }
  apply String.eqb_neq in Hnz. rewrite Hnz.
  unfold commaFree in Hcf. inversion Hcf as [|? ? Hp Hrest]; subst.
  apply Forall_app in Hrest as [Hmid Hpn]. inversion Hpn as [|? ? Hpn' _]; subst.
  rewrite Split_Join.
  - apply parsePairs_ext. constructor; [apply parseOne_ltrimS|].
    apply Forall2_app; [|constructor; [apply parseOne_rtrimS|constructor]].
    clear. induction mid; constructor; auto.
  - discriminate.
  - constructor; [now apply ltrimS_commaFree|].
    apply Forall_app. split; [exact Hmid|].
    constructor; [now apply rtrimS_commaFree|constructor].
Qed.

(** Pairs with distinct keys can be read in any order. *)
Lemma parsePairs_perm (ps ps' : list string) :
  Permutation ps ps' ->
  forall res m,
    List.NoDup (map pairKey ps) ->
    parsePairs ps res = (m, None) -> parsePairs ps' res = (m, None).
Proof.
  induction 1 as [|x l l' Hperm IH|x y l|l l' l'' Hp1 IH1 Hp2 IH2]; intros res m Hnd Hparse.
  - exact Hparse.
  - rewrite parsePairs_cons in Hparse. rewrite parsePairs_cons.
    destruct (parseOne x) as [[k v]|e]; [|discriminate Hparse].
    apply IH; [|exact Hparse]. cbn [map] in Hnd. now inversion Hnd.
  - rewrite parsePairs_cons in Hparse.
    destruct (parseOne y) as [[ky vy]|ey] eqn:Hy; [|discriminate Hparse].
    rewrite parsePairs_cons in Hparse.
    destruct (parseOne x) as [[kx vx]|ex] eqn:Hx; [|discriminate Hparse].
    rewrite parsePairs_cons, Hx, parsePairs_cons, Hy.
    apply parseOne_key in Hx as [-> _]. apply parseOne_key in Hy as [-> _].
    rewrite insert_insert_ne; [exact Hparse|].
    cbn [map] in Hnd. inversion Hnd as [|? ? Hnotin _]; subst.
    intros Heq. apply Hnotin. rewrite Heq. now left.
  - apply IH2; [|now apply IH1].
    apply (Permutation_NoDup (Permutation_map pairKey Hp1) Hnd).
Qed.

Lemma parseThresholdValues_perm (ps ps' : list string) (m : gmap string float) :
  commaFree ps -> Permutation ps ps' -> List.NoDup (map pairKey ps) ->
  parseThresholdValues (Join ps ",") = (m, None) ->
  parseThresholdValues (Join ps' ",") = (m, None).
Proof.
  intros Hcf Hperm Hnd Hparse.
  destruct ps as [|p [|q ps]].
  - apply Permutation_nil in Hperm. now subst.
  - apply Permutation_length_1_inv in Hperm. now subst.
  - assert (Hcf' : commaFree ps') by (now apply (Permutation_Forall Hperm)).
    pose proof (Permutation_length Hperm) as Hlen.
    destruct ps' as [|p' [|q' ps']]; try discriminate.
    rewrite parseThresholdValues_Join in * by assumption.
    now apply (parsePairs_perm _ _ Hperm).
Qed.

End ThresholdFacts.

Lemma IsValidThresholdKey_inv (k : string) :
  IsValidThresholdKey k = true -> k = ThresholdCPU \/ k = ThresholdRAM.
Proof.
  unfold IsValidThresholdKey, AllThresholdKeys. cbn [existsb].
  rewrite !orb_true_iff, !String.eqb_eq. intros [Hk|[Hk|Hk]]; [auto|auto|discriminate].
Qed.

Lemma thresholdsLoop_all (maxV criticalV : gmap string float) :
  thresholdsLoop AllThresholdKeys maxV criticalV [] =
  Returns (thresholdFor maxV criticalV ThresholdCPU ++ thresholdFor maxV criticalV ThresholdRAM)%list.
Proof.
  unfold AllThresholdKeys, thresholdFor. cbn [thresholdsLoop].
  destruct (bool_decide (is_Some (maxV !! ThresholdCPU)));
    destruct (bool_decide (is_Some (criticalV !! ThresholdCPU)));
    destruct (bool_decide (is_Some (maxV !! ThresholdRAM)));
    destruct (bool_decide (is_Some (criticalV !! ThresholdRAM)));
    reflexivity.
Qed.

Lemma filter_thresholdFor (maxV criticalV : gmap string float) (k k' : ThresholdKey) :
  filter (fun t => Key t = k) (thresholdFor maxV criticalV k') =
  if decide (k' = k) then thresholdFor maxV criticalV k' else [].
Proof.
  unfold thresholdFor.
  destruct (_ || _); [|now destruct (decide (k' = k))].
  destruct (getQueryByThresholdKey k') as [q|]; [|now destruct (decide (k' = k))].
  rewrite filter_cons, filter_nil. cbn [Key].
  now destruct (decide (k' = k)).
Qed.

Lemma thresholdsLoop_sublist (maxV criticalV : gmap string float)
    (keys : list ThresholdKey) (acc ts : list Threshold) :
  thresholdsLoop keys maxV criticalV acc = Returns ts ->
  exists ts', ts = (acc ++ ts')%list /\ sublist (map Key ts') keys.
Proof.
  revert acc. induction keys as [|k keys IH]; intros acc; cbn [thresholdsLoop].
  - intros [= <-]. exists []. split; [now rewrite app_nil_r|constructor].
  - destruct (negb _ && negb _).
    + intros Hl. destruct (IH _ Hl) as (ts' & -> & Hsub).
      exists ts'. split; [reflexivity|now apply sublist_cons].
    + destruct (getQueryByThresholdKey k) as [q|]; [|discriminate].
      intros Hl. destruct (IH _ Hl) as (ts' & -> & Hsub).
      eexists (_ :: ts'). split; [now rewrite <- app_assoc|].
      cbn [map Key]. now apply sublist_skip.
Qed.

Section ThresholdListFacts.
Context {lib : GoLib}.

Lemma parsePairs_dom (ps : list string) (res m : gmap string float) :
  parsePairs ps res = (m, None) ->
  (forall k, is_Some (m !! k) <->
             is_Some (res !! k) \/ exists p, In p ps /\ pairKey p = k) /\
  Forall (fun p => IsValidThresholdKey (pairKey p) = true) ps.
Proof.
  revert res. induction ps as [|p ps IH]; intros res.
  - intros [= <-]. split; [|constructor].
    intros k. split; [now left|]. intros [Hk|(p & [] & _)]. exact Hk.
  - rewrite parsePairs_cons. destruct (parseOne p) as [[k0 v0]|e] eqn:Hp; [|discriminate].
    apply parseOne_key in Hp as [-> Hvalid].
    intros Hparse. destruct (IH _ Hparse) as [Hdom Hall]. split; [|now constructor].
    intros k. rewrite Hdom. rewrite lookup_insert_is_Some. split.
    + intros [[Hk|[_ Hk]]|(q & Hin & Hq)].
      * right. exists p. split; [now left|exact Hk].
      * now left.
      * right. exists q. split; [now right|exact Hq].
    + intros [Hk|(q & [<-|Hin] & Hq)].
      * destruct (decide (pairKey p = k)); [left; now left|left; now right].
      * left. now left.
      * right. exists q. split; [exact Hin|exact Hq].
Qed.

Lemma parseThresholdValues_dom (spec : string) (m : gmap string float) :
  parseThresholdValues spec = (m, None) ->
  (forall k, is_Some (m !! k) <-> present k spec) /\
  (forall k, is_Some (m !! k) -> k = ThresholdCPU \/ k = ThresholdRAM).
Proof.
  unfold parseThresholdValues, present.
  destruct (String.eqb_spec (TrimSpace spec) EmptyString) as [He|Hne].
  - intros [= <-]. split.
    + intros k. rewrite lookup_empty. split; [intros [? [=]]|now intros [? _]].
    + intros k. rewrite lookup_empty. intros [? [=]].
  - intros Hparse. apply parsePairs_dom in Hparse as [Hdom Hvalid]. split.
    + intros k. rewrite Hdom, lookup_empty. split.
      * intros [[? [=]]|Hp]. split; [exact Hne|exact Hp].
      * intros [_ Hp]. now right.
    + intros k. rewrite Hdom, lookup_empty.
      intros [[? [=]]|(p & Hin & <-)].
      rewrite List.Forall_forall in Hvalid. now apply IsValidThresholdKey_inv, Hvalid.
Qed.

Lemma ParseThresholdList_ok (max critical : string) (maxV criticalV : gmap string float) :
  parseThresholdValues max = (maxV, None) ->
  parseThresholdValues critical = (criticalV, None) ->
  ParseThresholdList max critical =
  Returns ((thresholdFor maxV criticalV ThresholdCPU
            ++ thresholdFor maxV criticalV ThresholdRAM)%list, None).
Proof.
  intros Hmax Hcrit. unfold ParseThresholdList.
  now rewrite Hmax, Hcrit, thresholdsLoop_all.
Qed.

Lemma ParseThresholdList_inv (max critical : string) (ts : list Threshold) :
  ParseThresholdList max critical = Returns (ts, None) ->
  exists maxV criticalV,
    parseThresholdValues max = (maxV, None) /\
    parseThresholdValues critical = (criticalV, None) /\
    thresholdsLoop AllThresholdKeys maxV criticalV [] = Returns ts.
Proof.
  unfold ParseThresholdList.
  destruct (parseThresholdValues max) as [maxV [e|]]; [discriminate|].
  destruct (parseThresholdValues critical) as [criticalV [e|]]; [discriminate|].
  destruct (thresholdsLoop AllThresholdKeys maxV criticalV []) as [ts'|msg] eqn:Hl;
    [|discriminate].
  intros [= <-]. now exists maxV, criticalV.
Qed.

(** C3: a key written in only one of the two specs gets one Threshold
    whose other bound is zero, a key written in neither gets none; so
    "CPU=200" as the critical spec with an empty max spec gives the one
    Threshold CPU with MaxLoad 0 and CriticalLoad 200. *)
Theorem threshold_bounds :
  (forall (max critical : string) (maxV criticalV : gmap string float),
     parseThresholdValues max = (maxV, None) ->
     parseThresholdValues critical = (criticalV, None) ->
     exists ts,
       ParseThresholdList max critical = Returns (ts, None) /\
       (forall k, is_Some (maxV !! k) <-> present k max) /\
       (forall k, is_Some (criticalV !! k) <-> present k critical) /\
       (forall k x, maxV !! k = Some x -> criticalV !! k = None ->
          exists q, getQueryByThresholdKey k = Some q /\
                    filter (fun t => Key t = k) ts = [mkThreshold k q x 0%float]) /\
       (forall k y, maxV !! k = None -> criticalV !! k = Some y ->
          exists q, getQueryByThresholdKey k = Some q /\
                    filter (fun t => Key t = k) ts = [mkThreshold k q 0%float y]) /\
       (forall k, maxV !! k = None -> criticalV !! k = None ->
          filter (fun t => Key t = k) ts = [])) /\
  (strconv_ParseFloat "200" = (200%float, None) ->
   ParseThresholdList EmptyString "CPU=200" =
     Returns ([mkThreshold ThresholdCPU cpuQuery 0%float 200%float], None)).
Proof.
  split.
  - intros max critical maxV criticalV Hmax Hcrit.
    eexists. split; [apply (ParseThresholdList_ok _ _ _ _ Hmax Hcrit)|].
    destruct (parseThresholdValues_dom max maxV Hmax) as [Hpm Hvm].
    destruct (parseThresholdValues_dom critical criticalV Hcrit) as [Hpc Hvc].
    split; [exact Hpm|]. split; [exact Hpc|].
    assert (Hone : forall k, k = ThresholdCPU \/ k = ThresholdRAM ->
              filter (fun t => Key t = k)
                (thresholdFor maxV criticalV ThresholdCPU
                 ++ thresholdFor maxV criticalV ThresholdRAM)
              = thresholdFor maxV criticalV k).
    { intros k [->| ->]; rewrite filter_app, !filter_thresholdFor.
      - rewrite decide_True by reflexivity. rewrite decide_False by discriminate.
        now rewrite app_nil_r.
      - rewrite decide_False by discriminate. now rewrite decide_True by reflexivity. }
    split; [|split].
    + intros k x Hm Hc.
      assert (Hk : k = ThresholdCPU \/ k = ThresholdRAM) by (apply Hvm; now rewrite Hm).
      rewrite (Hone k Hk). unfold thresholdFor. rewrite Hm, Hc.
      rewrite bool_decide_eq_true_2 by (now exists x). cbn [orb default].
      destruct Hk as [-> | ->]; eexists; split; reflexivity.
    + intros k y Hm Hc.
      assert (Hk : k = ThresholdCPU \/ k = ThresholdRAM) by (apply Hvc; now rewrite Hc).
      rewrite (Hone k Hk). unfold thresholdFor. rewrite Hm, Hc.
      rewrite (bool_decide_eq_true_2 (is_Some (Some y))) by (now exists y).
      rewrite orb_true_r. cbn [default].
      destruct Hk as [-> | ->]; eexists; split; reflexivity.
    + intros k Hm Hc. rewrite filter_app, !filter_thresholdFor.
      assert (Hnone : thresholdFor maxV criticalV k = []).
      { unfold thresholdFor. rewrite Hm, Hc.
        now rewrite bool_decide_eq_false_2 by (intros [? [=]]). }
      destruct (decide (ThresholdCPU = k)) as [Hk|_];
        destruct (decide (ThresholdRAM = k)) as [Hk'|_];
        try (rewrite Hk, Hnone); try (rewrite Hk', Hnone); reflexivity.
  - intros H200. unfold ParseThresholdList.
    change (parseThresholdValues EmptyString) with ((∅ : gmap string float), @None error).
    cbv beta iota.
    assert (Hc : parseThresholdValues "CPU=200" = (<["CPU"%string := 200%float]> ∅, None)).
    { unfold parseThresholdValues.
      change (TrimSpace "CPU=200") with "CPU=200"%string.
      cbn [String.eqb Ascii.eqb Bool.eqb].
      change (Split "CPU=200" ",") with ["CPU=200"%string].
      cbn [parsePairs].
      change (Contains "CPU=200" ":") with false. cbv iota.
      change (Split "CPU=200" "=") with ["CPU"; "200"]%string.
      cbn [length Nat.eqb negb nth].
      change (TrimSpace "CPU") with "CPU"%string.
      change (TrimSpace "200") with "200"%string.
      change (IsValidThresholdKey "CPU") with true. cbn [negb].
      now rewrite H200. }
    rewrite Hc, thresholdsLoop_all. unfold thresholdFor.
    rewrite !lookup_empty, lookup_insert_eq, lookup_insert_ne by discriminate.
    rewrite lookup_empty.
    rewrite (bool_decide_eq_false_2 (is_Some None)) by (intros [? [=]]).
    rewrite (bool_decide_eq_true_2 (is_Some (Some _))) by (now eexists).
    reflexivity.
Qed.

Lemma parsePairs_app_ok (pre rest : list string) (res : gmap string float) :
  Forall (fun q => exists kv, parseOne q = inl kv) pre ->
  exists res', parsePairs (pre ++ rest) res = parsePairs rest res'.
Proof.
  revert res. induction pre as [|q pre IH]; intros res Hpre.
  - now exists res.
  - inversion Hpre as [|? ? [[k v] Hq] Hpre']; subst.
    cbn [app]. rewrite parsePairs_cons, Hq. apply IH, Hpre'.
Qed.

Lemma parsePairs_None (ps : list string) (res : gmap string float) :
  snd (parsePairs ps res) = None <-> Forall (fun q => exists kv, parseOne q = inl kv) ps.
Proof.
  revert res. induction ps as [|p ps IH]; intros res.
  - split; [constructor|reflexivity].
  - rewrite parsePairs_cons. destruct (parseOne p) as [[k v]|e] eqn:Hp.
    + rewrite IH. split.
      * intros H. constructor; [now exists (k, v)|exact H].
      * intros H. now inversion H.
    + split; [discriminate|].
      intros H. inversion H as [|? ? [kv Hkv] _]; subst. congruence.
Qed.

Lemma parsePairs_keeps (ps : list string) (res m : gmap string float) (k : string) :
  parsePairs ps res = (m, None) ->
  Forall (fun q => pairKey q <> k) ps ->
  m !! k = res !! k.
Proof.
  revert res. induction ps as [|p ps IH]; intros res H Hk.
  - now injection H as <-.
  - rewrite parsePairs_cons in H. inversion Hk as [|? ? Hp Hk']; subst.
    destruct (parseOne p) as [[k' v']|e] eqn:Hq; [|discriminate H].
    apply parseOne_key in Hq as [-> _].
    rewrite (IH _ H Hk'). now apply lookup_insert_ne.
Qed.

Lemma parsePairs_last (pre post : list string) (p k : string) (v : float)
    (res m : gmap string float) :
  parsePairs (pre ++ p :: post) res = (m, None) ->
  parseOne p = inl (k, v) ->
  Forall (fun q => pairKey q <> k) post ->
  m !! k = Some v.
Proof.
  intros Hparse Hp Hpost.
  assert (Hpre : Forall (fun q => exists kv, parseOne q = inl kv) pre).
  { assert (Hall : snd (parsePairs (pre ++ p :: post) res) = None) by now rewrite Hparse.
    apply parsePairs_None in Hall. now apply Forall_app in Hall as [Hall _]. }
  destruct (parsePairs_app_ok pre (p :: post) res Hpre) as [res' Hres].
  rewrite Hres, parsePairs_cons, Hp in Hparse.
  rewrite (parsePairs_keeps _ _ _ k Hparse Hpost). apply lookup_insert_eq.
Qed.

Lemma parseThresholdValues_last (spec : string) (pre post : list string) (p k : string)
    (v : float) (m : gmap string float) :
  parseThresholdValues spec = (m, None) ->
  TrimSpace spec <> EmptyString ->
  Split (TrimSpace spec) "," = (pre ++ p :: post)%list ->
  parseOne p = inl (k, v) ->
  Forall (fun q => pairKey q <> k) post ->
  m !! k = Some v /\ IsValidThresholdKey k = true.
Proof.
  intros Hparse Hne Hsplit Hp Hpost. unfold parseThresholdValues in Hparse.
  destruct (String.eqb_spec (TrimSpace spec) EmptyString) as [H|_]; [contradiction|].
  rewrite Hsplit in Hparse. split.
  - exact (parsePairs_last _ _ _ _ _ _ _ Hparse Hp Hpost).
  - now apply parseOne_key in Hp as [_ Hp].
Qed.

Lemma thresholdFor_In (maxV criticalV : gmap string float) (k : ThresholdKey) :
  IsValidThresholdKey k = true ->
  is_Some (maxV !! k) \/ is_Some (criticalV !! k) ->
  exists t,
    In t (thresholdFor maxV criticalV ThresholdCPU ++ thresholdFor maxV criticalV ThresholdRAM) /\
    Key t = k /\
    MaxLoad t = default 0%float (maxV !! k) /\
    CriticalLoad t = default 0%float (criticalV !! k).
Proof.
  intros Hk Hsome.
  assert (Hb : bool_decide (is_Some (maxV !! k)) || bool_decide (is_Some (criticalV !! k)) = true).
  { destruct Hsome as [H|H].
    - now rewrite (bool_decide_eq_true_2 _ H).
    - rewrite (bool_decide_eq_true_2 _ H). apply orb_true_r. }
  apply IsValidThresholdKey_inv in Hk as [-> | ->].
  - unfold thresholdFor at 1. rewrite Hb. cbn [getQueryByThresholdKey].
    unfold getQueryByThresholdKey. cbn [String.eqb Ascii.eqb Bool.eqb ThresholdCPU].
    eexists. split; [apply in_or_app; left; left; reflexivity|]. now repeat split.
  - unfold thresholdFor at 2. rewrite Hb.
    unfold getQueryByThresholdKey. cbn [String.eqb Ascii.eqb Bool.eqb ThresholdCPU ThresholdRAM].
    eexists. split; [apply in_or_app; right; left; reflexivity|]. now repeat split.
Qed.

(** C9, as the code has it: the Thresholds always come in the order CPU,
    RAM, whatever the two specs; when no key is written twice in a
    spec, the order of the pairs in the two specs does not change the
    result; and when a key is written more than once in a spec, its
    last pair gives the bound. *)
Theorem threshold_lists_order_independent :
  (forall (max critical : string) (ts : list Threshold),
     ParseThresholdList max critical = Returns (ts, None) ->
     sublist (map Key ts) AllThresholdKeys) /\
  (forall (maxPairs maxPairs' critPairs critPairs' : list string) (ts : list Threshold),
     commaFree maxPairs -> commaFree critPairs ->
     Permutation maxPairs maxPairs' -> Permutation critPairs critPairs' ->
     List.NoDup (map pairKey maxPairs) -> List.NoDup (map pairKey critPairs) ->
     ParseThresholdList (Join maxPairs ",") (Join critPairs ",") = Returns (ts, None) ->
     ParseThresholdList (Join maxPairs' ",") (Join critPairs' ",") = Returns (ts, None)) /\
  (forall (max critical : string) (ts : list Threshold) (pre post : list string)
          (p k : string) (v : float),
     ParseThresholdList max critical = Returns (ts, None) ->
     parseOne p = inl (k, v) ->
     Forall (fun q => pairKey q <> k) post ->
     (TrimSpace max <> EmptyString ->
      Split (TrimSpace max) "," = (pre ++ p :: post)%list ->
      exists t, In t ts /\ Key t = k /\ MaxLoad t = v) /\
     (TrimSpace critical <> EmptyString ->
      Split (TrimSpace critical) "," = (pre ++ p :: post)%list ->
      exists t, In t ts /\ Key t = k /\ CriticalLoad t = v)).
Proof.
  split; [|split].
  - intros max critical ts Hparse.
    apply ParseThresholdList_inv in Hparse as (maxV & criticalV & _ & _ & Hloop).
    apply thresholdsLoop_sublist in Hloop as (ts' & -> & Hsub). exact Hsub.
  - intros maxPairs maxPairs' critPairs critPairs' ts Hcm Hcc Hpm Hpc Hnm Hnc Hparse.
    apply ParseThresholdList_inv in Hparse as (maxV & criticalV & Hmax & Hcrit & Hloop).
    unfold ParseThresholdList.
    rewrite (parseThresholdValues_perm _ _ _ Hcm Hpm Hnm Hmax).
    rewrite (parseThresholdValues_perm _ _ _ Hcc Hpc Hnc Hcrit).
    now rewrite Hloop.
  - intros max critical ts pre post p k v Hparse Hp Hpost.
    apply ParseThresholdList_inv in Hparse as (maxV & criticalV & Hmax & Hcrit & Hloop).
    rewrite thresholdsLoop_all in Hloop. injection Hloop as <-.
    split; intros Hne Hsplit.
    + destruct (parseThresholdValues_last _ _ _ _ _ _ _ Hmax Hne Hsplit Hp Hpost) as [Hv Hk].
      assert (Hsome : is_Some (maxV !! k) \/ is_Some (criticalV !! k))
        by (left; rewrite Hv; now eexists).
      destruct (thresholdFor_In maxV criticalV k Hk Hsome) as (t & Hin & Hkey & Hm & _).
      exists t. split; [exact Hin|]. split; [exact Hkey|].
      rewrite Hm. exact (f_equal (default 0%float) Hv).
    + destruct (parseThresholdValues_last _ _ _ _ _ _ _ Hcrit Hne Hsplit Hp Hpost) as [Hv Hk].
      assert (Hsome : is_Some (maxV !! k) \/ is_Some (criticalV !! k))
        by (right; rewrite Hv; now eexists).
      destruct (thresholdFor_In maxV criticalV k Hk Hsome) as (t & Hin & Hkey & _ & Hc).
      exists t. split; [exact Hin|]. split; [exact Hkey|].
      rewrite Hc. exact (f_equal (default 0%float) Hv).
Qed.

End ThresholdListFacts.

(** With a key written twice the last pair wins, so the order counts. *)
Lemma duplicate_key_last_wins :
  ParseThresholdList (lib := demoLib) EmptyString (Join ["CPU=1"; "CPU=2"]%string ",") =
    Returns ([mkThreshold ThresholdCPU cpuQuery 0%float 2%float], None) /\
  ParseThresholdList (lib := demoLib) EmptyString (Join ["CPU=2"; "CPU=1"]%string ",") =
    Returns ([mkThreshold ThresholdCPU cpuQuery 0%float 1%float], None).
Proof. split; vm_compute; reflexivity. Qed.

(** Two pairs with different keys, swapped. *)
Lemma threshold_lists_order_independent_witness :
  ParseThresholdList (lib := demoLib) (Join ["RAM:70"; " CPU = 50"]%string ",")
    (Join ["CPU=90"]%string ",") =
    Returns ([mkThreshold ThresholdCPU cpuQuery 50%float 90%float;
              mkThreshold ThresholdRAM
                (default EmptyString (getQueryByThresholdKey ThresholdRAM))
                70%float 0%float], None).
Proof.
  refine (proj1 (proj2 (threshold_lists_order_independent (lib := demoLib)))
           [" CPU = 50"; "RAM:70"]%string ["RAM:70"; " CPU = 50"]%string
           ["CPU=90"]%string ["CPU=90"]%string _ _ _ _ _ _ _ _).
  - repeat constructor.
  - repeat constructor.
  - apply perm_swap.
  - apply Permutation_refl.
  - vm_compute. repeat constructor; cbn [In]; intros Hin; decompose [or] Hin;
      try discriminate; assumption.
  - vm_compute. repeat constructor; cbn [In]; intros Hin; decompose [or] Hin;
      try discriminate; assumption.
  - vm_compute. reflexivity.
Defined.

(** The critical spec "CPU=200" with an empty max spec. *)
Lemma threshold_bounds_witness :
  ParseThresholdList (lib := demoLib) EmptyString "CPU=200" =
    Returns ([mkThreshold ThresholdCPU cpuQuery 0%float 200%float], None).
Proof.
  apply (proj2 (threshold_bounds (lib := demoLib))). vm_compute. reflexivity.
Defined.

Section TransfererFacts.
Context {dump : DumpPkg} {els : Elsewhere}.

Lemma sourceByType_Some (t : Transferer) (st : SourceType) (s : Source) :
  sourceByType t st = Some s -> Type_ s = st.
Proof.
  unfold sourceByType. intros Hf. apply find_some in Hf as [_ Hd].
  now apply bool_decide_eq_true in Hd.
Qed.

(** The loop goes round after a WAIT: the next iteration starts from the
    same pool, one sleep later. *)
Lemma readChunksFromSource_wait {P : Type} (fuel : nat) (t : Transferer) (p : ChunkPool P)
    (ctx : nat -> option error) (lc : nat -> LoadStatus) (i : nat) (w : Reader P) :
  ctx i = None -> lc i = LoadStatusWait ->
  readChunksFromSource (S fuel) t p ctx lc i w =
  readChunksFromSource fuel t p ctx lc (S i)
    (mkReader (pool w) (chunkC w) (rcalls w) (sleeps w ++ [MaxLoadWaitDuration])).
Proof.
  intros Hctx Hlc. cbn [readChunksFromSource]. unfold readIteration.
  now rewrite Hctx, Hlc.
Qed.

(** C6: one iteration of a reader worker that is not cancelled.  On WAIT
    it sleeps for the poll interval and goes round again with the pool
    untouched; on TERMINATE it stops with an error; on OK it takes the
    next item of the pool, and stops with success exactly when the pool
    says it is exhausted; on any other status it stops with the "unknown
    load status" error. *)
Theorem reader_iteration {P : Type} (t : Transferer) (p : ChunkPool P)
    (status : LoadStatus) (w : Reader P) :
  (status = LoadStatusWait ->
   readIteration t p None status w =
     Continue (mkReader (pool w) (chunkC w) (rcalls w) (sleeps w ++ [MaxLoadWaitDuration]))) /\
  (status = LoadStatusTerminate ->
   readIteration t p None status w =
     Stop (Returns (Some (errors_New "got terminate load status"))) w) /\
  (status = LoadStatusOK ->
   pool (stepState (readIteration t p None status w)) = snd (Next p (pool w)) /\
   ((exists w', readIteration t p None status w = Stop (Returns None) w') <->
    snd (fst (Next p (pool w))) = false)) /\
  (status <> LoadStatusWait -> status <> LoadStatusTerminate -> status <> LoadStatusOK ->
   readIteration t p None status w =
     Stop (Returns (Some (errors_New "unknown load status"))) w).
Proof.
  unfold readIteration. repeat split.
  - intros ->. reflexivity.
  - intros ->. reflexivity.
  - subst status. cbn -[Next].
    destruct (Next p (pool w)) as [[chMeta ok] pool']. cbn.
    destruct ok; cbn; [|reflexivity].
    destruct (sourceByType t (ChunkMeta_Source chMeta)) as [s|]; [|reflexivity].
    destruct (ReadChunk s (rcalls w) chMeta) as [[ch|] [e|]]; reflexivity.
  - subst status. cbn -[Next].
    destruct (Next p (pool w)) as [[chMeta ok] pool']. cbn.
    destruct ok; cbn; [|reflexivity].
    intros [w' Hw']. exfalso.
    destruct (sourceByType t (ChunkMeta_Source chMeta)) as [s|]; [|discriminate].
    destruct (ReadChunk s (rcalls w) chMeta) as [[ch|] [e|]]; discriminate.
  - subst status. cbn -[Next].
    destruct (Next p (pool w)) as [[chMeta ok] pool']. cbn.
    intros ->. cbn. eexists. reflexivity.
  - intros Hw Ht Ho.
    apply Z.eqb_neq in Hw, Ht, Ho. now rewrite Hw, Ht, Ho.
Qed.


(** C10: an entry at the root of the archive that is not the metadata
    file makes the loop of [Import] slice the empty directory string at
    [len - 1 = -1]: the import panics, it does not return the
    corrupted-archive error. *)
Theorem import_root_entry_panics (t : Transferer) (os : OS) (rm : Meta)
    (name content : string) (rest : list TarItem) :
  Contains name "/" = false ->
  name <> MetaFilename ->
  (forall seen w,
     importLoop t rm (TarFile name content :: rest) seen w =
       (Panic "slice bounds out of range [:-1]",
        logged InfoLevel ("Processing chunk '" +:+ name +:+ "'...")
          (logged DebugLevel "Reading file from dump..." w))) /\
  (forall w w0,
     openDump t os w = (inl (TarStream (TarFile name content :: rest)), w0) ->
     fst (Import t os rm w) = Panics "slice bounds out of range [:-1]").
Proof.
  intros Hname Hmeta.
  assert (Hloop : forall seen w,
     importLoop t rm (TarFile name content :: rest) seen w =
       (Panic "slice bounds out of range [:-1]",
        logged InfoLevel ("Processing chunk '" +:+ name +:+ "'...")
          (logged DebugLevel "Reading file from dump..." w))).
  { intros seen w. cbn [importLoop]. unfold bind at 1. cbn [log].
    rewrite (path_Split_plain name Hname).
    apply String.eqb_neq in Hmeta. rewrite Hmeta.
    unfold bind, log, ret. reflexivity. }
  split; [exact Hloop|].
  intros w w0 Hopen. unfold Import. unfold bind at 1. rewrite Hopen.
  unfold bind at 1. rewrite Hloop. reflexivity.
Qed.

(** The flag the loop ends with: it is set when the loop started with
    it set or met a metadata entry, and only then. *)
Lemma importLoop_flag (t : Transferer) (rm : Meta) (items : list TarItem) (seen b : bool)
    (w w1 : IO) :
  importLoop t rm items seen w = (Break b, w1) ->
  b = seen || existsb isMetaEntry items.
Proof.
  revert seen w. induction items as [|it items IH]; intros seen w Hrun.
  - cbn [importLoop] in Hrun. unfold bind at 1 in Hrun. cbn [log] in Hrun.
    unfold bind at 1 in Hrun. cbn [log] in Hrun. injection Hrun as <- _.
    cbn [existsb]. now rewrite orb_false_r.
  - destruct it as [name content|err].
    2: { cbn [importLoop] in Hrun. unfold bind at 1 in Hrun. discriminate Hrun. }
    cbn [importLoop] in Hrun. unfold bind at 1 in Hrun. cbn [log] in Hrun.
    cbn [existsb isMetaEntry].
    destruct (path_Split name) as [dir file]. cbn [snd].
    destruct (String.eqb file MetaFilename).
    { unfold bind at 1 in Hrun. apply IH in Hrun. rewrite Hrun.
      cbn [orb]. now rewrite orb_true_r. }
    cbn [orb]. unfold bind at 1 in Hrun. cbn [log] in Hrun.
    destruct (slice_to dir _) as [d|]; [|discriminate Hrun].
    destruct (bool_decide _); [discriminate Hrun|].
    destruct (sourceByType t (ParseSourceType d)) as [s|].
    2: { unfold bind at 1 in Hrun. cbn [log] in Hrun. now apply IH in Hrun. }
    unfold bind at 1 in Hrun. unfold callWriteChunk in Hrun.
    destruct (WriteChunk s _ file content) as [e|]; [discriminate Hrun|].
    unfold bind at 1 in Hrun. cbn [log] in Hrun. now apply IH in Hrun.
Qed.

(** C8, as the code has it.  An entry under a directory that
    [ParseSourceType] does not recognise ends the loop with the
    corrupted-dump error, which [Import] returns.  An entry of a
    recognised type with no adapter in this run is logged at warn level
    and skipped, no adapter being called.  When the archive was read to
    its end and held no metadata entry, the loop ends with its flag
    unset, one event is logged, at error level, and the import goes on
    to the finalize calls, whose outcome is its result; when the archive
    held a metadata entry the flag is set and that event is not
    logged. *)
Theorem import_tolerances (t : Transferer) (os : OS) (rm : Meta) :
  (forall d file content rest seen w,
     file <> MetaFilename -> Contains file "/" = false ->
     ParseSourceType d = UndefinedSource ->
     importLoop t rm (TarFile (d +:+ "/" +:+ file) content :: rest) seen w =
       (Return ("corrupted dump: found undefined source: " +:+ d +:+ "/"),
        logged InfoLevel ("Processing chunk '" +:+ (d +:+ "/" +:+ file) +:+ "'...")
          (logged DebugLevel "Reading file from dump..." w))) /\
  (forall items w w0 w1 err,
     openDump t os w = (inl (TarStream items), w0) ->
     importLoop t rm items false w0 = (Return err, w1) ->
     Import t os rm w = (Returns (Some err), w1)) /\
  (forall d file content rest seen w,
     file <> MetaFilename -> Contains file "/" = false ->
     ParseSourceType d <> UndefinedSource ->
     sourceByType t (ParseSourceType d) = None ->
     importLoop t rm (TarFile (d +:+ "/" +:+ file) content :: rest) seen w =
       importLoop t rm rest seen
         (logged WarnLevel
            ("Found dump data for " +:+ SourceType_String (ParseSourceType d)
             +:+ ", but it's not specified - skipped")
            (logged InfoLevel ("Processing chunk '" +:+ (d +:+ "/" +:+ file) +:+ "'...")
               (logged DebugLevel "Reading file from dump..." w)))) /\
  (forall items w w0 w1 b,
     openDump t os w = (inl (TarStream items), w0) ->
     existsb isMetaEntry items = false ->
     importLoop t rm items false w0 = (Break b, w1) ->
     b = false /\
     Import t os rm w =
       (let '(err, w2) :=
          finalizeLoop (sources t)
            (logged DebugLevel "Finalizing writes..."
               (logged ErrorLevel "No meta file found in dump. No version checks performed" w1)) in
        match err with
        | Some e => (Returns (Some e), w2)
        | None => (Returns None, logged InfoLevel "Successfully imported!" w2)
        end)) /\
  (forall items w w0 w1 b,
     openDump t os w = (inl (TarStream items), w0) ->
     existsb isMetaEntry items = true ->
     importLoop t rm items false w0 = (Break b, w1) ->
     b = true /\
     Import t os rm w =
       (let '(err, w2) :=
          finalizeLoop (sources t) (logged DebugLevel "Finalizing writes..." w1) in
        match err with
        | Some e => (Returns (Some e), w2)
        | None => (Returns None, logged InfoLevel "Successfully imported!" w2)
        end)).
Proof.
  split; [|split; [|split; [|split]]].
  - intros d file content rest seen w Hmeta Hfile Hund.
    cbn [importLoop]. unfold bind at 1. cbn [log].
    rewrite (path_Split_dir d file Hfile).
    apply String.eqb_neq in Hmeta. rewrite Hmeta.
    unfold bind at 1. cbn [log]. rewrite slice_to_dir, Hund.
    rewrite bool_decide_eq_true_2 by reflexivity. reflexivity.
  - intros items w w0 w1 err Hopen Hloop.
    unfold Import. unfold bind at 1. rewrite Hopen.
    unfold bind at 1. rewrite Hloop. reflexivity.
  - intros d file content rest seen w Hmeta Hfile Hrec Hnone.
    cbn [importLoop]. unfold bind at 1. cbn [log].
    rewrite (path_Split_dir d file Hfile).
    apply String.eqb_neq in Hmeta. rewrite Hmeta.
    unfold bind at 1. cbn [log]. rewrite slice_to_dir.
    rewrite bool_decide_eq_false_2 by exact Hrec. rewrite Hnone.
    unfold bind at 1. cbn [log]. reflexivity.
  - intros items w w0 w1 b Hopen Hnone Hloop.
    pose proof (importLoop_flag _ _ _ _ _ _ _ Hloop) as Hb.
    rewrite Hnone in Hb. cbn [orb] in Hb. subst b. split; [reflexivity|].
    unfold Import. unfold bind at 1. rewrite Hopen.
    unfold bind at 1. rewrite Hloop. cbn [negb].
    unfold bind at 1. cbn [log]. unfold bind at 1. cbn [log].
    unfold bind at 1. unfold logged.
    destruct (finalizeLoop (sources t) _) as [[e|] w2]; reflexivity.
  - intros items w w0 w1 b Hopen Hsome Hloop.
    pose proof (importLoop_flag _ _ _ _ _ _ _ Hloop) as Hb.
    rewrite Hsome in Hb. cbn [orb] in Hb. subst b. split; [reflexivity|].
    unfold Import. unfold bind at 1. rewrite Hopen.
    unfold bind at 1. rewrite Hloop. cbn [negb].
    unfold bind at 1. unfold ret at 1. unfold bind at 1. cbn [log].
    unfold bind at 1. unfold logged.
    destruct w1 as [cs lg]. cbn [calls logs].
    destruct (finalizeLoop (sources t) _) as [[e|] w2]; reflexivity.
Qed.


(** *** The writer *)

Lemma tar_WriteHeader_ok (os : OS) (tw tw' : TarWriter) (hdr : TarHeader) :
  tar_WriteHeader os tw hdr = (tw', None) ->
  tw' = mkTarWriter (entries tw ++ [mkTarEntry hdr EmptyString]) (S (writes tw)).
Proof.
  unfold tar_WriteHeader.
  destruct (tar_fault os (writes tw)); [discriminate|].
  destruct (0 <? _); [discriminate|].
  now intros [= <-].
Qed.

Lemma tar_Write_ok (os : OS) (es : list TarEntry) (n : nat) (hdr : TarHeader)
    (b : string) (tw' : TarWriter) :
  Size hdr = Z.of_nat (String.length b) ->
  tar_Write os (mkTarWriter (es ++ [mkTarEntry hdr EmptyString]) n) b = (tw', None) ->
  tw' = mkTarWriter (es ++ [mkTarEntry hdr b]) (S n).
Proof.
  intros Hsize. unfold tar_Write. cbn [entries writes].
  destruct (tar_fault os n); [discriminate|].
  rewrite last_snoc, removelast_last. cbn [header body String.length].
  rewrite Hsize, Z.sub_0_r, Z.min_id, Nat2Z.id, Z.ltb_irrefl.
  rewrite substring_all, string_app_nil_l.
  now intros [= <-].
Qed.

Lemma largest_cons (ch : Chunk) (chunks : list Chunk) (init : Z) :
  largest (ch :: chunks) init =
  largest chunks (Z.max init (Z.of_nat (String.length (Content ch)))).
Proof. reflexivity. Qed.

Lemma largest_ge_init (chunks : list Chunk) (init : Z) : init <= largest chunks init.
Proof.
  revert init. induction chunks as [|ch chunks IH]; intros init; [cbn; lia|].
  rewrite largest_cons. specialize (IH (Z.max init (Z.of_nat (String.length (Content ch))))).
  lia.
Qed.

Lemma largest_ge_chunk (chunks : list Chunk) (init : Z) (ch : Chunk) :
  In ch chunks -> Z.of_nat (String.length (Content ch)) <= largest chunks init.
Proof.
  revert init. induction chunks as [|c0 chunks IH]; intros init; [intros []|].
  rewrite largest_cons. intros [->|Hin].
  - pose proof (largest_ge_init chunks (Z.max init (Z.of_nat (String.length (Content ch))))).
    lia.
  - now apply IH.
Qed.

Lemma largest_attained (chunks : list Chunk) (init : Z) :
  largest chunks init = init \/
  exists ch, In ch chunks /\ largest chunks init = Z.of_nat (String.length (Content ch)).
Proof.
  revert init. induction chunks as [|c0 chunks IH]; intros init; [now left|].
  rewrite largest_cons.
  destruct (IH (Z.max init (Z.of_nat (String.length (Content c0))))) as [Hi|(ch & Hin & Hch)].
  - rewrite Hi. destruct (Z.max_spec init (Z.of_nat (String.length (Content c0))))
      as [[_ ->]|[_ ->]]; [right; exists c0; split; [now left|reflexivity]|now left].
  - right. exists ch. split; [now right|exact Hch].
Qed.

(** A successful run of the loop: one entry per chunk, in the order of
    the channel, then the metadata writer, once, on the final Meta. *)
Lemma writeLoop_ok (t : Transferer) (os : OS) (ctx : nat -> option error)
    (chunks : list Chunk) (i : nat) (meta : Meta) (tw tw' : TarWriter) :
  writeLoop t os ctx i meta chunks tw = (None, tw') ->
  exists tw1,
    entries tw1 = (entries tw ++ map chunkEntry chunks)%list /\
    writeMetafile os tw1 (mkMeta (largest chunks (MaxChunkSize meta)) (Meta_rest meta))
      = (tw', None).
Proof.
  revert i meta tw. induction chunks as [|ch chunks IH]; intros i meta tw; cbn [writeLoop].
  - destruct (ctx i); [discriminate|].
    destruct (writeMetafile os tw meta) as [tw1 err] eqn:Hm.
    intros [= -> ->]. exists tw. split; [now rewrite app_nil_r|].
    destruct meta; exact Hm.
  - destruct (ctx i); [discriminate|].
    destruct (sourceByType t (Chunk_Source ch)) as [s|] eqn:Hs; [|discriminate].
    apply sourceByType_Some in Hs. rewrite Hs.
    match goal with
    | |- context [tar_WriteHeader os tw ?h] =>
      destruct (tar_WriteHeader os tw h) as [tw1 [e|]] eqn:Hh; [discriminate|]
    end.
    apply tar_WriteHeader_ok in Hh. subst tw1.
    match goal with
    | |- context [tar_Write os ?w ?b] =>
      destruct (tar_Write os w b) as [tw2 [e|]] eqn:Hw; [discriminate|]
    end.
    apply tar_Write_ok in Hw; [|reflexivity]. subst tw2.
    intros Hloop. apply IH in Hloop as (tw1 & Hent & Hmeta).
    exists tw1. split.
    + rewrite Hent. cbn [entries map]. rewrite <- app_assoc. reflexivity.
    + rewrite largest_cons. rewrite <- Hmeta. clear.
      destruct (Z.of_nat (String.length (Content ch)) >? MaxChunkSize meta) eqn:Hgt;
        cbn [MaxChunkSize Meta_rest].
      * rewrite Z.gtb_ltb in Hgt. apply Z.ltb_lt in Hgt.
        now rewrite Z.max_r by lia.
      * rewrite Z.gtb_ltb in Hgt. apply Z.ltb_ge in Hgt.
        now rewrite Z.max_l by lia.
Qed.

(** C7, as the code has it.  After a successful run of the writer the
    archive holds one entry per chunk, in the order the channel
    delivered them: a regular file of mode 0600 named
    [path.Join(type, filename)] (which is [type/filename] for plain
    names) whose size is the content length and whose body is the
    content.  The metadata writer then ran once, last, on a Meta whose
    MaxChunkSize is the largest of the MaxChunkSize passed in and the
    content lengths; if that writer appends one entry under the reserved
    name, this entry is the last of the archive and the only one after
    the chunks. *)
Theorem writer_archive (t : Transferer) (os : OS) (ctx : nat -> option error)
    (meta : Meta) (chunks : list Chunk) (dest : Dest) (tw : TarWriter) :
  writeChunksToFile t os ctx meta chunks = (None, Some (dest, tw)) ->
  let final := largest chunks (MaxChunkSize meta) in
  (exists tw1,
     entries tw1 = map chunkEntry chunks /\
     writeMetafile os tw1 (mkMeta final (Meta_rest meta)) = (tw, None)) /\
  (forall ch, In ch chunks ->
     Typeflag (header (chunkEntry ch)) = TypeReg /\
     Mode (header (chunkEntry ch)) = 384 /\
     Size (header (chunkEntry ch)) = Z.of_nat (String.length (Content ch)) /\
     body (chunkEntry ch) = Content ch /\
     Name (header (chunkEntry ch)) =
       path_Join [SourceType_String (Chunk_Source ch); Filename ch] /\
     (plainName (SourceType_String (Chunk_Source ch)) -> plainName (Filename ch) ->
      Name (header (chunkEntry ch)) =
        SourceType_String (Chunk_Source ch) +:+ "/" +:+ Filename ch)) /\
  MaxChunkSize meta <= final /\
  (forall ch, In ch chunks -> Z.of_nat (String.length (Content ch)) <= final) /\
  (final = MaxChunkSize meta \/
   exists ch, In ch chunks /\ final = Z.of_nat (String.length (Content ch))) /\
  ((forall tw0 m tw0', writeMetafile os tw0 m = (tw0', None) ->
      exists e, entries tw0' = (entries tw0 ++ [e])%list /\ Name (header e) = MetaFilename) ->
   exists e, entries tw = (map chunkEntry chunks ++ [e])%list /\
             Name (header e) = MetaFilename).
Proof.
  intros Hrun final.
  assert (Hloop : exists tw1,
            entries tw1 = map chunkEntry chunks /\
            writeMetafile os tw1 (mkMeta final (Meta_rest meta)) = (tw, None)).
  { unfold writeChunksToFile in Hrun.
    match type of Hrun with
    | (let '(_, _) := match ?f with _ => _ end in _) = _ =>
      destruct f as [[d|] e] eqn:Hf
    | (match ?f with _ => _ end) = _ => destruct f as [[d|] e] eqn:Hf
    end; [|discriminate].
    destruct (writeLoop t os ctx 0 meta chunks (mkTarWriter [] 0)) as [err tw0] eqn:Hl.
    injection Hrun as -> _ ->. apply writeLoop_ok in Hl. exact Hl. }
  split; [exact Hloop|]. split; [|split; [|split; [|split]]].
  - intros ch Hin. repeat split.
    intros Hs Hf. cbn [chunkEntry header Name]. now apply path_Join_plain.
  - apply largest_ge_init.
  - intros ch Hin. now apply largest_ge_chunk.
  - apply largest_attained.
  - intros Hmeta. destruct Hloop as (tw1 & Hent & Hw).
    destruct (Hmeta _ _ _ Hw) as (e & He & Hname).
    exists e. split; [now rewrite He, Hent|exact Hname].
Qed.

End TransfererFacts.

(** ** Examples *)

(** A reader that sees WAIT sleeps and keeps its pool. *)
Lemma reader_iteration_witness :
  readIteration demoTransferer listPool None LoadStatusWait
    (mkReader [(DVictoriaMetrics, 3%nat)] [] [] [])
  = Continue (mkReader [(DVictoriaMetrics, 3%nat)] [] [] [MaxLoadWaitDuration]).
Proof.
  apply (proj1 (reader_iteration (dump := demoDump) demoTransferer listPool LoadStatusWait
                  (mkReader [(DVictoriaMetrics, 3%nat)] [] [] []))).
  reflexivity.
Defined.

(** The MaxChunkSize handed to the metadata writer is the one passed in
    when no chunk is larger; and the entry of a chunk with an empty
    filename is named by the type alone. *)
Lemma writer_keeps_initial_MaxChunkSize :
  writeChunksToFile (els := demoElsewhere) demoTransferer demoOS (fun _ => None)
    (@mkMeta demoDump 10 tt) [demoChunk]
  = (None,
     Some (Stdout,
           mkTarWriter
             [mkTarEntry (mkTarHeader TypeReg "vm/c.bin" 3 384) "abc";
              mkTarEntry (mkTarHeader TypeReg "meta.json" 15 384) "MaxChunkSize=10"] 3)) /\
  String.length (@Content demoDump demoChunk) = 3%nat /\
  Name (header (chunkEntry (@mkChunk demoDump DVictoriaMetrics EmptyString "abc"))) = "vm"%string.
Proof. repeat split; vm_compute; reflexivity. Qed.

(** The same run, through the characterisation of the archive. *)
Lemma writer_archive_witness :
  @MaxChunkSize demoDump (@mkMeta demoDump 10 tt)
  <= largest [demoChunk] (@MaxChunkSize demoDump (@mkMeta demoDump 10 tt)).
Proof.
  refine (proj1 (proj2 (proj2
    (writer_archive (els := demoElsewhere) demoTransferer demoOS (fun _ => None)
       (@mkMeta demoDump 10 tt) [demoChunk] Stdout
       (mkTarWriter
          [mkTarEntry (mkTarHeader TypeReg "vm/c.bin" 3 384) "abc";
           mkTarEntry (mkTarHeader TypeReg "meta.json" 15 384) "MaxChunkSize=10"] 3)
       _)))).
  vm_compute. reflexivity.
Defined.


(** An import of an archive without metadata succeeds, and what it logs
    about the missing metadata is at error level: no event of the run is
    at warn level. *)
Lemma missing_meta_logged_as_error :
  fst noMetaRun = Returns None /\
  In (mkLog ErrorLevel [] "No meta file found in dump. No version checks performed")
     (logs (snd noMetaRun)) /\
  ~ (exists e, In e (logs (snd noMetaRun)) /\ level e = WarnLevel).
Proof.
  split; [vm_compute; reflexivity|]. split.
  - vm_compute. tauto.
  - intros (e & Hin & Hl). vm_compute in Hin.
    repeat (destruct Hin as [<-|Hin]; [discriminate Hl|]). exact Hin.
Qed.

(** An entry under the unknown directory "zz". *)
Lemma import_tolerances_witness :
  importLoop (els := demoElsewhere) demoTransferer (@mkMeta demoDump 0 tt)
    [TarFile "zz/a.bin" "x"] false (mkIO [] [])
  = (Return "corrupted dump: found undefined source: zz/",
     logged InfoLevel "Processing chunk 'zz/a.bin'..."
       (logged DebugLevel "Reading file from dump..." (mkIO [] []))).
Proof.
  apply (proj1 (import_tolerances (els := demoElsewhere) demoTransferer demoOS
                  (@mkMeta demoDump 0 tt))
           "zz" "a.bin" "x" [] false (mkIO [] [])).
  - discriminate.
  - reflexivity.
  - reflexivity.
Defined.

(** An archive whose only entry lies at the root. *)
Lemma import_root_entry_panics_witness :
  fst (Import (els := demoElsewhere) demoTransferer
         (demoOSWith [TarFile "stray.bin" "x"]) (@mkMeta demoDump 0 tt) (mkIO [] []))
  = Panics "slice bounds out of range [:-1]".
Proof.
  apply (proj2 (import_root_entry_panics (els := demoElsewhere) demoTransferer
                  (demoOSWith [TarFile "stray.bin" "x"]) (@mkMeta demoDump 0 tt)
                  "stray.bin" "x" [] eq_refl ltac:(discriminate))
           (mkIO [] []) (mkIO [] [mkLog InfoLevel [] "Importing metrics..."])).
  reflexivity.
Defined.

(** ** More on the controller *)

Section ControllerMore.
Context {lib : GoLib}.

(** X1.  With no thresholds the controller sends no request and
    publishes OK with its counter at zero, however many ticks it lives;
    and every further cycle leaves it so. *)
Theorem NewLoadChecker_no_thresholds (cl : Client) (url : string) (w : Net) :
  (forall ticks,
     NewLoadChecker ticks cl url [] w = (mkLoadChecker cl url [] LoadStatusOK 0, w)) /\
  (forall n,
     polled (S n) (newLoadChecker cl url []) w = (mkLoadChecker cl url [] LoadStatusOK 0, w)).
Proof.
  split.
  - intros ticks. reflexivity.
  - induction n as [|n IH]; [reflexivity|].
    rewrite polled_S, IH. reflexivity.
Qed.

(** X2.  A query that fails ends the check at once: the result is NONE with
    an error naming the key, whatever the thresholds before it said, and
    the thresholds after it are not queried. *)
Theorem checkMetricsLoad_fetch_error (lc : LoadChecker) (w : Net)
    (pre post : list Threshold) (t : Threshold) (vs : list float) (x : float) (e : error) :
  thresholds lc = (pre ++ t :: post)%list ->
  fetchAll lc pre w = map measuredOk vs ->
  Forall2 belowCritical pre vs ->
  fst (getMetricCurrentValue lc t (w ++ map (queryURL lc) pre)) = (x, Some e) ->
  checkMetricsLoad lc w =
    ((LoadStatusNone,
      Some ("failed to retrieve threshold value for " +:+ Key t +:+ ": " +:+ e)),
     (w ++ map (queryURL lc) (pre ++ [t]))%list).
Proof.
  intros Hth Hf Hb He. unfold checkMetricsLoad. rewrite Hth.
  rewrite (checkLoop_below lc pre (t :: post) vs _ w Hf Hb).
  cbn [checkLoop]. unfold bind.
  pose proof (getMetricCurrentValue_net lc t (w ++ map (queryURL lc) pre)) as Hn.
  destruct (getMetricCurrentValue lc t (w ++ map (queryURL lc) pre)) as [r w'].
  cbn [fst snd] in *. subst r w'. unfold ret.
  now rewrite map_app, app_assoc.
Qed.

(** X3.  A value is fetched exactly when the request goes through with status
    200, the body decodes and the response is valid; every failure
    returns the value zero with its error. *)
Theorem getMetricCurrentValue_ok (lc : LoadChecker) (m : Threshold) (w : Net) :
  (forall v,
     fst (getMetricCurrentValue lc m w) = (v, None) <->
     exists body resp,
       Get (c lc) w (queryURL lc m) = (StatusOK, body, None) /\
       json_Unmarshal body = (resp, None) /\
       getValidValue resp = (v, None)) /\
  (forall v e, fst (getMetricCurrentValue lc m w) = (v, Some e) -> v = 0%float).
Proof.
  unfold getMetricCurrentValue.
  destruct (Get (c lc) w (queryURL lc m)) as [[status body] [e|]] eqn:Hget.
  { split; [|now intros v e' [= <- _]].
    intros v. split; [discriminate|]. intros (b & r & [=] & _). }
  destruct (Z.eqb_spec status StatusOK) as [->|Hne]; cbn [negb].
  2: { split; [|now intros v e' [= <- _]].
       intros v. split; [discriminate|]. intros (b & r & [= ? ?] & _). congruence. }
  destruct (json_Unmarshal body) as [resp [e|]] eqn:Hj.
  { split; [|now intros v e' [= <- _]].
    intros v. split; [discriminate|].
    intros (b & r & [= <-] & Hj' & _). rewrite Hj in Hj'. discriminate. }
  destruct (getValidValue resp) as [val [e|]] eqn:Hv.
  { split; [|now intros v e' [= <- _]].
    intros v. split; [discriminate|].
    intros (b & r & [= <-] & Hj' & Hv'). rewrite Hj in Hj'. injection Hj' as <-.
    rewrite Hv in Hv'. discriminate. }
  split; [|discriminate].
  intros v. cbn [fst]. split.
  - intros [= <-]. now exists body, resp.
  - intros (b & r & [= <-] & Hj' & Hv'). rewrite Hj in Hj'. injection Hj' as <-.
    rewrite Hv in Hv'. now injection Hv' as <-.
Qed.

Lemma checkLoop_net (lc : LoadChecker) (ts : list Threshold) (st : LoadStatus) (w : Net) :
  exists k, (k <= length ts)%nat /\
            snd (checkLoop lc ts st w) = (w ++ map (queryURL lc) (take k ts))%list.
Proof.
  revert st w. induction ts as [|t ts IH]; intros st w.
  - exists 0%nat. split; [lia|]. cbn. now rewrite app_nil_r.
  - cbn [checkLoop]. unfold bind.
    pose proof (getMetricCurrentValue_net lc t w) as Hn.
    destruct (getMetricCurrentValue lc t w) as [[v [e|]] w']; cbn [snd] in Hn; subst w'.
    + exists 1%nat. split; [cbn; lia|]. reflexivity.
    + destruct (fge v (CriticalLoad t)).
      * exists 1%nat. split; [cbn; lia|]. reflexivity.
      * destruct (fge v (MaxLoad t)).
        -- destruct (IH LoadStatusWait (w ++ [queryURL lc t])%list) as (k & Hk & ->).
           exists (S k). split; [cbn; lia|]. cbn [take map]. now rewrite <- app_assoc.
        -- destruct (IH st (w ++ [queryURL lc t])%list) as (k & Hk & ->).
           exists (S k). split; [cbn; lia|]. cbn [take map]. now rewrite <- app_assoc.
Qed.

(** X4.  Polling changes neither the client, the endpoint nor the thresholds;
    it only appends requests to the ones sent before, at most one per
    threshold and cycle, and each for the query URL of a threshold. *)
Theorem polled_frame (n : nat) (lc : LoadChecker) (w : Net) :
  c (fst (polled n lc w)) = c lc /\
  connectionURL (fst (polled n lc w)) = connectionURL lc /\
  thresholds (fst (polled n lc w)) = thresholds lc /\
  exists new,
    snd (polled n lc w) = (w ++ new)%list /\
    (length new <= n * length (thresholds lc))%nat /\
    Forall (fun u => exists t, In t (thresholds lc) /\ u = queryURL lc t) new.
Proof.
  induction n as [|n IH].
  - cbn. repeat split. exists []. split; [now rewrite app_nil_r|]. split; [cbn; lia|constructor].
  - destruct IH as (Hc & Hu & Ht & new & Hw & Hlen & Hall).
    rewrite polled_S, updateStatus_spec. cbn zeta. cbn [fst snd].
    set (lc' := fst (polled n lc w)) in *. set (w' := snd (polled n lc w)) in *.
    assert (Hcfg : c lc' = c lc /\ connectionURL lc' = connectionURL lc
                   /\ thresholds lc' = thresholds lc) by auto.
    split; [|split; [|split]].
    + destruct (_ =? _); cbn; apply Hcfg.
    + destruct (_ =? _); cbn; apply Hcfg.
    + destruct (_ =? _); cbn; apply Hcfg.
    + unfold checkMetricsLoad.
      destruct (checkLoop_net lc' (thresholds lc') LoadStatusOK w') as (k & Hk & ->).
      exists (new ++ map (queryURL lc') (take k (thresholds lc')))%list.
      rewrite Hw, <- app_assoc. split; [reflexivity|]. split.
      * rewrite length_app, length_map, length_take. rewrite Ht in *. cbn. lia.
      * apply Forall_app. split; [exact Hall|].
        apply List.Forall_forall. intros u Hin.
        apply in_map_iff in Hin as (t & <- & Hin).
        exists t. split.
        -- rewrite <- Ht. apply list_elem_of_In.
           eapply elem_of_sublist; [|apply sublist_take].
           apply list_elem_of_In. exact Hin.
        -- unfold queryURL. now rewrite Hu.
Qed.

(** X5.  After every cycle the published status and the counter agree: WAIT
    goes with a counter from 1 to 10, OK with 0, TERMINATE with 0 (a
    critical load) or more than 10 (too many WAIT). *)
Theorem status_counter_invariant (cl : Client) (url : string) (ths : list Threshold)
    (w0 : Net) (n : nat) :
  Z.of_nat (S n) <= int_max ->
  let lc := fst (polled (S n) (newLoadChecker cl url ths) w0) in
  0 <= waitStatusCounter lc <= Z.of_nat (S n) /\
  (latestStatus lc = LoadStatusWait <-> 1 <= waitStatusCounter lc <= 10) /\
  (latestStatus lc = LoadStatusOK -> waitStatusCounter lc = 0) /\
  (latestStatus lc = LoadStatusTerminate ->
   waitStatusCounter lc = 0 \/ 10 < waitStatusCounter lc).
Proof.
  intros Hn lc.
  pose proof (polled_counter (newLoadChecker cl url ths) w0 (S n) eq_refl Hn) as Hc.
  pose proof (polled_latest (newLoadChecker cl url ths) w0 n) as Hl.
  fold lc in Hc, Hl. cbn zeta in Hl.
  set (ev := fun k => evaluated (polled k (newLoadChecker cl url ths) w0)) in *.
  pose proof (waitRun_le ev n) as Hle.
  pose proof (evaluated_published (fst (polled n (newLoadChecker cl url ths) w0))
                (snd (polled n (newLoadChecker cl url ths) w0))) as Hp.
  rewrite <- surjective_pairing in Hp. fold (ev n) in Hp, Hl.
  cbn [waitRun] in Hc.
  unfold MaxWaitStatusInSequence in Hl. rewrite Z.gtb_ltb in Hl.
  destruct (Z.eqb_spec (ev n) LoadStatusWait) as [Hev|Hev]; cbn [andb] in Hl.
  - destruct (Z.ltb_spec 10 (waitStatusCounter lc)) as [Hgt|Hgt]; rewrite Hl, ?Hev;
      unfold LoadStatusWait, LoadStatusOK, LoadStatusTerminate; repeat split; try lia.
  - rewrite Hl, Hc. cbn [Z.of_nat].
    unfold LoadStatusWait, LoadStatusOK, LoadStatusTerminate in *.
    repeat split; try lia.
Qed.

End ControllerMore.

(** X6.  Each status has a name of its own, and every other number prints as
    UNDEFINED. *)
Theorem LoadStatus_String_names (s1 s2 : LoadStatus) :
  (LoadStatus_String s1 = "UNDEFINED"%string <-> ~ (0 <= s1 <= 3)) /\
  (0 <= s1 <= 3 -> LoadStatus_String s1 = LoadStatus_String s2 -> s1 = s2).
Proof.
  assert (Hcases : forall s, 0 <= s <= 3 -> s = 0 \/ s = 1 \/ s = 2 \/ s = 3) by (intros; lia).
  assert (Hout : forall s, ~ (0 <= s <= 3) -> LoadStatus_String s = "UNDEFINED"%string).
  { intros s Hs. unfold LoadStatus_String, LoadStatusNone, LoadStatusOK, LoadStatusWait,
      LoadStatusTerminate.
    destruct (Z.eqb_spec s 0); [lia|]. destruct (Z.eqb_spec s 1); [lia|].
    destruct (Z.eqb_spec s 2); [lia|]. destruct (Z.eqb_spec s 3); [lia|]. reflexivity. }
  split.
  - split; [|apply Hout].
    intros Hs Hin. destruct (Hcases _ Hin) as [-> | [-> | [-> | ->]]]; discriminate Hs.
  - intros Hin Heq.
    destruct (Z_le_dec 0 s2) as [H0|H0]; [destruct (Z_le_dec s2 3) as [H3|H3]|].
    + destruct (Hcases _ Hin) as [-> | [-> | [-> | ->]]];
        destruct (Hcases s2 (conj H0 H3)) as [-> | [-> | [-> | ->]]];
        try reflexivity; discriminate Heq.
    + rewrite (Hout s2) in Heq by lia.
      destruct (Hcases _ Hin) as [-> | [-> | [-> | ->]]]; discriminate Heq.
    + rewrite (Hout s2) in Heq by lia.
      destruct (Hcases _ Hin) as [-> | [-> | [-> | ->]]]; discriminate Heq.
Qed.

(** A server whose answers do not decode: the check of two thresholds
    ends at the first, with its error. *)
Lemma checkMetricsLoad_fetch_error_witness :
  checkMetricsLoad (lib := demoLib)
    (newLoadChecker (constantClient EmptyString) "http://pmm"
       [demoThreshold; mkThreshold ThresholdRAM "r" 10%float 20%float]) []
  = ((LoadStatusNone,
      Some ("failed to retrieve threshold value for " +:+ "CPU" +:+ ": " +:+
            "error parsing thresholds: unexpected end of JSON input")),
     ["http://pmm/api/v1/query?query=q"%string]).
Proof.
  apply (checkMetricsLoad_fetch_error (lib := demoLib)
           (newLoadChecker (constantClient EmptyString) "http://pmm"
              [demoThreshold; mkThreshold ThresholdRAM "r" 10%float 20%float]) []
           [] [mkThreshold ThresholdRAM "r" 10%float 20%float] demoThreshold [] 0%float).
  - reflexivity.
  - reflexivity.
  - constructor.
  - vm_compute. reflexivity.
Defined.

(** Three cycles against a load of 70 between the limits 50 and 90. *)
Lemma status_counter_invariant_witness :
  let lc := fst (polled (lib := demoLib) 3
                   (newLoadChecker (constantClient "70") "http://pmm" [demoThreshold]) []) in
  0 <= waitStatusCounter lc <= 3 /\
  (latestStatus lc = LoadStatusWait <-> 1 <= waitStatusCounter lc <= 10) /\
  (latestStatus lc = LoadStatusOK -> waitStatusCounter lc = 0) /\
  (latestStatus lc = LoadStatusTerminate ->
   waitStatusCounter lc = 0 \/ 10 < waitStatusCounter lc).
Proof.
  apply (status_counter_invariant (lib := demoLib) (constantClient "70") "http://pmm"
           [demoThreshold] [] 2).
  unfold int_max. lia.
Defined.

Lemma waitRun_exact (ev : nat -> LoadStatus) (n k : nat) :
  (k <= n)%nat ->
  (k = 0%nat \/ ev (k - 1)%nat <> LoadStatusWait) ->
  (forall i, (k <= i < n)%nat -> ev i = LoadStatusWait) ->
  waitRun ev n = (n - k)%nat.
Proof.
  intros Hk Hbefore Hrun. induction n as [|n IH].
  - cbn. lia.
  - cbn [waitRun]. destruct (Nat.eq_dec k (S n)) as [->|Hne].
    + destruct Hbefore as [H|H]; [discriminate H|].
      replace (S n - 1)%nat with n in H by lia.
      destruct (Z.eqb_spec (ev n) LoadStatusWait); [contradiction|lia].
    + rewrite (Hrun n) by lia. rewrite Z.eqb_refl.
      rewrite IH by (try lia; intros i Hi; apply Hrun; lia). lia.
Qed.

Section ControllerBoundary.
Context {lib : GoLib}.

(** X7.  Up to ten WAIT evaluations in a row, counted from the start or from
    the last evaluation that was not WAIT, are published as WAIT, and
    the counter is their number. *)
Theorem wait_run_tolerated (cl : Client) (url : string) (ths : list Threshold)
    (w0 : Net) (n k : nat) :
  let st := fun j => polled j (newLoadChecker cl url ths) w0 in
  let ev := fun j => evaluated (st j) in
  Z.of_nat (S n) <= int_max ->
  (k <= n)%nat -> (n - k < 10)%nat ->
  (k = 0%nat \/ ev (k - 1)%nat <> LoadStatusWait) ->
  (forall i, (k <= i <= n)%nat -> ev i = LoadStatusWait) ->
  GetLatestStatus (fst (st (S n))) = LoadStatusWait /\
  waitStatusCounter (fst (st (S n))) = Z.of_nat (S n - k).
Proof.
  intros st ev Hn Hk Hlen Hbefore Hrun.
  pose proof (polled_counter (newLoadChecker cl url ths) w0 (S n) eq_refl Hn) as Hc.
  pose proof (polled_latest (newLoadChecker cl url ths) w0 n) as Hl.
  cbn zeta in Hl.
  change (waitStatusCounter (fst (st (S n))) = Z.of_nat (waitRun ev (S n))) in Hc.
  change (latestStatus (fst (st (S n))) =
          if (ev n =? LoadStatusWait) &&
             (waitStatusCounter (fst (st (S n))) >? MaxWaitStatusInSequence)
          then LoadStatusTerminate else ev n) in Hl.
  rewrite (waitRun_exact ev (S n) k) in Hc; [|lia|exact Hbefore|intros i Hi; apply Hrun; lia].
  split; [|exact Hc].
  unfold GetLatestStatus. rewrite Hl, Hc, (Hrun n) by lia.
  unfold MaxWaitStatusInSequence. rewrite Z.gtb_ltb.
  destruct (Z.ltb_spec 10 (Z.of_nat (S n - k))); [lia|]. now rewrite andb_false_r.
Qed.

End ControllerBoundary.

(** Ten cycles against a load of 70 between the limits 50 and 90. *)
Lemma wait_run_tolerated_witness :
  GetLatestStatus
    (fst (polled (lib := demoLib) 10
            (newLoadChecker (constantClient "70") "http://pmm" [demoThreshold]) []))
  = LoadStatusWait /\
  waitStatusCounter
    (fst (polled (lib := demoLib) 10
            (newLoadChecker (constantClient "70") "http://pmm" [demoThreshold]) []))
  = Z.of_nat (10 - 0).
Proof.
  apply (wait_run_tolerated (lib := demoLib) (constantClient "70") "http://pmm"
           [demoThreshold] [] 9 0).
  - unfold int_max. lia.
  - lia.
  - lia.
  - now left.
  - intros i Hi.
    do 10 (destruct i as [|i]; [vm_compute; reflexivity|]). lia.
Defined.

(** ** More on the threshold lists *)

Lemma parseThresholdValues_TrimSpace {lib : GoLib} (s s' : string) :
  TrimSpace s = TrimSpace s' -> parseThresholdValues s = parseThresholdValues s'.
Proof. intros H. unfold parseThresholdValues. now rewrite H. Qed.

Lemma TrimSpace_spaces (w : string) : spaces w -> TrimSpace w = EmptyString.
Proof.
  intros Hw. rewrite <- (string_app_nil_r w).
  now rewrite (TrimSpace_spaces_l w EmptyString Hw).
Qed.

Section ThresholdMore.
Context {lib : GoLib}.

Lemma parsePairs_error (ps : list string) (res m : gmap string float) (e : error) :
  parsePairs ps res = (m, Some e) -> m = ∅.
Proof.
  revert res. induction ps as [|p ps IH]; intros res H.
  - discriminate H.
  - rewrite parsePairs_cons in H. destruct (parseOne p) as [[k v]|e'].
    + now apply IH in H.
    + now injection H as <- _.
Qed.

(** X8.  The parser of a threshold list always returns: with an error exactly
    when one of the two lists is rejected, the max list's error first,
    and then with no thresholds; a valid key always has its query. *)
Theorem ParseThresholdList_total (max critical : string) :
  (forall k, IsValidThresholdKey k = true <-> is_Some (getQueryByThresholdKey k)) /\
  exists ts err,
    ParseThresholdList max critical = Returns (ts, err) /\
    (err = None <->
     snd (parseThresholdValues max) = None /\ snd (parseThresholdValues critical) = None) /\
    (err <> None -> ts = []) /\
    (forall e, snd (parseThresholdValues max) = Some e ->
               err = Some ("invalid max load list: " +:+ e)) /\
    (forall e, snd (parseThresholdValues max) = None ->
               snd (parseThresholdValues critical) = Some e ->
               err = Some ("invalid critical load list: " +:+ e)).
Proof.
  split.
  - intros k. unfold IsValidThresholdKey, AllThresholdKeys, getQueryByThresholdKey,
      ThresholdCPU, ThresholdRAM. cbn [existsb].
    rewrite (String.eqb_sym "CPU" k), (String.eqb_sym "RAM" k).
    destruct (String.eqb k "CPU"); [cbn; split; eauto|].
    destruct (String.eqb k "RAM"); [cbn; split; eauto|].
    cbn. split; [discriminate|]. intros [? [=]].
  - unfold ParseThresholdList.
    destruct (parseThresholdValues max) as [maxV [e|]] eqn:Hmax.
    { eexists _, _. split; [reflexivity|]. cbn [snd].
      split; [split; [discriminate|now intros [[=] _]]|].
      split; [reflexivity|]. split; [now intros e' [= <-]|discriminate]. }
    destruct (parseThresholdValues critical) as [criticalV [e|]] eqn:Hcrit.
    { eexists _, _. split; [reflexivity|]. cbn [snd].
      split; [split; [discriminate|now intros [_ [=]]]|].
      split; [reflexivity|]. split; [discriminate|now intros e' _ [= <-]]. }
    rewrite thresholdsLoop_all. eexists _, _. split; [reflexivity|]. cbn [snd].
    split; [now split|]. split; [congruence|]. split; discriminate.
Qed.

(** X9.  White space around a threshold list is immaterial, and a list of
    white space only is the empty list: no value and no error. *)
Theorem parseThresholdValues_spaces (w1 w2 s : string) :
  spaces w1 -> spaces w2 ->
  parseThresholdValues (w1 +:+ s +:+ w2) = parseThresholdValues s /\
  parseThresholdValues w1 = (∅, None).
Proof.
  intros H1 H2. split.
  - apply parseThresholdValues_TrimSpace.
    now rewrite (TrimSpace_spaces_l _ _ H1), (TrimSpace_spaces_r _ _ H2).
  - unfold parseThresholdValues. now rewrite (TrimSpace_spaces _ H1).
Qed.

Lemma parseOne_sep (sep : ascii) (a b : string) :
  sep = ":"%char \/ sep = "="%char ->
  Contains a ":" = false -> Contains a "=" = false ->
  Contains b ":" = false -> Contains b "=" = false ->
  parseOne (a +:+ String sep b) =
    if negb (IsValidThresholdKey (TrimSpace a)) then inr ("undefined key: " +:+ TrimSpace a)
    else match strconv_ParseFloat (TrimSpace b) with
         | (_, Some err) => inr (errors_Wrap err "can't parse number: %w")
         | (v, None) => inl (TrimSpace a, v)
         end.
Proof.
  intros Hsep Ha1 Ha2 Hb1 Hb2. unfold parseOne.
  assert (Hs : separatorOf (a +:+ String sep b) = sep).
  { unfold separatorOf. rewrite Contains_app, Ha1. cbn [Contains orb]. rewrite Hb1.
    destruct Hsep as [-> | ->]; reflexivity. }
  rewrite Hs.
  assert (Ha : Contains a sep = false) by (destruct Hsep as [-> | ->]; assumption).
  assert (Hb : Contains b sep = false) by (destruct Hsep as [-> | ->]; assumption).
  rewrite (Split_app_sep a b sep Ha), (Split_plain b sep Hb). reflexivity.
Qed.

Lemma parseOne_spelling (sep : ascii) (k v w1 w2 w3 w4 : string) :
  sep = ":"%char \/ sep = "="%char ->
  spaces w1 -> spaces w2 -> spaces w3 -> spaces w4 ->
  Contains k ":" = false -> Contains k "=" = false ->
  Contains v ":" = false -> Contains v "=" = false ->
  parseOne ((w1 +:+ k +:+ w2) +:+ String sep (w3 +:+ v +:+ w4)) =
  parseOne (k +:+ String "="%char v).
Proof.
  intros Hsep H1 H2 H3 H4 Hk1 Hk2 Hv1 Hv2.
  assert (Hno : forall w ch, spaces w -> ch = ":"%char \/ ch = "="%char -> Contains w ch = false).
  { intros w ch Hw Hch. apply spaces_no_separator; [exact Hw|].
    unfold separates. tauto. }
  rewrite (parseOne_sep sep), (parseOne_sep "="%char); auto;
    rewrite ?Contains_app, ?Hk1, ?Hk2, ?Hv1, ?Hv2, ?(Hno w1), ?(Hno w2), ?(Hno w3), ?(Hno w4);
    auto.
  now rewrite (TrimSpace_spaces_l _ _ H1), (TrimSpace_spaces_r _ _ H2),
    (TrimSpace_spaces_l _ _ H3), (TrimSpace_spaces_r _ _ H4).
Qed.

(** A list of one pair. *)
Lemma single_pair (sep : ascii) (a b : string) :
  sep = ":"%char \/ sep = "="%char ->
  Contains a "," = false -> Contains b "," = false ->
  parseThresholdValues (a +:+ String sep b) =
    match parseOne (a +:+ String sep b) with
    | inl (k, v) => (<[k := v]> ∅, None)
    | inr e => (∅, Some e)
    end.
Proof.
  intros Hsep Ha Hb.
  assert (Hs : separates sep) by (unfold separates; tauto).
  assert (Hc : (sep =? ",")%char = false) by (destruct Hsep as [-> | ->]; reflexivity).
  unfold parseThresholdValues.
  rewrite <- (parseOne_ltrimS (a +:+ String sep b)).
  rewrite <- (parseOne_rtrimS (ltrimS (a +:+ String sep b))).
  rewrite TrimSpace_cuts, (ltrimS_stop a b sep Hs), (rtrimS_stop (ltrimS a) b sep Hs).
  destruct (String.eqb_spec (ltrimS a +:+ String sep (rtrimS b)) EmptyString) as [He|_].
  { destruct (ltrimS a); discriminate He. }
  rewrite Split_plain.
  - now rewrite parsePairs_cons.
  - rewrite Contains_app. cbn [Contains]. rewrite Hc.
    now rewrite (ltrimS_commaFree a Ha), (rtrimS_commaFree b Hb).
Qed.

(** X10.  A pair reads the same with a colon as with an equals sign, and with
    white space around its key and its value as without. *)
Theorem pair_spelling (sep : ascii) (k v w1 w2 w3 w4 : string) :
  sep = ":"%char \/ sep = "="%char ->
  spaces w1 -> spaces w2 -> spaces w3 -> spaces w4 ->
  Contains k ":" = false -> Contains k "=" = false -> Contains k "," = false ->
  Contains v ":" = false -> Contains v "=" = false -> Contains v "," = false ->
  parseThresholdValues ((w1 +:+ k +:+ w2) +:+ String sep (w3 +:+ v +:+ w4)) =
  parseThresholdValues (k +:+ String "="%char v).
Proof.
  intros Hsep H1 H2 H3 H4 Hk1 Hk2 Hk3 Hv1 Hv2 Hv3.
  assert (Hno : forall w, spaces w -> Contains w "," = false).
  { intros w Hw. apply spaces_no_separator; [exact Hw|]. unfold separates. tauto. }
  rewrite (single_pair sep), (single_pair "="%char); auto;
    rewrite ?Contains_app, ?Hk3, ?Hv3, ?(Hno w1), ?(Hno w2), ?(Hno w3), ?(Hno w4); auto.
  now rewrite (parseOne_spelling sep k v w1 w2 w3 w4).
Qed.

(** X11.  A list is accepted exactly when it is blank or each of its pairs
    is; otherwise the error is that of the first bad pair, no value is
    returned, and the pairs after it are not looked at. *)
Theorem parseThresholdValues_first_error (spec : string) :
  (snd (parseThresholdValues spec) = None <->
   TrimSpace spec = EmptyString \/
   Forall (fun q => exists kv, parseOne q = inl kv) (Split (TrimSpace spec) ",")) /\
  (forall pre p post e,
     TrimSpace spec <> EmptyString ->
     Split (TrimSpace spec) "," = (pre ++ p :: post)%list ->
     Forall (fun q => exists kv, parseOne q = inl kv) pre ->
     parseOne p = inr e ->
     parseThresholdValues spec = (∅, Some e)).
Proof.
  unfold parseThresholdValues. split.
  - destruct (String.eqb_spec (TrimSpace spec) EmptyString) as [He|He].
    + split; [now left|reflexivity].
    + rewrite parsePairs_None. split; [now right|]. intros [H|H]; [contradiction|exact H].
  - intros pre p post e Hne Hsplit Hpre Hp.
    destruct (String.eqb_spec (TrimSpace spec) EmptyString) as [He|_]; [contradiction|].
    rewrite Hsplit. destruct (parsePairs_app_ok pre (p :: post) ∅ Hpre) as [res' ->].
    now rewrite parsePairs_cons, Hp.
Qed.

(** X12.  A pair with neither a colon nor an equals sign, an empty one as
    after a trailing or doubled comma included, makes the whole list
    invalid. *)
Theorem pair_without_separator_rejected (spec p : string) :
  TrimSpace spec <> EmptyString ->
  In p (Split (TrimSpace spec) ",") ->
  Contains p ":" = false -> Contains p "=" = false ->
  exists e, parseThresholdValues spec = (∅, Some e).
Proof.
  intros Hne Hin Hc He. unfold parseThresholdValues.
  destruct (String.eqb_spec (TrimSpace spec) EmptyString) as [H|_]; [contradiction|].
  assert (Hbad : exists e, parseOne p = inr e).
  { unfold parseOne, separatorOf. rewrite Hc, (Split_plain p "="%char He). cbn. eauto. }
  destruct Hbad as [e0 Hbad].
  destruct (parsePairs (Split (TrimSpace spec) ",") ∅) as [m [e|]] eqn:Hpp.
  - exists e. now rewrite (parsePairs_error _ _ _ _ Hpp).
  - exfalso.
    assert (Hall : snd (parsePairs (Split (TrimSpace spec) ",") ∅) = None) by now rewrite Hpp.
    apply parsePairs_None in Hall. rewrite List.Forall_forall in Hall.
    destruct (Hall p Hin) as [kv Hkv]. congruence.
Qed.

(** X13.  When a key is written more than once, its last pair gives the
    value. *)
Theorem last_pair_wins (spec : string) (pre post : list string) (p k : string)
    (v : float) (m : gmap string float) :
  TrimSpace spec <> EmptyString ->
  Split (TrimSpace spec) "," = (pre ++ p :: post)%list ->
  parseThresholdValues spec = (m, None) ->
  parseOne p = inl (k, v) ->
  Forall (fun q => pairKey q <> k) post ->
  m !! k = Some v.
Proof.
  intros Hne Hsplit Hparse Hp Hpost. unfold parseThresholdValues in Hparse.
  destruct (String.eqb_spec (TrimSpace spec) EmptyString) as [H|_]; [contradiction|].
  rewrite Hsplit in Hparse.
  assert (Hpre : Forall (fun q => exists kv, parseOne q = inl kv) pre).
  { assert (Hall : snd (parsePairs (pre ++ p :: post) ∅) = None) by now rewrite Hparse.
    apply parsePairs_None in Hall. now apply Forall_app in Hall as [Hall _]. }
  destruct (parsePairs_app_ok pre (p :: post) ∅ Hpre) as [res' Hres].
  rewrite Hres, parsePairs_cons, Hp in Hparse.
  rewrite (parsePairs_keeps _ _ _ k Hparse Hpost). apply lookup_insert_eq.
Qed.

Lemma thresholdFor_loads (maxV criticalV : gmap string float) (k : ThresholdKey) (t : Threshold) :
  In t (thresholdFor maxV criticalV k) ->
  MaxLoad t = default 0%float (maxV !! k) /\
  CriticalLoad t = default 0%float (criticalV !! k).
Proof.
  unfold thresholdFor. destruct (_ || _); [|intros []].
  destruct (getQueryByThresholdKey k); [|intros []].
  intros [<-|[]]. now split.
Qed.

Lemma ParseThresholdList_loads (max critical : string) (ts : list Threshold) :
  ParseThresholdList max critical = Returns (ts, None) ->
  (TrimSpace max = EmptyString -> Forall (fun t => MaxLoad t = 0%float) ts) /\
  (TrimSpace critical = EmptyString -> Forall (fun t => CriticalLoad t = 0%float) ts).
Proof.
  intros H. apply ParseThresholdList_inv in H as (maxV & criticalV & Hmax & Hcrit & Hloop).
  rewrite thresholdsLoop_all in Hloop. injection Hloop as <-.
  unfold parseThresholdValues in Hmax, Hcrit. split; intros He.
  - rewrite He in Hmax. cbn in Hmax. injection Hmax as <-.
    apply List.Forall_forall. intros t Hin. apply in_app_or in Hin.
    destruct Hin as [Hin|Hin]; apply thresholdFor_loads in Hin as [-> _];
      now rewrite lookup_empty.
  - rewrite He in Hcrit. cbn in Hcrit. injection Hcrit as <-.
    apply List.Forall_forall. intros t Hin. apply in_app_or in Hin.
    destruct Hin as [Hin|Hin]; apply thresholdFor_loads in Hin as [_ ->];
      now rewrite lookup_empty.
Qed.

(** X14.  With a max list and no critical list the critical load of every
    threshold is zero: the first reading that is not negative gives
    TERMINATE. *)
Theorem max_only_terminates (max critical : string) (t : Threshold) (ts : list Threshold)
    (lc : LoadChecker) (w : Net) (v : float) :
  TrimSpace critical = EmptyString ->
  ParseThresholdList max critical = Returns (t :: ts, None) ->
  thresholds lc = t :: ts ->
  fst (getMetricCurrentValue lc t w) = measuredOk v ->
  fge v 0 = true ->
  checkMetricsLoad lc w = ((LoadStatusTerminate, None), (w ++ [queryURL lc t])%list).
Proof.
  intros Hc Hp Hth Hv Hge.
  apply ParseThresholdList_loads in Hp as [_ Hp]. specialize (Hp Hc).
  inversion Hp as [|? ? Ht _]; subst.
  unfold checkMetricsLoad. rewrite Hth.
  apply (checkLoop_critical lc t ts v _ w Hv). now rewrite Ht.
Qed.

Lemma checkLoop_wait (lc : LoadChecker) (ts : list Threshold) (vs : list float) (w : Net) :
  fetchAll lc ts w = map measuredOk vs ->
  exists net, checkLoop lc ts LoadStatusWait w = ((LoadStatusWait, None), net) \/
              checkLoop lc ts LoadStatusWait w = ((LoadStatusTerminate, None), net).
Proof.
  revert vs w. induction ts as [|t ts IH]; intros vs w Hf.
  - exists w. now left.
  - cbn [fetchAll] in Hf. cbn [checkLoop]. unfold bind.
    destruct (getMetricCurrentValue lc t w) as [r w'].
    destruct vs as [|v vs]; [discriminate Hf|]. cbn [map] in Hf.
    injection Hf as -> Hf. unfold measuredOk.
    destruct (fge v (CriticalLoad t)); [exists w'; now right|].
    destruct (fge v (MaxLoad t)); apply (IH vs w' Hf).
Qed.

(** X15.  With a critical list and no max list the max load of every
    threshold is zero: when no reading is negative the load is never
    OK. *)
Theorem critical_only_never_ok (max critical : string) (ts : list Threshold)
    (lc : LoadChecker) (w : Net) (vs : list float) :
  TrimSpace max = EmptyString ->
  ParseThresholdList max critical = Returns (ts, None) ->
  ts <> [] ->
  thresholds lc = ts ->
  fetchAll lc ts w = map measuredOk vs ->
  Forall (fun v => fge v 0 = true) vs ->
  exists net, checkMetricsLoad lc w = ((LoadStatusWait, None), net) \/
              checkMetricsLoad lc w = ((LoadStatusTerminate, None), net).
Proof.
  intros Hm Hp Hne Hth Hf Hge.
  apply ParseThresholdList_loads in Hp as [Hp _]. specialize (Hp Hm).
  unfold checkMetricsLoad. rewrite Hth.
  destruct ts as [|t ts]; [contradiction|].
  inversion Hp as [|? ? Ht _]; subst.
  cbn [fetchAll] in Hf. cbn [checkLoop]. unfold bind.
  destruct (getMetricCurrentValue lc t w) as [r w'].
  destruct vs as [|v vs]; [discriminate Hf|]. cbn [map] in Hf.
  injection Hf as -> Hf. unfold measuredOk.
  inversion Hge as [|? ? Hv _]; subst.
  destruct (fge v (CriticalLoad t)); [exists w'; now right|].
  rewrite Ht, Hv. apply (checkLoop_wait lc ts vs w' Hf).
Qed.

End ThresholdMore.

(** One blank is white space, and so is no byte at all. *)
Lemma spaces_blank : spaces " ".
Proof.
  exists [[" "%char]]. split; [|reflexivity].
  constructor; [|constructor]. cbv. tauto.
Qed.

Lemma spaces_empty : spaces EmptyString.
Proof. exists []. split; [constructor|reflexivity]. Qed.

(** A list between two blanks, and a list of one blank. *)
Lemma parseThresholdValues_spaces_witness :
  parseThresholdValues (lib := demoLib) (" " +:+ "CPU=1" +:+ " ") =
    parseThresholdValues (lib := demoLib) "CPU=1" /\
  parseThresholdValues (lib := demoLib) " " = (∅, None).
Proof.
  apply (parseThresholdValues_spaces (lib := demoLib) " " " " "CPU=1");
    exact spaces_blank.
Defined.

(** The pair CPU : 50 written with blanks and a colon. *)
Lemma pair_spelling_witness :
  parseThresholdValues (lib := demoLib)
    ((" " +:+ "CPU" +:+ " ") +:+ String ":"%char (" " +:+ "50" +:+ EmptyString)) =
  parseThresholdValues (lib := demoLib) ("CPU" +:+ String "="%char "50").
Proof.
  apply (pair_spelling (lib := demoLib) ":"%char "CPU" "50" " " " " " " EmptyString).
  - now left.
  - exact spaces_blank.
  - exact spaces_blank.
  - exact spaces_blank.
  - exact spaces_empty.
  - reflexivity.
  - reflexivity.
  - reflexivity.
  - reflexivity.
  - reflexivity.
  - reflexivity.
Defined.

(** A trailing comma. *)
Lemma pair_without_separator_rejected_witness :
  exists e, parseThresholdValues (lib := demoLib) "CPU=1," = (∅, Some e).
Proof.
  apply (pair_without_separator_rejected (lib := demoLib) "CPU=1," EmptyString).
  - vm_compute. discriminate.
  - vm_compute. tauto.
  - reflexivity.
  - reflexivity.
Defined.

(** The key CPU written twice. *)
Lemma last_pair_wins_witness :
  fst (parseThresholdValues (lib := demoLib) "CPU=1,CPU=2") !! "CPU"%string = Some 2%float.
Proof.
  apply (last_pair_wins (lib := demoLib) "CPU=1,CPU=2" ["CPU=1"%string] [] "CPU=2" "CPU"
           2%float).
  - vm_compute. discriminate.
  - vm_compute. reflexivity.
  - vm_compute. reflexivity.
  - vm_compute. reflexivity.
  - constructor.
Defined.

(** A max load of 50 for the CPU and no critical list, against a load
    of 70. *)
Lemma max_only_terminates_witness :
  checkMetricsLoad (lib := demoLib)
    (newLoadChecker (constantClient "70") "http://pmm"
       [mkThreshold ThresholdCPU cpuQuery 50%float 0%float]) [] =
  ((LoadStatusTerminate, None),
   [queryURL (lib := demoLib)
      (newLoadChecker (constantClient "70") "http://pmm"
         [mkThreshold ThresholdCPU cpuQuery 50%float 0%float])
      (mkThreshold ThresholdCPU cpuQuery 50%float 0%float)]).
Proof.
  apply (max_only_terminates (lib := demoLib) "CPU=50" EmptyString
           (mkThreshold ThresholdCPU cpuQuery 50%float 0%float) []
           (newLoadChecker (constantClient "70") "http://pmm"
              [mkThreshold ThresholdCPU cpuQuery 50%float 0%float]) [] 70%float).
  - reflexivity.
  - vm_compute. reflexivity.
  - reflexivity.
  - vm_compute. reflexivity.
  - vm_compute. reflexivity.
Defined.

(** A critical load of 90 for the CPU and no max list, against a load
    of 70. *)
Lemma critical_only_never_ok_witness :
  exists net,
    checkMetricsLoad (lib := demoLib)
      (newLoadChecker (constantClient "70") "http://pmm"
         [mkThreshold ThresholdCPU cpuQuery 0%float 90%float]) [] =
      ((LoadStatusWait, None), net) \/
    checkMetricsLoad (lib := demoLib)
      (newLoadChecker (constantClient "70") "http://pmm"
         [mkThreshold ThresholdCPU cpuQuery 0%float 90%float]) [] =
      ((LoadStatusTerminate, None), net).
Proof.
  apply (critical_only_never_ok (lib := demoLib) EmptyString "CPU=90"
           [mkThreshold ThresholdCPU cpuQuery 0%float 90%float]
           (newLoadChecker (constantClient "70") "http://pmm"
              [mkThreshold ThresholdCPU cpuQuery 0%float 90%float]) [] [70%float]).
  - reflexivity.
  - vm_compute. reflexivity.
  - discriminate.
  - reflexivity.
  - vm_compute. reflexivity.
  - repeat constructor.
Defined.

(** ** More on the transferer *)

Section TransfererMore.
Context {dump : DumpPkg} {els : Elsewhere}.

(** X16.  The adapter of a type is the first source of that type; there is
    none exactly when no source has the type. *)
Theorem sourceByType_first (t : Transferer) (st : SourceType) :
  (forall s,
     sourceByType t st = Some s <->
     exists pre post,
       sources t = (pre ++ s :: post)%list /\ Type_ s = st /\
       Forall (fun s' => Type_ s' <> st) pre) /\
  (sourceByType t st = None <-> Forall (fun s' => Type_ s' <> st) (sources t)).
Proof.
  unfold sourceByType.
  assert (Hnone : forall l, find (fun s => bool_decide (Type_ s = st)) l = None <->
                            Forall (fun s' : Source => Type_ s' <> st) l).
  { induction l as [|x l IH]; cbn [find].
    - split; [constructor|reflexivity].
    - destruct (bool_decide_reflect (Type_ x = st)) as [Hx|Hx].
      + split; [discriminate|]. intros H. now inversion H.
      + rewrite IH. split; [now constructor|]. intros H. now inversion H. }
  split; [|apply Hnone].
  intros s. generalize (sources t) as l.
  induction l as [|x l IH]; cbn [find].
  - split; [discriminate|]. intros (pre & post & H & _). now destruct pre.
  - destruct (bool_decide_reflect (Type_ x = st)) as [Hx|Hx].
    + split.
      * intros [= <-]. exists [], l. repeat split; [exact Hx|constructor].
      * intros (pre & post & H & Hs & Hpre). destruct pre as [|y pre].
        -- now injection H as ->.
        -- injection H as -> _. inversion Hpre; subst. contradiction.
    + rewrite IH. split.
      * intros (pre & post & -> & Hs & Hpre). exists (x :: pre), post.
        repeat split; [exact Hs|now constructor].
      * intros (pre & post & H & Hs & Hpre). destruct pre as [|y pre].
        -- injection H as -> _. contradiction.
        -- injection H as -> ->. exists pre, post. repeat split; [exact Hs|].
           now inversion Hpre.
Qed.

(** X17.  While the status is WAIT and the context is not done a reader worker
    does nothing but sleep a second per iteration: it takes nothing from
    the pool, reads and sends nothing, and does not stop by itself. *)
Theorem reader_waits {P} (fuel : nat) (t : Transferer) (p : ChunkPool P)
    (ctx : nat -> option error) (lc : nat -> LoadStatus) (i : nat) (w : Reader P) :
  (forall j, (i <= j < i + fuel)%nat -> ctx j = None /\ lc j = LoadStatusWait) ->
  readChunksFromSource fuel t p ctx lc i w =
    (None, mkReader (pool w) (chunkC w) (rcalls w)
             (sleeps w ++ repeat MaxLoadWaitDuration fuel)).
Proof.
  revert i w. induction fuel as [|fuel IH]; intros i w H.
  - cbn. rewrite app_nil_r. now destruct w.
  - destruct (H i ltac:(lia)) as [Hc Hl].
    rewrite (readChunksFromSource_wait fuel t p ctx lc i w Hc Hl).
    rewrite IH by (intros j Hj; apply H; lia).
    cbn [pool chunkC rcalls sleeps repeat]. now rewrite <- app_assoc.
Qed.

#[local] Ltac reader_done :=
  cbn [chunkC rcalls sleeps length]; rewrite ?app_nil_r; auto; try lia; try discriminate.

(** With every send completing the iteration is the one of
    [readIteration]. *)
Lemma readIterationCh_sent {P} (t : Transferer) (p : ChunkPool P) (ctxErr : option error)
    (status : LoadStatus) (w : Reader P) :
  readIterationCh t p ctxErr status true w =
    match readIteration t p ctxErr status w with
    | Continue w' => Goes w'
    | Stop r w' => Ends r w'
    end.
Proof.
  unfold readIterationCh, readIteration.
  destruct ctxErr; [reflexivity|].
  destruct (status =? LoadStatusWait); [reflexivity|].
  destruct (status =? LoadStatusTerminate); [reflexivity|].
  destruct (status =? LoadStatusOK); [|reflexivity].
  destruct (Next p (pool w)) as [[m ok] pool'].
  destruct ok; cbn [negb]; [|reflexivity].
  destruct (sourceByType t (ChunkMeta_Source m)) as [s|]; [|reflexivity].
  cbn [rcalls]. destruct (ReadChunk s (rcalls w) m) as [[c|] [e|]]; reflexivity.
Qed.

(** X18.  With the context not done and the status OK throughout, a pool
    that hands out [ms] and adapters that read them: if every send on
    the channel completes, the worker returns without error after
    sending the chunks of [ms] in order, one read each and no sleep; if
    the send of chunk [k] never completes, the worker stays in that
    send for ever, the [k] chunks before it sent and chunk [k] read. *)
Theorem reader_drains_pool {P} (fuel : nat) (t : Transferer) (p : ChunkPool P)
    (ctx : nat -> option error) (lc : nat -> LoadStatus) (sent : nat -> bool) (i : nat)
    (w : Reader P) (ms : list ChunkMeta) (cs : list Chunk) :
  yields p (pool w) ms ->
  (forall j, (i <= j <= i + length ms)%nat -> ctx j = None /\ lc j = LoadStatusOK) ->
  Forall2 (fun m c => exists s, sourceByType t (ChunkMeta_Source m) = Some s /\
                                forall h, ReadChunk s h m = (Some c, None)) ms cs ->
  (length ms < fuel)%nat ->
  ((forall j, (i <= j < i + length ms)%nat -> sent j = true) ->
   exists w',
     readWorker fuel t p ctx lc sent i w = (Returned (Returns None), w') /\
     chunkC w' = (chunkC w ++ cs)%list /\
     rcalls w' = (rcalls w ++ map readCall ms)%list /\
     sleeps w' = sleeps w) /\
  (forall k,
     (k < length ms)%nat ->
     (forall j, (i <= j < i + k)%nat -> sent j = true) ->
     sent (i + k)%nat = false ->
     exists w',
       readWorker fuel t p ctx lc sent i w = (Hung, w') /\
       chunkC w' = (chunkC w ++ take k cs)%list /\
       rcalls w' = (rcalls w ++ map readCall (take (S k) ms))%list /\
       sleeps w' = sleeps w).
Proof.
  intros Hy Hok Hread. revert fuel i w Hy Hok.
  induction Hread as [|m c ms cs (s & Hs & Hr) _ IH]; intros fuel i w Hy Hok Hfuel.
  - split.
    + intros _. destruct fuel as [|fuel]; [cbn in Hfuel; lia|].
      destruct (Hok i ltac:(cbn; lia)) as [Hc Hl].
      cbn [readWorker]. unfold readIterationCh. rewrite Hc, Hl. cbn [Z.eqb Pos.eqb].
      cbn [yields] in Hy. destruct (Next p (pool w)) as [[m ok] pool'].
      cbn [fst snd] in Hy. subst ok. cbn [negb].
      eexists. split; [reflexivity|]. cbn. now rewrite !app_nil_r.
    + intros k Hk. cbn in Hk. lia.
  - destruct fuel as [|fuel]; [cbn in Hfuel; lia|].
    destruct (Hok i ltac:(cbn; lia)) as [Hc Hl].
    cbn [yields] in Hy. destruct Hy as [Hn Hy].
    assert (Hiter : readIterationCh t p (ctx i) (lc i) (sent i) w =
              if sent i
              then Goes (mkReader (snd (Next p (pool w))) (chunkC w ++ [c])
                           (rcalls w ++ [readCall m]) (sleeps w))
              else Blocks (mkReader (snd (Next p (pool w))) (chunkC w)
                             (rcalls w ++ [readCall m]) (sleeps w))).
    { unfold readIterationCh. rewrite Hc, Hl. cbn [Z.eqb Pos.eqb].
      destruct (Next p (pool w)) as [[m' ok] pool'].
      cbn [fst snd] in Hn |- *. injection Hn as -> ->. cbn [negb].
      rewrite Hs. cbn [rcalls]. rewrite Hr. unfold readCall.
      now rewrite (sourceByType_Some t _ s Hs). }
    cbn [readWorker]. rewrite Hiter.
    specialize (IH fuel (S i)
                  (mkReader (snd (Next p (pool w))) (chunkC w ++ [c])
                     (rcalls w ++ [readCall m]) (sleeps w)) Hy).
    destruct IH as [IHall IHk].
    { intros j Hj. apply Hok. cbn [length]. lia. }
    { cbn [length] in Hfuel. lia. }
    split.
    + intros Hsent. rewrite (Hsent i) by (cbn [length]; lia).
      destruct IHall as (w' & Hrun & Hcs & Hrs & Hsl).
      { intros j Hj. apply Hsent. cbn [length]. lia. }
      exists w'. split; [exact Hrun|]. rewrite Hcs, Hrs, Hsl. cbn [chunkC rcalls sleeps map].
      now rewrite <- !app_assoc.
    + intros k Hk Hbefore Hblock. destruct k as [|k].
      * rewrite Nat.add_0_r in Hblock. rewrite Hblock.
        eexists. split; [reflexivity|]. cbn [chunkC rcalls sleeps take map].
        now rewrite app_nil_r.
      * rewrite (Hbefore i) by lia.
        destruct (IHk k) as (w' & Hrun & Hcs & Hrs & Hsl).
        { cbn [length] in Hk. lia. }
        { intros j Hj. apply Hbefore. lia. }
        { now replace (S i + k)%nat with (i + S k)%nat by lia. }
        exists w'. split; [exact Hrun|]. rewrite Hcs, Hrs, Hsl.
        cbn [chunkC rcalls sleeps take map]. now rewrite <- !app_assoc.
Qed.

(** X19.  Whatever the context, the statuses, the pool, the sources and
    the channel do, a reader worker only adds to what it sent, called
    and slept; it calls nothing but ReadChunk and sleeps nothing but
    MaxLoadWaitDuration; the chunks it sent are the chunks its calls
    gave, in the order of the calls, but for at most one last call,
    which failed or whose send never completes; and when the worker has
    returned without error or is still in its loop, there is no such
    call. *)
Theorem reader_sends_what_it_reads {P} (fuel : nat) (t : Transferer) (p : ChunkPool P)
    (ctx : nat -> option error) (lc : nat -> LoadStatus) (sent : nat -> bool) (i : nat)
    (w : Reader P) :
  exists cs rs rest sl,
    chunkC (snd (readWorker fuel t p ctx lc sent i w)) = (chunkC w ++ cs)%list /\
    rcalls (snd (readWorker fuel t p ctx lc sent i w)) = (rcalls w ++ rs ++ rest)%list /\
    sleeps (snd (readWorker fuel t p ctx lc sent i w)) = (sleeps w ++ sl)%list /\
    reads t (rcalls w) rs cs /\
    Forall isReadCall rest /\ (length rest <= 1)%nat /\
    Forall (fun d => d = MaxLoadWaitDuration) sl /\
    (fst (readWorker fuel t p ctx lc sent i w) = Running \/
     fst (readWorker fuel t p ctx lc sent i w) = Returned (Returns None) ->
     rest = []) /\
    (fst (readWorker fuel t p ctx lc sent i w) = Hung -> length rest = 1%nat).
Proof.
  revert i w. induction fuel as [|fuel IH]; intros i w.
  - exists [], [], [], []. cbn. rewrite !app_nil_r.
    repeat split; try constructor; auto; discriminate.
  - cbn [readWorker].
    assert (Hstop : forall (f : fate) (w0 : Reader P) (rest : list Call),
               chunkC w0 = chunkC w -> rcalls w0 = (rcalls w ++ rest)%list ->
               sleeps w0 = sleeps w -> Forall isReadCall rest -> (length rest <= 1)%nat ->
               f <> Running ->
               (f = Returned (Returns None) -> rest = []) ->
               (f = Hung -> length rest = 1%nat) ->
               exists cs rs rest sl,
                 chunkC (snd (f, w0)) = (chunkC w ++ cs)%list /\
                 rcalls (snd (f, w0)) = (rcalls w ++ rs ++ rest)%list /\
                 sleeps (snd (f, w0)) = (sleeps w ++ sl)%list /\
                 reads t (rcalls w) rs cs /\
                 Forall isReadCall rest /\ (length rest <= 1)%nat /\
                 Forall (fun d => d = MaxLoadWaitDuration) sl /\
                 (fst (f, w0) = Running \/ fst (f, w0) = Returned (Returns None) ->
                  rest = []) /\
                 (fst (f, w0) = Hung -> length rest = 1%nat)).
    { intros f w0 rest Hc Hr Hs Hall Hlen Hrun Hret Hhung. exists [], [], rest, [].
      cbn [fst snd app]. rewrite !app_nil_r.
      repeat split; auto; try constructor.
      intros [Hf|Hf]; [contradiction|now apply Hret]. }
    assert (Hcont : forall (w0 : Reader P) (cs0 : list Chunk) (rs0 : list Call) (sl0 : list Z),
               chunkC w0 = (chunkC w ++ cs0)%list -> rcalls w0 = (rcalls w ++ rs0)%list ->
               sleeps w0 = (sleeps w ++ sl0)%list ->
               (forall rs cs, reads t (rcalls w0) rs cs ->
                              reads t (rcalls w) (rs0 ++ rs) (cs0 ++ cs)) ->
               Forall (fun d => d = MaxLoadWaitDuration) sl0 ->
               exists cs rs rest sl,
                 chunkC (snd (readWorker fuel t p ctx lc sent (S i) w0)) =
                   (chunkC w ++ cs)%list /\
                 rcalls (snd (readWorker fuel t p ctx lc sent (S i) w0)) =
                   (rcalls w ++ rs ++ rest)%list /\
                 sleeps (snd (readWorker fuel t p ctx lc sent (S i) w0)) =
                   (sleeps w ++ sl)%list /\
                 reads t (rcalls w) rs cs /\
                 Forall isReadCall rest /\ (length rest <= 1)%nat /\
                 Forall (fun d => d = MaxLoadWaitDuration) sl /\
                 (fst (readWorker fuel t p ctx lc sent (S i) w0) = Running \/
                  fst (readWorker fuel t p ctx lc sent (S i) w0) = Returned (Returns None) ->
                  rest = []) /\
                 (fst (readWorker fuel t p ctx lc sent (S i) w0) = Hung ->
                  length rest = 1%nat)).
    { intros w0 cs0 rs0 sl0 Hc Hr Hs Hreads Hsl.
      destruct (IH (S i) w0)
        as (cs' & rs' & rest & sl' & Hc' & Hr' & Hs' & Hrd & Hall & Hlen & Hsl' & Hret & Hhung).
      exists (cs0 ++ cs')%list, (rs0 ++ rs')%list, rest, (sl0 ++ sl')%list.
      rewrite Hc', Hr', Hs', Hc, Hr, Hs, <- !app_assoc.
      repeat split; auto. now apply Forall_app. }
    unfold readIterationCh.
    destruct (ctx i) as [e|]; [apply (Hstop _ w []); reader_done|].
    destruct (lc i =? LoadStatusWait).
    { apply (Hcont _ [] [] [MaxLoadWaitDuration]); reader_done. }
    destruct (lc i =? LoadStatusTerminate); [apply (Hstop _ w []); reader_done|].
    destruct (lc i =? LoadStatusOK); [|apply (Hstop _ w []); reader_done].
    destruct (Next p (pool w)) as [[m ok] pool'].
    destruct ok; cbn [negb]; [|apply (Hstop _ _ []); reader_done].
    destruct (sourceByType t (ChunkMeta_Source m)) as [s|] eqn:Hsrc;
      [|apply (Hstop _ _ []); reader_done].
    cbn [rcalls chunkC pool sleeps].
    assert (Hone : Forall isReadCall [ReadChunkCall (Type_ s) m]).
    { constructor; [|constructor]. now exists (Type_ s), m. }
    destruct (ReadChunk s (rcalls w) m) as [[c|] [e|]] eqn:Hread.
    + apply (Hstop _ _ [ReadChunkCall (Type_ s) m]); reader_done.
    + destruct (sent i).
      * apply (Hcont _ [c] [ReadChunkCall (Type_ s) m] []); reader_done.
        intros rs cs Hrd. cbn [app]. now apply (reads_cons t _ s m c).
      * apply (Hstop _ _ [ReadChunkCall (Type_ s) m]); reader_done.
    + apply (Hstop _ _ [ReadChunkCall (Type_ s) m]); reader_done.
    + apply (Hstop _ _ [ReadChunkCall (Type_ s) m]); reader_done.
Qed.

End TransfererMore.

(** *** The writer, step by step *)

Lemma tar_WriteHeader_sealed (os : OS) (tw : TarWriter) (hdr : TarHeader) :
  tar_fault os (writes tw) = None ->
  sealed tw ->
  tar_WriteHeader os tw hdr =
    (mkTarWriter (entries tw ++ [mkTarEntry hdr EmptyString]) (S (writes tw)), None).
Proof.
  intros Hf Hs. unfold tar_WriteHeader. rewrite Hf. unfold sealed in Hs.
  destruct (last (entries tw)) as [e|].
  - destruct (Z.ltb_spec 0 (Size (header e) - Z.of_nat (String.length (body e))));
      [lia|reflexivity].
  - reflexivity.
Qed.

Lemma tar_Write_fresh (os : OS) (es : list TarEntry) (n : nat) (hdr : TarHeader) (b : string) :
  tar_fault os n = None ->
  Size hdr = Z.of_nat (String.length b) ->
  tar_Write os (mkTarWriter (es ++ [mkTarEntry hdr EmptyString]) n) b =
    (mkTarWriter (es ++ [mkTarEntry hdr b]) (S n), None).
Proof.
  intros Hf Hsz. unfold tar_Write. cbn [writes entries]. rewrite Hf, last_snoc.
  cbn [header body String.length Z.of_nat]. rewrite Z.sub_0_r, Hsz, Z.min_id, Nat2Z.id.
  rewrite removelast_last, substring_all, string_app_nil_l, Z.ltb_irrefl. reflexivity.
Qed.

Section WriterMore.
Context {dump : DumpPkg} {els : Elsewhere}.

(** The loop over chunks that have their sources, with no fault of the
    tar writer and a context that is not done: one entry each, and the
    loop goes on with what is left. *)
Lemma writeLoop_app (t : Transferer) (os : OS) (ctx : nat -> option error)
    (pre rest : list Chunk) (i : nat) (meta : Meta) (tw : TarWriter) :
  (forall n, tar_fault os n = None) ->
  sealed tw ->
  (forall j, (i <= j < i + length pre)%nat -> ctx j = None) ->
  Forall (fun c => is_Some (sourceByType t (Chunk_Source c))) pre ->
  writeLoop t os ctx i meta (pre ++ rest) tw =
  writeLoop t os ctx (i + length pre)
    (mkMeta (largest pre (MaxChunkSize meta)) (Meta_rest meta)) rest
    (mkTarWriter (entries tw ++ map chunkEntry pre) (writes tw + 2 * length pre)).
Proof.
  intros Hf. revert i meta tw. induction pre as [|c pre IH]; intros i meta tw Hs Hctx Hsrc.
  - cbn [app length map largest fold_left]. rewrite app_nil_r, !Nat.add_0_r.
    now destruct meta, tw.
  - inversion Hsrc as [|? ? [s Hc] Hsrc']; subst.
    cbn [app writeLoop]. rewrite (Hctx i) by (cbn [length]; lia). rewrite Hc.
    apply sourceByType_Some in Hc. rewrite Hc.
    rewrite (tar_WriteHeader_sealed os tw _ (Hf _) Hs).
    rewrite (tar_Write_fresh os (entries tw) _
               (mkTarHeader TypeReg (path_Join [SourceType_String (Chunk_Source c); Filename c])
                  (Z.of_nat (String.length (Content c))) 384)
               (Content c) (Hf _) eq_refl).
    rewrite IH; [| |intros j Hj; apply Hctx; cbn [length]; lia|exact Hsrc'].
    2: { unfold sealed. cbn [entries]. rewrite last_snoc. cbn. lia. }
    cbn [entries writes length map]. rewrite <- app_assoc. cbn [app].
    replace (S i + length pre)%nat with (i + S (length pre))%nat by lia.
    replace (S (S (writes tw)) + 2 * length pre)%nat
      with (writes tw + 2 * S (length pre))%nat by lia.
    rewrite largest_cons. unfold chunkEntry at 2.
    destruct (Z.of_nat (String.length (Content c)) >? MaxChunkSize meta) eqn:Hgt;
      cbn [MaxChunkSize Meta_rest].
    + rewrite Z.gtb_ltb in Hgt. apply Z.ltb_lt in Hgt. now rewrite Z.max_r by lia.
    + rewrite Z.gtb_ltb in Hgt. apply Z.ltb_ge in Hgt. now rewrite Z.max_l by lia.
Qed.


(** With the destination open the writer is its loop on an empty
    archive. *)
Lemma writeChunksToFile_opened (t : Transferer) (os : OS) (ctx : nat -> option error)
    (meta : Meta) (chunks : list Chunk) (dest : Dest) :
  opened t os dest ->
  writeChunksToFile t os ctx meta chunks =
    (fst (writeLoop t os ctx 0 meta chunks (mkTarWriter [] 0)),
     Some (dest, snd (writeLoop t os ctx 0 meta chunks (mkTarWriter [] 0)))).
Proof.
  unfold opened, writeChunksToFile. destruct (piped t).
  - intros ->. now destruct (writeLoop _ _ _ _ _ _ _).
  - intros (fp & -> & -> & -> & ->). now destruct (writeLoop _ _ _ _ _ _ _).
Qed.

(** X21.  Once the destination is open, standard output or the dump file
    alike: when the context is done at iteration [k] the writer returns
    its error; the archive holds the entries of the first [k] chunks
    and nothing else, the metadata writer has not run. *)
Theorem writer_cancelled (t : Transferer) (os : OS) (ctx : nat -> option error)
    (meta : Meta) (chunks : list Chunk) (k : nat) (e : error) (dest : Dest) :
  opened t os dest ->
  (forall n, tar_fault os n = None) ->
  (k <= length chunks)%nat ->
  (forall j, (j < k)%nat -> ctx j = None) ->
  ctx k = Some e ->
  Forall (fun c => is_Some (sourceByType t (Chunk_Source c))) (take k chunks) ->
  writeChunksToFile t os ctx meta chunks =
    (Some e, Some (dest, mkTarWriter (map chunkEntry (take k chunks)) (2 * k))).
Proof.
  intros Hp Hf Hk Hctx He Hsrc. rewrite (writeChunksToFile_opened t os ctx meta chunks dest Hp).
  rewrite <- (take_drop k chunks) at 1 2.
  assert (Hlen : length (take k chunks) = k) by (rewrite length_take; lia).
  rewrite (writeLoop_app t os ctx (take k chunks) (drop k chunks) 0 meta (mkTarWriter [] 0) Hf);
    [|exact I|intros j Hj; apply Hctx; lia|exact Hsrc].
  rewrite Hlen. cbn [entries writes app Nat.add].
  destruct (drop k chunks); cbn [writeLoop]; now rewrite He.
Qed.

(** X22.  Once the destination is open, standard output or the dump file
    alike: a chunk of a type with no source stops the writer with an
    error; the archive holds the entries of the chunks before it and
    nothing else, the metadata writer has not run. *)
Theorem writer_missing_source (t : Transferer) (os : OS) (ctx : nat -> option error)
    (meta : Meta) (pre post : list Chunk) (c : Chunk) (dest : Dest) :
  opened t os dest ->
  (forall n, tar_fault os n = None) ->
  (forall j, (j <= length pre)%nat -> ctx j = None) ->
  Forall (fun c => is_Some (sourceByType t (Chunk_Source c))) pre ->
  sourceByType t (Chunk_Source c) = None ->
  writeChunksToFile t os ctx meta (pre ++ c :: post) =
    (Some (errors_New "failed to find source to write chunk"),
     Some (dest, mkTarWriter (map chunkEntry pre) (2 * length pre))).
Proof.
  intros Hp Hf Hctx Hsrc Hc.
  rewrite (writeChunksToFile_opened t os ctx meta (pre ++ c :: post) dest Hp).
  rewrite (writeLoop_app t os ctx pre (c :: post) 0 meta (mkTarWriter [] 0) Hf);
    [|exact I|intros j Hj; apply Hctx; lia|exact Hsrc].
  cbn [writeLoop entries writes app Nat.add]. rewrite (Hctx (length pre)) by lia.
  now rewrite Hc.
Qed.

Lemma string_of_list_nonempty (l : list ascii) :
  l <> [] -> string_of_list_ascii l <> EmptyString.
Proof. destruct l; [contradiction|discriminate]. Qed.

Lemma path_Clean_nonempty (p : string) : path_Clean p <> EmptyString.
Proof.
  unfold path_Clean. destruct (list_ascii_of_string p) as [|ch rest]; [discriminate|].
  match goal with |- context [match ?r with [] => _ | _ :: _ => _ end] => destruct r eqn:Hr end;
    [discriminate|].
  apply string_of_list_nonempty. intros H. apply (f_equal (@length ascii)) in H.
  rewrite length_rev in H. discriminate H.
Qed.

(** X23.  Finding the path of the dump fails only when a path was given and
    its status cannot be read; a path that is found is never empty, and
    a given path that is neither a directory nor ends in a slash is
    taken as it is, whether the file exists or not. *)
Theorem getDumpFilepath_spec (os : OS) (customPath : string) (ts : Z) :
  (snd (getDumpFilepath os customPath ts) <> None <->
   customPath <> EmptyString /\ exists err, os_Stat os customPath = StatError err) /\
  (snd (getDumpFilepath os customPath ts) = None ->
   fst (getDumpFilepath os customPath ts) <> EmptyString) /\
  (customPath <> EmptyString ->
   os_Stat os customPath = StatNotExist \/ os_Stat os customPath = StatInfo false ->
   String.get (String.length customPath - 1) customPath <> Some "/"%char ->
   getDumpFilepath os customPath ts = (customPath, None)).
Proof.
  unfold getDumpFilepath.
  destruct (String.eqb_spec customPath EmptyString) as [He|He].
  - cbn [fst snd]. split; [|split].
    + split; [congruence|]. intros [H _]. contradiction.
    + intros _. rewrite string_app_cons. discriminate.
    + contradiction.
  - assert (Hlast : forall b,
              (if b || match String.get (String.length customPath - 1) customPath with
                       | Some ch => Ascii.eqb ch "/"
                       | None => false
                       end
               then (path_Join [customPath; "pmm-dump-" +:+ itoa ts +:+ ".tar.gz"], @None error)
               else (customPath, None)).1 <> EmptyString).
    { intros b. destruct (_ || _); cbn [fst]; [|exact He].
      rewrite (path_Join_two _ _ He). apply path_Clean_nonempty. }
    assert (Hkeep : String.get (String.length customPath - 1) customPath <> Some "/"%char ->
              match String.get (String.length customPath - 1) customPath with
              | Some ch => Ascii.eqb ch "/"
              | None => false
              end = false).
    { intros H. destruct (String.get _ customPath) as [ch|]; [|reflexivity].
      destruct (Ascii.eqb_spec ch "/"); [congruence|reflexivity]. }
    destruct (os_Stat os customPath) as [d| |err] eqn:Hst.
    + split; [|split].
      * split; [destruct (_ || _); cbn; congruence|]. intros [_ [err [=]]].
      * intros _. apply Hlast.
      * intros _ Hd Hg. destruct Hd as [Hd|Hd]; [discriminate Hd|]. injection Hd as ->.
        cbn [orb]. now rewrite (Hkeep Hg).
    + split; [|split].
      * split; [destruct (_ || _); cbn; congruence|]. intros [_ [err [=]]].
      * intros _. apply Hlast.
      * intros _ _ Hg. cbn [orb]. now rewrite (Hkeep Hg).
    + cbn [fst snd]. split; [|split].
      * split; [|discriminate]. intros _. split; [exact He|now exists err].
      * discriminate.
      * intros _ Hd. destruct Hd as [Hd|Hd]; discriminate Hd.
Qed.

End WriterMore.

(** *** Import, entry by entry *)

Section ImportMore.
Context {dump : DumpPkg} {els : Elsewhere}.

Lemma importLoop_meta (t : Transferer) (rm : Meta) (name content : string)
    (rest : list TarItem) (seen : bool) (w : IO) :
  snd (path_Split name) = MetaFilename ->
  importLoop t rm (TarFile name content :: rest) seen w =
    importLoop t rm rest true
      (mkIO (calls w)
         ((logs w ++ [mkLog DebugLevel [] "Reading file from dump..."]) ++
          readAndCompareDumpMeta content rm)).
Proof.
  intros Hn. cbn [importLoop]. unfold bind at 1. cbn [log].
  destruct (path_Split name) as [dir file]. cbn [snd] in Hn. subst file.
  rewrite String.eqb_refl. unfold bind at 1. reflexivity.
Qed.

Lemma importLoop_entry (t : Transferer) (rm : Meta) (d file content : string)
    (rest : list TarItem) (seen : bool) (w : IO) (s : Source) :
  Contains file "/" = false -> file <> MetaFilename ->
  ParseSourceType d <> UndefinedSource ->
  sourceByType t (ParseSourceType d) = Some s ->
  exists lg lg',
    importLoop t rm (TarFile (d +:+ "/" +:+ file) content :: rest) seen w =
    match WriteChunk s (calls w) file content with
    | Some e =>
      (Return (errors_Wrap e "failed to write chunk"),
       mkIO (calls w ++ [WriteChunkCall (Type_ s) file content]) lg)
    | None =>
      importLoop t rm rest seen (mkIO (calls w ++ [WriteChunkCall (Type_ s) file content]) lg')
    end.
Proof.
  intros Hfile Hmeta Hrec Hs.
  cbn [importLoop]. unfold bind at 1. cbn [log].
  rewrite (path_Split_dir d file Hfile).
  apply String.eqb_neq in Hmeta. rewrite Hmeta.
  unfold bind at 1. cbn [log]. rewrite slice_to_dir.
  rewrite bool_decide_eq_false_2 by exact Hrec. rewrite Hs.
  unfold bind at 1. unfold callWriteChunk. cbn [calls logs].
  destruct (WriteChunk s (calls w) file content) as [e|].
  - eexists _, (logs w). reflexivity.
  - unfold bind at 1. cbn [log calls logs]. eexists (logs w), _. reflexivity.
Qed.

Lemma importLoop_chunks (t : Transferer) (rm : Meta) (chunks : list Chunk)
    (rest : list TarItem) (seen : bool) (w : IO) :
  Forall (fun c => Contains (Filename c) "/" = false /\ Filename c <> MetaFilename /\
                   typeReadsBack c /\ accepted t c) chunks ->
  exists lg,
    importLoop t rm (map chunkItem chunks ++ rest) seen w =
    importLoop t rm rest seen (mkIO (calls w ++ map writeCall chunks) lg).
Proof.
  revert w. induction chunks as [|c chunks IH]; intros w Hall.
  - exists (logs w). cbn [map app]. rewrite app_nil_r. now destruct w.
  - inversion Hall as [|? ? (Hfile & Hmeta & [Hback Hdef] & s & Hs & Hw) Hall']; subst.
    cbn [map app]. unfold chunkItem at 1.
    destruct (importLoop_entry t rm (SourceType_String (Chunk_Source c)) (Filename c)
                (Content c) (map chunkItem chunks ++ rest) seen w s Hfile Hmeta)
      as (lg & lg' & ->); [now rewrite Hback|now rewrite Hback|].
    rewrite Hw. destruct (IH (mkIO (calls w ++ [WriteChunkCall (Type_ s) (Filename c) (Content c)]) lg')
                            Hall') as [lg2 ->].
    exists lg2. cbn [calls map]. rewrite <- app_assoc. unfold writeCall at 2.
    now rewrite (sourceByType_Some t _ s Hs).
Qed.

Lemma importLoop_metas (t : Transferer) (rm : Meta) (metas : list string)
    (seen : bool) (w : IO) :
  Contains MetaFilename "/" = false ->
  exists seen' lg,
    importLoop t rm (map (TarFile MetaFilename) metas) seen w =
    (Break seen', mkIO (calls w) lg).
Proof.
  intros Hm. revert seen w. induction metas as [|m metas IH]; intros seen w.
  - exists seen. eexists. cbn [map importLoop]. unfold bind at 1. cbn [log].
    unfold bind at 1. cbn [log]. reflexivity.
  - cbn [map]. rewrite importLoop_meta by now rewrite (path_Split_plain _ Hm).
    destruct (IH true (mkIO (calls w)
                ((logs w ++ [mkLog DebugLevel [] "Reading file from dump..."]) ++
                 readAndCompareDumpMeta m rm))) as (seen' & lg & ->).
    now exists seen', lg.
Qed.

Lemma finalizeLoop_app (pre rest : list Source) (w : IO) :
  Forall (fun s => forall h, FinalizeWrites s h = None) pre ->
  finalizeLoop (pre ++ rest) w =
    finalizeLoop rest (mkIO (calls w ++ map finalizeCall pre) (logs w)).
Proof.
  revert w. induction pre as [|s pre IH]; intros w Hall.
  - cbn [app map]. rewrite app_nil_r. now destruct w.
  - inversion Hall as [|? ? Hs Hall']; subst.
    cbn [app finalizeLoop]. unfold bind at 1. unfold callFinalizeWrites. rewrite Hs.
    rewrite (IH _ Hall'). cbn [calls logs map]. now rewrite <- app_assoc.
Qed.

Lemma finalizeLoop_all (ss : list Source) (w : IO) :
  Forall (fun s => forall h, FinalizeWrites s h = None) ss ->
  finalizeLoop ss w = (None, mkIO (calls w ++ map finalizeCall ss) (logs w)).
Proof.
  intros Hall. rewrite <- (app_nil_r ss) at 1. now rewrite (finalizeLoop_app ss [] w Hall).
Qed.

Lemma openDump_calls (t : Transferer) (os : OS) (w : IO) :
  calls (snd (openDump t os w)) = calls w.
Proof.
  unfold openDump. unfold bind at 1. cbn [log].
  destruct (piped t); [reflexivity|]. unfold bind at 1. reflexivity.
Qed.

Lemma Import_stream (t : Transferer) (os : OS) (rm : Meta) (w w0 w1 : IO)
    (items : list TarItem) (seen : bool) :
  openDump t os w = (inl (TarStream items), w0) ->
  importLoop t rm items false w0 = (Break seen, w1) ->
  Forall (fun s => forall h, FinalizeWrites s h = None) (sources t) ->
  exists lg,
    Import t os rm w =
      (Returns None, mkIO (calls w1 ++ map finalizeCall (sources t)) lg).
Proof.
  intros Hopen Hloop Hfin. unfold Import. unfold bind at 1. rewrite Hopen.
  unfold bind at 1. rewrite Hloop.
  unfold bind at 1.
  match goal with
  | |- context [(if negb seen then ?a else ?b) w1] =>
    assert (Hlog : calls (snd ((if negb seen then a else b) w1)) = calls w1)
      by (destruct seen; reflexivity);
    destruct ((if negb seen then a else b) w1) as [[] w2]
  end.
  cbn [snd] in Hlog.
  unfold bind at 1. cbn [log]. unfold bind at 1.
  rewrite (finalizeLoop_all (sources t) _ Hfin). cbn [ret calls logs].
  unfold bind at 1. cbn [log calls logs fst snd]. rewrite Hlog.
  eexists. reflexivity.
Qed.

Lemma importLoop_chunks_metas (t : Transferer) (rm : Meta) (chunks : list Chunk)
    (metas : list string) (w0 : IO) :
  Contains MetaFilename "/" = false ->
  Forall (fun c => Contains (Filename c) "/" = false /\ Filename c <> MetaFilename /\
                   typeReadsBack c /\ accepted t c) chunks ->
  exists seen lg,
    importLoop t rm (map chunkItem chunks ++ map (TarFile MetaFilename) metas) false w0 =
      (Break seen, mkIO (calls w0 ++ map writeCall chunks) lg).
Proof.
  intros Hm Hall.
  destruct (importLoop_chunks t rm chunks (map (TarFile MetaFilename) metas) false w0 Hall)
    as [lg ->].
  destruct (importLoop_metas t rm metas false (mkIO (calls w0 ++ map writeCall chunks) lg) Hm)
    as (seen & lg' & ->).
  now exists seen, lg'.
Qed.


(** X25.  A file with the name of the metadata file is read as metadata in
    whatever directory it lies: it is compared with the runtime
    metadata and never passed to an adapter, and the import goes on. *)
Theorem meta_entry_in_any_directory (t : Transferer) (rm : Meta) (d content : string)
    (rest : list TarItem) (seen : bool) (w : IO) :
  Contains MetaFilename "/" = false ->
  importLoop t rm (TarFile (d +:+ "/" +:+ MetaFilename) content :: rest) seen w =
    importLoop t rm rest true
      (mkIO (calls w)
         ((logs w ++ [mkLog DebugLevel [] "Reading file from dump..."]) ++
          readAndCompareDumpMeta content rm)) /\
  importLoop t rm (TarFile MetaFilename content :: rest) seen w =
    importLoop t rm rest true
      (mkIO (calls w)
         ((logs w ++ [mkLog DebugLevel [] "Reading file from dump..."]) ++
          readAndCompareDumpMeta content rm)).
Proof.
  intros Hm. split; apply importLoop_meta.
  - now rewrite (path_Split_dir d _ Hm).
  - now rewrite (path_Split_plain _ Hm).
Qed.

(** X26.  Finalizing stops at the first source that fails: its error is
    returned, and the sources after it are not finalized. *)
Theorem finalize_first_failure (pre post : list Source) (s : Source) (w : IO) (e : error) :
  Forall (fun s' => forall h, FinalizeWrites s' h = None) pre ->
  FinalizeWrites s (calls w ++ map finalizeCall pre) = Some e ->
  finalizeLoop (pre ++ s :: post) w =
    (Some (errors_Wrap e "failed to finalize import"),
     mkIO (calls w ++ map finalizeCall (pre ++ [s])) (logs w)).
Proof.
  intros Hpre Hs. rewrite (finalizeLoop_app pre (s :: post) w Hpre).
  cbn [finalizeLoop]. unfold bind at 1. unfold callFinalizeWrites. cbn [calls logs].
  rewrite Hs. unfold ret. now rewrite map_app, app_assoc.
Qed.

Lemma importLoop_calls (t : Transferer) (rm : Meta) (items : list TarItem) (seen : bool)
    (w w' : IO) (x : loopExit) :
  importLoop t rm items seen w = (x, w') ->
  exists ws,
    calls w' = (calls w ++ ws)%list /\
    Forall isWriteCall ws /\
    (forall seen', x = Break seen' -> Forall isFile items).
Proof.
  revert seen w. induction items as [|it items IH]; intros seen w Hrun.
  - cbn [importLoop] in Hrun. unfold bind at 1 in Hrun. cbn [log] in Hrun.
    unfold bind at 1 in Hrun. cbn [log] in Hrun. injection Hrun as <- <-.
    exists []. cbn [calls]. rewrite app_nil_r. repeat split; constructor.
  - assert (Hcons : forall name content seen1 w1 ws1,
               it = TarFile name content ->
               calls w1 = (calls w ++ ws1)%list -> Forall isWriteCall ws1 ->
               importLoop t rm items seen1 w1 = (x, w') ->
               exists ws,
                 calls w' = (calls w ++ ws)%list /\
                 Forall isWriteCall ws /\
                 (forall seen', x = Break seen' -> Forall isFile (it :: items))).
    { intros name content seen1 w1 ws1 -> Hw1 Hws1 Hrun1.
      destruct (IH seen1 w1 Hrun1) as (ws & Hc & Hws & Hbr).
      exists (ws1 ++ ws)%list. rewrite Hc, Hw1, <- app_assoc.
      repeat split; [now apply Forall_app|].
      intros seen' H. constructor; [now exists name, content|now apply (Hbr seen')]. }
    destruct it as [name content|err].
    2: { cbn [importLoop] in Hrun. unfold bind at 1 in Hrun. cbn [log] in Hrun.
         injection Hrun as <- <-. exists []. cbn [calls]. rewrite app_nil_r.
         repeat split; [constructor|discriminate]. }
    cbn [importLoop] in Hrun. unfold bind at 1 in Hrun. cbn [log] in Hrun.
    destruct (path_Split name) as [dir file].
    destruct (String.eqb file MetaFilename).
    { unfold bind at 1 in Hrun. apply (Hcons name content _ _ [] eq_refl) in Hrun; auto.
      cbn [calls]. now rewrite app_nil_r. }
    unfold bind at 1 in Hrun. cbn [log] in Hrun.
    destruct (slice_to dir _) as [d|].
    2: { injection Hrun as <- <-. exists []. cbn [calls]. rewrite app_nil_r.
         repeat split; [constructor|discriminate]. }
    destruct (bool_decide _).
    { injection Hrun as <- <-. exists []. cbn [calls]. rewrite app_nil_r.
      repeat split; [constructor|discriminate]. }
    destruct (sourceByType t (ParseSourceType d)) as [s|].
    2: { unfold bind at 1 in Hrun. cbn [log] in Hrun.
         apply (Hcons name content _ _ [] eq_refl) in Hrun; auto.
         cbn [calls]. now rewrite app_nil_r. }
    unfold bind at 1 in Hrun. unfold callWriteChunk in Hrun. cbn [calls logs] in Hrun.
    assert (Hone : Forall isWriteCall [WriteChunkCall (Type_ s) file content]).
    { constructor; [|constructor]. now exists (Type_ s), file, content. }
    destruct (WriteChunk s (calls w) file content) as [e|].
    + injection Hrun as <- <-. exists [WriteChunkCall (Type_ s) file content].
      cbn [calls]. split; [reflexivity|]. split; [exact Hone|discriminate].
    + unfold bind at 1 in Hrun. cbn [log calls logs] in Hrun.
      apply (Hcons name content _ _ [WriteChunkCall (Type_ s) file content] eq_refl) in Hrun;
        auto.
Qed.

(** X27.  Whatever the archive and the adapters, an import calls nothing but
    WriteChunk until it has read the archive to its end: a source is
    finalized only after every entry was read and none made the import
    fail. *)
Theorem finalize_only_after_archive (t : Transferer) (os : OS) (rm : Meta) (w : IO)
    (st : SourceType) :
  In (FinalizeWritesCall st) (calls (snd (Import t os rm w))) ->
  ~ In (FinalizeWritesCall st) (calls w) ->
  exists items seen,
    fst (openDump t os w) = inl (TarStream items) /\
    fst (importLoop t rm items false (snd (openDump t os w))) = Break seen /\
    Forall isFile items.
Proof.
  intros Hin Hnot. unfold Import in Hin. unfold bind at 1 in Hin.
  pose proof (openDump_calls t os w) as Hoc.
  destruct (openDump t os w) as [file w0]. cbn [fst snd] in *.
  destruct file as [[err|items]|err].
  - cbn [ret snd] in Hin. rewrite Hoc in Hin. contradiction.
  - unfold bind at 1 in Hin.
    destruct (importLoop t rm items false w0) as [x w1] eqn:Hrun. cbn [fst snd] in *.
    destruct (importLoop_calls t rm items false w0 w1 x Hrun) as (ws & Hc & Hws & Hbr).
    assert (Hw1 : ~ In (FinalizeWritesCall st) (calls w1)).
    { rewrite Hc, Hoc. intros H. apply in_app_or in H as [H|H]; [contradiction|].
      rewrite List.Forall_forall in Hws. destruct (Hws _ H) as (? & ? & ? & [=]). }
    destruct x as [seen|err|msg].
    + exists items, seen. split; [reflexivity|].
      split; [now rewrite Hrun|now apply (Hbr seen)].
    + cbn [ret snd] in Hin. contradiction.
    + cbn [ret snd] in Hin. contradiction.
  - cbn [ret snd] in Hin. rewrite Hoc in Hin. contradiction.
Qed.

Lemma writeLoop_sources (t : Transferer) (os : OS) (ctx : nat -> option error)
    (chunks : list Chunk) (i : nat) (meta : Meta) (tw tw' : TarWriter) :
  writeLoop t os ctx i meta chunks tw = (None, tw') ->
  Forall (fun c => is_Some (sourceByType t (Chunk_Source c))) chunks.
Proof.
  revert i meta tw. induction chunks as [|c chunks IH]; intros i meta tw; [constructor|].
  cbn [writeLoop]. destruct (ctx i); [discriminate|].
  destruct (sourceByType t (Chunk_Source c)) as [s|] eqn:Hs; [|discriminate].
  destruct (tar_WriteHeader os tw _) as [tw1 [e|]]; [discriminate|].
  destruct (tar_Write os tw1 _) as [tw2 [e|]]; [discriminate|].
  intros H. constructor; [now exists s|]. now apply IH in H.
Qed.

Lemma itemsOf_chunks (chunks : list Chunk) :
  Forall (fun c => plainName (SourceType_String (Chunk_Source c)) /\ plainName (Filename c))
    chunks ->
  itemsOf (map chunkEntry chunks) = map chunkItem chunks.
Proof.
  induction 1 as [|c chunks [Hs Hf] _ IH]; [reflexivity|].
  cbn [map itemsOf]. fold (itemsOf (map chunkEntry chunks)). rewrite IH.
  unfold chunkEntry at 1, chunkItem at 2. cbn [Name header body].
  now rewrite (path_Join_plain _ _ Hs Hf).
Qed.

(** X28.  What the writer wrote the import reads back: after an export
    without error, of chunks with plain names, none of them named like
    the metadata file, whose types read back from their names, an
    import of the archive with the same sources (none failing) writes
    each chunk under its file name and with its very content to the
    adapter of its type, in the order of the export, finalizes each
    source and returns no error. *)
Theorem export_import_round_trip (t : Transferer) (os os' : OS)
    (ctx : nat -> option error) (meta rm : Meta) (chunks : list Chunk)
    (dest : Dest) (tw : TarWriter) (w : IO) :
  writeChunksToFile t os ctx meta chunks = (None, Some (dest, tw)) ->
  (forall tw0 m tw1,
     writeMetafile os tw0 m = (tw1, None) ->
     exists e, entries tw1 = (entries tw0 ++ [e])%list /\ Name (header e) = MetaFilename) ->
  Contains MetaFilename "/" = false ->
  Forall (fun c => plainName (SourceType_String (Chunk_Source c)) /\
                   plainName (Filename c) /\ Filename c <> MetaFilename /\
                   typeReadsBack c) chunks ->
  Forall (fun s => forall h, FinalizeWrites s h = None /\
                             forall f b, WriteChunk s h f b = None) (sources t) ->
  fst (openDump t os' w) = inl (TarStream (itemsOf (entries tw))) ->
  fst (Import t os' rm w) = Returns None /\
  calls (snd (Import t os' rm w)) =
    (calls w ++ map writeCall chunks ++ map finalizeCall (sources t))%list.
Proof.
  intros Hexp Hmeta Hm Hall Hsrc Hopen.
  assert (Hloop : writeLoop t os ctx 0 meta chunks (mkTarWriter [] 0) = (None, tw)).
  { unfold writeChunksToFile in Hexp.
    destruct (writeLoop t os ctx 0 meta chunks (mkTarWriter [] 0)) as [err tw0].
    destruct (piped t).
    - now injection Hexp as -> _ ->.
    - destruct (getDumpFilepath _ _ _) as [fp [e|]]; [discriminate|].
      destruct (os_MkdirAll os _); [discriminate|].
      destruct (os_Create os _); [discriminate|].
      now injection Hexp as -> _ ->. }
  pose proof (writeLoop_sources _ _ _ _ _ _ _ _ Hloop) as Hhas.
  apply writeLoop_ok in Hloop as (tw1 & Hent & Hwm).
  apply Hmeta in Hwm as (e & He & Hname). cbn [entries app] in Hent.
  rewrite He, Hent in Hopen. unfold itemsOf in Hopen. rewrite map_app in Hopen.
  fold (itemsOf (map chunkEntry chunks)) in Hopen.
  rewrite itemsOf_chunks in Hopen.
  2: { eapply Forall_impl; [exact Hall|]. cbn. tauto. }
  cbn [map] in Hopen. rewrite Hname in Hopen.
  assert (Hacc : Forall (fun c => Contains (Filename c) "/" = false /\
                                  Filename c <> MetaFilename /\
                                  typeReadsBack c /\ accepted t c) chunks).
  { rewrite List.Forall_forall in Hall, Hhas, Hsrc. apply List.Forall_forall.
    intros c Hc. destruct (Hall c Hc) as (_ & Hf & Hne & Hback).
    split; [apply Hf|]. split; [exact Hne|]. split; [exact Hback|].
    destruct (Hhas c Hc) as [s Hs]. exists s. split; [exact Hs|].
    intros h. apply Hsrc. unfold sourceByType in Hs. now apply find_some in Hs as [Hs _]. }
  assert (Hfin : Forall (fun s => forall h, FinalizeWrites s h = None) (sources t)).
  { eapply Forall_impl; [exact Hsrc|]. cbn. intros s H h. apply H. }
  pose proof (openDump_calls t os' w) as Hoc.
  destruct (openDump t os' w) as [file w0] eqn:Hod. cbn [fst snd] in Hopen, Hoc. subst file.
  destruct (importLoop_chunks_metas t rm chunks [body e] w0 Hm Hacc) as (seen & lg & Hloop).
  destruct (Import_stream t os' rm w w0 _ _ seen Hod Hloop Hfin) as [lg2 ->].
  cbn [fst snd calls]. split; [reflexivity|]. now rewrite Hoc, <- app_assoc.
Qed.

End ImportMore.

(** ** More examples *)

(** Three iterations under WAIT. *)
Lemma reader_waits_witness :
  readChunksFromSource 3 demoTransferer listPool (fun _ => None) (fun _ => LoadStatusWait) 0
    (mkReader [(DVictoriaMetrics, 3%nat)] [] [] [])
  = (None,
     mkReader [(DVictoriaMetrics, 3%nat)] [] []
       ([] ++ repeat MaxLoadWaitDuration 3)).
Proof.
  apply (reader_waits (dump := demoDump) 3 demoTransferer listPool (fun _ => None)
           (fun _ => LoadStatusWait) 0 (mkReader [(DVictoriaMetrics, 3%nat)] [] [] [])).
  intros j _. split; reflexivity.
Defined.

(** A pool of two chunks: with every send completing, and with the
    second send never completing. *)
Lemma reader_drains_pool_witness :
  (exists w',
     readWorker 3 demoTransferer listPool (fun _ => None) (fun _ => LoadStatusOK)
       (fun _ => true) 0
       (mkReader [(DVictoriaMetrics, 2%nat); (DVictoriaMetrics, 1%nat)] [] [] [])
     = (Returned (Returns None), w') /\
     chunkC w' = ([] ++ [@mkChunk demoDump DVictoriaMetrics "c.bin" "xx";
                         @mkChunk demoDump DVictoriaMetrics "c.bin" "x"])%list /\
     rcalls w' = ([] ++ map (@readCall demoDump)
                          [(DVictoriaMetrics, 2%nat); (DVictoriaMetrics, 1%nat)])%list /\
     sleeps w' = []) /\
  (exists w',
     readWorker 3 demoTransferer listPool (fun _ => None) (fun _ => LoadStatusOK)
       (fun j => Nat.eqb j 0) 0
       (mkReader [(DVictoriaMetrics, 2%nat); (DVictoriaMetrics, 1%nat)] [] [] [])
     = (Hung, w') /\
     chunkC w' = ([] ++ take 1 [@mkChunk demoDump DVictoriaMetrics "c.bin" "xx";
                                @mkChunk demoDump DVictoriaMetrics "c.bin" "x"])%list /\
     rcalls w' = ([] ++ map (@readCall demoDump)
                          (take 2 [(DVictoriaMetrics, 2%nat); (DVictoriaMetrics, 1%nat)]))%list /\
     sleeps w' = []).
Proof.
  split.
  - apply (proj1 (reader_drains_pool (dump := demoDump) 3 demoTransferer listPool
                    (fun _ => None) (fun _ => LoadStatusOK) (fun _ => true) 0
                    (mkReader [(DVictoriaMetrics, 2%nat); (DVictoriaMetrics, 1%nat)] [] [] [])
                    [(DVictoriaMetrics, 2%nat); (DVictoriaMetrics, 1%nat)]
                    [@mkChunk demoDump DVictoriaMetrics "c.bin" "xx";
                     @mkChunk demoDump DVictoriaMetrics "c.bin" "x"]
                    ltac:(cbn; repeat split)
                    ltac:(intros j _; split; reflexivity)
                    ltac:(repeat constructor; exists (demoSource DVictoriaMetrics);
                          split; reflexivity)
                    ltac:(cbn; lia))).
    reflexivity.
  - apply (proj2 (reader_drains_pool (dump := demoDump) 3 demoTransferer listPool
                    (fun _ => None) (fun _ => LoadStatusOK) (fun j => Nat.eqb j 0) 0
                    (mkReader [(DVictoriaMetrics, 2%nat); (DVictoriaMetrics, 1%nat)] [] [] [])
                    [(DVictoriaMetrics, 2%nat); (DVictoriaMetrics, 1%nat)]
                    [@mkChunk demoDump DVictoriaMetrics "c.bin" "xx";
                     @mkChunk demoDump DVictoriaMetrics "c.bin" "x"]
                    ltac:(cbn; repeat split)
                    ltac:(intros j _; split; reflexivity)
                    ltac:(repeat constructor; exists (demoSource DVictoriaMetrics);
                          split; reflexivity)
                    ltac:(cbn; lia)) 1%nat).
    + cbn. lia.
    + intros j Hj. destruct j; [reflexivity|lia].
    + reflexivity.
Defined.


(** The context is done when the second chunk is due, the archive going
    to a dump file. *)
Lemma writer_cancelled_witness :
  writeChunksToFile (els := demoElsewhere) fileTransferer demoOS
    (fun j => if Nat.eqb j 1 then Some "context canceled" else None)
    (@mkMeta demoDump 10 tt) [demoChunk; demoChunk2]
  = (Some "context canceled",
     Some (File "out.tar.gz",
           mkTarWriter (map chunkEntry (take 1 [demoChunk; demoChunk2])) (2 * 1))).
Proof.
  apply (writer_cancelled (els := demoElsewhere) fileTransferer demoOS
           (fun j => if Nat.eqb j 1 then Some "context canceled" else None)
           (@mkMeta demoDump 10 tt) [demoChunk; demoChunk2] 1 "context canceled"
           (File "out.tar.gz")).
  - exists "out.tar.gz"%string. repeat split.
  - reflexivity.
  - cbn. lia.
  - intros j Hj. destruct j; [reflexivity|lia].
  - reflexivity.
  - repeat constructor. now exists (demoSource DVictoriaMetrics).
Defined.

(** A ClickHouse chunk with the VictoriaMetrics source alone. *)
Lemma writer_missing_source_witness :
  writeChunksToFile (els := demoElsewhere) demoTransferer demoOS (fun _ => None)
    (@mkMeta demoDump 10 tt)
    ([demoChunk] ++ @mkChunk demoDump DClickHouse "e.bin" "zz" :: [demoChunk2])
  = (Some (errors_New "failed to find source to write chunk"),
     Some (Stdout, mkTarWriter (map chunkEntry [demoChunk]) (2 * length [demoChunk]))).
Proof.
  apply (writer_missing_source (els := demoElsewhere) demoTransferer demoOS (fun _ => None)
           (@mkMeta demoDump 10 tt) [demoChunk] [demoChunk2]
           (@mkChunk demoDump DClickHouse "e.bin" "zz") Stdout).
  - reflexivity.
  - reflexivity.
  - reflexivity.
  - repeat constructor. now exists (demoSource DVictoriaMetrics).
  - reflexivity.
Defined.


(** The metadata file under the directory of a source type. *)
Lemma meta_entry_in_any_directory_witness :
  importLoop (els := demoElsewhere) demoTransferer (@mkMeta demoDump 0 tt)
    [TarFile ("vm" +:+ "/" +:+ @MetaFilename demoDump) "x"] false (mkIO [] []) =
  importLoop (els := demoElsewhere) demoTransferer (@mkMeta demoDump 0 tt) [] true
    (mkIO []
       (([] ++ [mkLog DebugLevel [] "Reading file from dump..."]) ++
        readAndCompareDumpMeta (Elsewhere := demoElsewhere) "x" (@mkMeta demoDump 0 tt))).
Proof.
  apply (proj1 (meta_entry_in_any_directory (els := demoElsewhere) demoTransferer
                  (@mkMeta demoDump 0 tt) "vm" "x" [] false (mkIO [] []) eq_refl)).
Defined.

(** The second of three sources fails. *)
Lemma finalize_first_failure_witness :
  finalizeLoop ([demoSource DVictoriaMetrics] ++ failingSource DClickHouse ::
                [demoSource DUndefined]) (mkIO [] [])
  = (Some (errors_Wrap "flush failed" "failed to finalize import"),
     mkIO ([] ++ map finalizeCall ([demoSource DVictoriaMetrics] ++ [failingSource DClickHouse]))
       []).
Proof.
  apply (finalize_first_failure (dump := demoDump) [demoSource DVictoriaMetrics]
           [demoSource DUndefined] (failingSource DClickHouse) (mkIO [] []) "flush failed").
  - repeat constructor.
  - reflexivity.
Defined.

(** An import of one chunk: the source was finalized, so the archive was
    read to its end. *)
Lemma finalize_only_after_archive_witness :
  exists items seen,
    fst (openDump demoTransferer (demoOSWith [chunkItem demoChunk]) (mkIO [] []))
      = inl (TarStream items) /\
    fst (importLoop (els := demoElsewhere) demoTransferer (@mkMeta demoDump 0 tt) items false
           (snd (openDump demoTransferer (demoOSWith [chunkItem demoChunk]) (mkIO [] []))))
      = Break seen /\
    Forall isFile items.
Proof.
  apply (finalize_only_after_archive (els := demoElsewhere) demoTransferer
           (demoOSWith [chunkItem demoChunk]) (@mkMeta demoDump 0 tt) (mkIO [] [])
           DVictoriaMetrics).
  - vm_compute. tauto.
  - intros [].
Defined.

(** One chunk, exported to standard output and imported again. *)
Lemma export_import_round_trip_witness :
  fst (Import (els := demoElsewhere) demoTransferer
         (demoOSWith
            (itemsOf [mkTarEntry (mkTarHeader TypeReg "vm/c.bin" 3 384) "abc";
                      mkTarEntry (mkTarHeader TypeReg "meta.json" 15 384) "MaxChunkSize=10"]))
         (@mkMeta demoDump 0 tt) (mkIO [] []))
  = Returns None /\
  calls (snd (Import (els := demoElsewhere) demoTransferer
                (demoOSWith
                   (itemsOf [mkTarEntry (mkTarHeader TypeReg "vm/c.bin" 3 384) "abc";
                             mkTarEntry (mkTarHeader TypeReg "meta.json" 15 384)
                               "MaxChunkSize=10"]))
                (@mkMeta demoDump 0 tt) (mkIO [] [])))
  = ([] ++ map writeCall [demoChunk] ++ map finalizeCall (sources demoTransferer))%list.
Proof.
  apply (export_import_round_trip (els := demoElsewhere) demoTransferer demoOS
           (demoOSWith
              (itemsOf [mkTarEntry (mkTarHeader TypeReg "vm/c.bin" 3 384) "abc";
                        mkTarEntry (mkTarHeader TypeReg "meta.json" 15 384)
                          "MaxChunkSize=10"]))
           (fun _ => None) (@mkMeta demoDump 10 tt) (@mkMeta demoDump 0 tt) [demoChunk] Stdout
           (mkTarWriter
              [mkTarEntry (mkTarHeader TypeReg "vm/c.bin" 3 384) "abc";
               mkTarEntry (mkTarHeader TypeReg "meta.json" 15 384) "MaxChunkSize=10"] 3)
           (mkIO [] [])).
  - vm_compute. reflexivity.
  - intros tw0 m tw1 [= <-]. eexists. split; reflexivity.
  - reflexivity.
  - repeat constructor; try discriminate.
  - repeat constructor.
  - reflexivity.
Defined.
